(** * polymarket-agent: terminal input scrubbing, tag extraction, wrapping

    A shallow embedding of the pure text-processing core of
    [src/polymarket-demo.ts] (and the copy of [consumeMouseScroll] in
    [src/ink-input-test.tsx]), with the properties its specification
    states about it.

    JavaScript strings are sequences of UTF-16 code units; they are
    modelled as lists of code units, a code unit being a number of type
    [N] (no result below depends on the upper bound of a code unit).
    [s.length] is [length], [s.slice(a)] is [skipn], [s.slice(0,b)] is
    [firstn], string concatenation is [++].  The numbers of the source
    (widths, line counts, offsets, timestamps) are integers wherever the
    program computes them and are modelled in [Z].  Functions that
    mutate an object they are given ([buffer.value], [state]) return its
    new value. *)

From Stdlib Require Import String Ascii.
From Stdlib Require Import List ZArith NArith Lia Bool.
From Stdlib Require Import DecimalString DecimalNat.
From Stdlib Require Import Permutation Sorted.
Import ListNotations.
Open Scope N_scope.
Open Scope nat_scope.

(** ** Strings *)

Definition char := N.
Definition jstring := list char.

Definition ch (a : ascii) : char := N_of_ascii a.

(** A string literal as a [jstring]. *)
Definition js (s : string) : jstring := map ch (list_ascii_of_string s).

Definition ESC : char := 27%N.
Definition BEL : char := 7%N.
Definition CR : char := 13%N.
Definition LF : char := 10%N.
Definition TAB : char := 9%N.
Definition DEL : char := 127%N.

Definition len (s : jstring) : Z := Z.of_nat (length s).

Fixpoint jeqb (a b : jstring) : bool :=
  match a, b with
  | [], [] => true
  | x :: a', y :: b' => N.eqb x y && jeqb a' b'
  | _, _ => false
  end.

(** [s.startsWith(pat)] *)
Fixpoint startsWith (pat s : jstring) : bool :=
  match pat, s with
  | [], _ => true
  | p :: pat', c :: s' => N.eqb p c && startsWith pat' s'
  | _ :: _, [] => false
  end.

(** [s.indexOf(pat)]; [None] stands for [-1]. *)
Fixpoint indexOf (pat s : jstring) : option nat :=
  if startsWith pat s then Some 0
  else match s with
       | [] => None
       | _ :: s' => option_map S (indexOf pat s')
       end.

(** [s.lastIndexOf(pat)]; [None] stands for [-1]. *)
Fixpoint lastIndexOf (pat s : jstring) : option nat :=
  match s with
  | [] => if startsWith pat [] then Some 0 else None
  | _ :: s' =>
      match lastIndexOf pat s' with
      | Some i => Some (S i)
      | None => if startsWith pat s then Some 0 else None
      end
  end.

(** [s.split(sep)] for a separator of one code unit. *)
Fixpoint split (sep : char) (s : jstring) : list jstring :=
  match s with
  | [] => [[]]
  | c :: s' =>
      if N.eqb c sep then [] :: split sep s'
      else match split sep s' with
           | w :: ws => (c :: w) :: ws
           | [] => [[c]]
           end
  end.

(** ** Regular expressions

    The fragment of JavaScript regular expressions the source uses:
    literals, character classes, sequence, alternation, [?], a greedy [*]
    over a character class, and capture groups.  Matching is the
    backtracking matcher of ECMAScript, written with a continuation: the
    continuation receives the rest of the input and the captures so far,
    and a failure of the continuation makes the matcher try its next
    alternative. *)

Inductive regex : Type :=
| Cls (p : char -> bool)
| Seq (r1 r2 : regex)
| Alt (r1 r2 : regex)
| Opt (r : regex)
| Star (p : char -> bool)
| Grp (r : regex).

Definition Lit (c : char) : regex := Cls (N.eqb c).
Definition Plus (p : char -> bool) : regex := Seq (Cls p) (Star p).

Declare Scope regex_scope.
Delimit Scope regex_scope with re.
Bind Scope regex_scope with regex.
Notation "r1 ;; r2" := (Seq r1 r2) (at level 60, right associativity) : regex_scope.
Notation "r1 || r2" := (Alt r1 r2) : regex_scope.

Definition mresult : Type := list jstring * jstring.
Definition kont : Type := jstring -> list jstring -> option mresult.

Fixpoint starK (p : char -> bool) (s : jstring)
    (k : jstring -> option mresult) : option mresult :=
  match s with
  | [] => k []
  | c :: t =>
      if p c then
        match starK p t k with
        | Some x => Some x
        | None => k s
        end
      else k s
  end.

Fixpoint mt (r : regex) (s : jstring) (caps : list jstring) (k : kont)
    : option mresult :=
  match r with
  | Cls p =>
      match s with
      | c :: t => if p c then k t caps else None
      | [] => None
      end
  | Seq r1 r2 => mt r1 s caps (fun s' caps' => mt r2 s' caps' k)
  | Alt r1 r2 =>
      match mt r1 s caps k with
      | Some x => Some x
      | None => mt r2 s caps k
      end
  | Opt r1 =>
      match mt r1 s caps k with
      | Some x => Some x
      | None => k s caps
      end
  | Star p => starK p s (fun s' => k s' caps)
  | Grp r1 =>
      mt r1 s caps
         (fun s' caps' => k s' (caps' ++ [firstn (length s - length s') s]))
  end.

(** A match of [r] at the start of [s]: the captures (in the order the
    groups close) and the input after the match. *)
Definition matchAt (r : regex) (s : jstring) : option mresult :=
  mt r s [] (fun s' caps => Some (caps, s')).

(** The length of the match of [r] at the start of [s]. *)
Definition matchLen (r : regex) (s : jstring) : option nat :=
  match matchAt r s with
  | Some (_, rest) => Some (length s - length rest)
  | None => None
  end.

(** [r.test(s)] for a regex without the [g] flag: is there a match at
    some position of [s]. *)
Fixpoint test (r : regex) (s : jstring) : bool :=
  match matchAt r s with
  | Some _ => true
  | None => match s with
            | [] => false
            | _ :: t => test r t
            end
  end.

(** [s.replace(/r/g, rep)]: every leftmost match, scanning left to
    right, is replaced by [rep]; the scan resumes after the match.
    [skip] counts the code units of a match still to be dropped.  After
    an empty match the scan copies one code unit and moves on. *)
Fixpoint replaceFrom (r : regex) (rep : jstring) (skip : nat) (s : jstring)
    : jstring :=
  match s with
  | [] =>
      match skip, matchAt r [] with
      | O, Some _ => rep
      | _, _ => []
      end
  | c :: t =>
      match skip with
      | S k => replaceFrom r rep k t
      | O =>
          match matchLen r s with
          | Some (S k) => rep ++ replaceFrom r rep k t
          | Some O => rep ++ c :: replaceFrom r rep 0 t
          | None => c :: replaceFrom r rep 0 t
          end
      end
  end.

Definition replaceAll (r : regex) (rep : jstring) (s : jstring) : jstring :=
  replaceFrom r rep 0 s.

(** One result of [r.exec(s)] for a regex with the [g] flag. *)
Record rmatch : Type := mkMatch {
  m_index : nat;
  m_groups : list jstring;
  m_lastIndex : nat
}.

(** The successive results of [r.exec(s)] until it returns [null], for
    a sticky scan started at [lastIndex = 0].  [idx] is the index of the
    head of [s] in the whole input.  (An empty match would not advance
    [lastIndex]; the scan steps over it.) *)
Fixpoint execFrom (r : regex) (skip idx : nat) (s : jstring) : list rmatch :=
  match s with
  | [] => []
  | _ :: t =>
      match skip with
      | S k => execFrom r k (S idx) t
      | O =>
          match matchAt r s with
          | Some (caps, rest) =>
              match length s - length rest with
              | S k => mkMatch idx caps (idx + S k) :: execFrom r k (S idx) t
              | O => execFrom r 0 (S idx) t
              end
          | None => execFrom r 0 (S idx) t
          end
      end
  end.

Definition execAll (r : regex) (s : jstring) : list rmatch := execFrom r 0 0 s.

(** *** Character classes *)

Definition inRange (lo hi c : char) : bool := N.leb lo c && N.leb c hi.

(** [\d] *)
Definition digit (c : char) : bool := inRange (ch "0") (ch "9") c.
(** [[\s\S]] *)
Definition anyChar (_ : char) : bool := true.
(** [[mM]] *)
Definition mM (c : char) : bool := N.eqb c (ch "m") || N.eqb c (ch "M").
(** [[0-9;?]] *)
Definition csiParam (c : char) : bool :=
  inRange (ch "0") (ch "9") c || N.eqb c (ch ";") || N.eqb c (ch "?").
(** [[ -/]] *)
Definition csiInter (c : char) : bool := inRange (ch " ") (ch "/") c.
(** [[@-~]] *)
Definition csiFinal (c : char) : bool := inRange (ch "@") (ch "~") c.
(** [[^\x07]] *)
Definition notBel (c : char) : bool := negb (N.eqb c BEL).
(** [[\x00-\x08\x0b\x0c\x0e-\x1f\x7f]] *)
Definition ctl (c : char) : bool :=
  (inRange 0 8 c || N.eqb c 11 || N.eqb c 12 || inRange 14 31 c
   || N.eqb c 127)%N.

(** *** The patterns of the source *)

(** [\d+;\d+;\d+] *)
Definition triple : regex :=
  (Plus digit ;; Lit (ch ";") ;; Plus digit ;; Lit (ch ";") ;; Plus digit)%re.

(** [/\r\n/] *)
Definition reCRLF : regex := (Lit CR ;; Lit LF)%re.
(** [/\r/] *)
Definition reCR : regex := Lit CR.
(** [/\x1b\[<\d+;\d+;\d+[mM]/] *)
Definition reSgrMouse : regex :=
  (Lit ESC ;; Lit (ch "[") ;; Lit (ch "<") ;; triple ;; Cls mM)%re.
(** [/\x1b\[\d+;\d+;\d+M/] *)
Definition reUrxvtMouse : regex :=
  (Lit ESC ;; Lit (ch "[") ;; triple ;; Lit (ch "M"))%re.
(** [/\[<?\d+;\d+;\d+[mM]/] *)
Definition rePartialMouse : regex :=
  (Lit (ch "[") ;; Opt (Lit (ch "<")) ;; triple ;; Cls mM)%re.
(** [/\x1b\[M[\s\S]{3}/] *)
Definition reX10 : regex :=
  (Lit ESC ;; Lit (ch "[") ;; Lit (ch "M") ;;
   Cls anyChar ;; Cls anyChar ;; Cls anyChar)%re.
(** [/\[M[\s\S]{3}/] *)
Definition rePartialX10 : regex :=
  (Lit (ch "[") ;; Lit (ch "M") ;; Cls anyChar ;; Cls anyChar ;; Cls anyChar)%re.
(** [/\x1b\[[0-9;?]*[ -/]*[@-~]/] *)
Definition reCSI : regex :=
  (Lit ESC ;; Lit (ch "[") ;; Star csiParam ;; Star csiInter ;; Cls csiFinal)%re.
(** [/\x1b\][^\x07]*(\x07|\x1b\\)/] *)
Definition reOSC : regex :=
  (Lit ESC ;; Lit (ch "]") ;; Star notBel ;;
   Grp (Lit BEL || (Lit ESC ;; Lit (ch "\"))))%re.
(** [/\x1b/] *)
Definition reEsc : regex := Lit ESC.
(** [/[\x00-\x08\x0b\x0c\x0e-\x1f\x7f]/] *)
Definition reCtl : regex := Cls ctl.
(** [64|65|96|97] *)
Definition reWheelCode : regex :=
  ((Lit (ch "6") ;; Lit (ch "4")) || (Lit (ch "6") ;; Lit (ch "5")) ||
   (Lit (ch "9") ;; Lit (ch "6")) || (Lit (ch "9") ;; Lit (ch "7")))%re.
(** [/\x1b\[<(64|65|96|97);(\d+);(\d+)[mM]/] *)
Definition reWheel : regex :=
  (Lit ESC ;; Lit (ch "[") ;; Lit (ch "<") ;; Grp reWheelCode ;;
   Lit (ch ";") ;; Grp (Plus digit) ;; Lit (ch ";") ;; Grp (Plus digit) ;;
   Cls mM)%re.

(** ** [hasMouseSequence] and [stripInputArtifacts] *)

Definition hasMouseSequence (value : jstring) : bool :=
  test reSgrMouse value ||
  test reUrxvtMouse value ||
  test reX10 value ||
  test rePartialMouse value ||
  test rePartialX10 value.

Definition stripInputArtifacts (value : jstring) : jstring :=
  let cleaned := value in
  let cleaned := replaceAll reCR [LF] (replaceAll reCRLF [LF] cleaned) in
  let cleaned := replaceAll reSgrMouse [] cleaned in
  let cleaned := replaceAll reUrxvtMouse [] cleaned in
  let cleaned := replaceAll rePartialMouse [] cleaned in
  let cleaned := replaceAll reX10 [] cleaned in
  let cleaned := replaceAll rePartialX10 [] cleaned in
  let cleaned := replaceAll reCSI [] cleaned in
  let cleaned := replaceAll reOSC [] cleaned in
  let cleaned := replaceAll reEsc [] cleaned in
  let cleaned := replaceAll reCtl [] cleaned in
  cleaned.

(** ** [consumeMouseScroll] *)

Record ScrollParseResult : Type := mkScroll {
  remaining : jstring;
  delta : Z
}.

(** The introducer ["\x1b[<"] *)
Definition sgrIntro : jstring := ESC :: js "[<".

(** One turn of the [while (match)] loop: [match[1]] is the first
    capture. *)
Definition wheelStep (acc : Z * nat) (m : rmatch) : Z * nat :=
  let '(delta, _) := acc in
  let m1 := nth 0 (m_groups m) [] in
  ((delta + (if jeqb m1 (js "64") || jeqb m1 (js "96") then 1 else -1))%Z,
   m_lastIndex m).

Definition consumeMouseScroll (buffer : jstring) : ScrollParseResult :=
  let '(delta, lastIndex) :=
    fold_left wheelStep (execAll reWheel buffer) (0%Z, 0) in
  let remaining := buffer in
  let remaining :=
    if 0 <? lastIndex then skipn lastIndex buffer else remaining in
  let lastEsc := lastIndexOf sgrIntro remaining in
  let remaining :=
    match lastEsc with
    | Some (S i) => skipn (S i) remaining
    | _ => remaining
    end in
  {| remaining := remaining; delta := delta |}.

(** The [onData] handler of both programs: the chunk is appended to the
    retained buffer, decoded, and the remaining text retained. *)
Definition onData (buffer chunk : jstring) : ScrollParseResult :=
  consumeMouseScroll (buffer ++ chunk).

(** The retained buffer after a sequence of chunks. *)
Definition retained (chunks : list jstring) : jstring :=
  fold_left (fun buffer chunk => remaining (onData buffer chunk)) chunks [].

(** The deltas reported for a sequence of chunks, summed. *)
Fixpoint totalDelta (buffer : jstring) (chunks : list jstring) : Z :=
  match chunks with
  | [] => 0
  | chunk :: rest =>
      let r := onData buffer chunk in
      (delta r + totalDelta (remaining r) rest)%Z
  end.

(** ** [extractTagFromBuffer] *)

Record StreamTagState : Type := mkTag {
  opened : bool;
  done : bool;
  text : jstring
}.

Definition openTagOf (tag : jstring) : jstring := js "<" ++ tag ++ js ">".
Definition closeTagOf (tag : jstring) : jstring := js "</" ++ tag ++ js ">".

(** The function mutates [buffer.value] and [state]; the model returns
    the new value of both. *)
Definition extractTagFromBuffer (buffer : jstring) (tag : jstring)
    (state : StreamTagState) : jstring * StreamTagState :=
  if done state then (buffer, state) else
  let openTag := openTagOf tag in
  let closeTag := closeTagOf tag in
  let afterOpen : option (jstring * StreamTagState) :=
    if negb (opened state) then
      match indexOf openTag buffer with
      | None => None
      | Some openIdx =>
          Some (skipn (openIdx + length openTag) buffer,
                mkTag true (done state) (text state))
      end
    else Some (buffer, state) in
  match afterOpen with
  | None => (buffer, state)
  | Some (buffer, state) =>
      if negb (opened state) then (buffer, state) else
      match indexOf closeTag buffer with
      | Some closeIdx =>
          (skipn (closeIdx + length closeTag) buffer,
           mkTag (opened state) true (text state ++ firstn closeIdx buffer))
      | None =>
          if length closeTag <? length buffer then
            (skipn (length buffer - length closeTag) buffer,
             mkTag (opened state) (done state)
                   (text state
                    ++ firstn (length buffer - length closeTag) buffer))
          else (buffer, state)
      end
  end.

Definition initTag : StreamTagState := mkTag false false [].

(** [onStreamChunk] for one tracker: the chunk is appended to the shared
    buffer, then the tracker is pushed. *)
Definition onStreamChunk (tag : jstring) (bs : jstring * StreamTagState)
    (chunk : jstring) : jstring * StreamTagState :=
  extractTagFromBuffer (fst bs ++ chunk) tag (snd bs).

Definition feed (tag : jstring) (chunks : list jstring)
    : jstring * StreamTagState :=
  fold_left (onStreamChunk tag) chunks ([], initTag).

(** Two trackers on one shared buffer, pushed in this order after each
    append, as [onStreamChunk] does for its trackers. *)
Definition onStreamChunk2 (tag1 tag2 : jstring)
    (bs : jstring * StreamTagState * StreamTagState) (chunk : jstring)
    : jstring * StreamTagState * StreamTagState :=
  let '(buffer, st1, st2) := bs in
  let '(buffer, st1) := extractTagFromBuffer (buffer ++ chunk) tag1 st1 in
  let '(buffer, st2) := extractTagFromBuffer buffer tag2 st2 in
  (buffer, st1, st2).

Definition feed2 (tag1 tag2 : jstring) (chunks : list jstring)
    : jstring * StreamTagState * StreamTagState :=
  fold_left (onStreamChunk2 tag1 tag2) chunks ([], initTag, initTag).

(** ** [wrapText] *)

(** The loop [while (remaining.length > maxWidth)].  It runs only where
    [maxWidth >= 1], so every turn shortens [remaining] and
    [length remaining] turns are enough ([hardSplit_exit] below). *)
Fixpoint hardSplit (fuel : nat) (maxWidth : Z) (lines : list jstring)
    (remaining : jstring) : list jstring * jstring :=
  match fuel with
  | O => (lines, remaining)
  | S fuel' =>
      if (maxWidth <? len remaining)%Z then
        hardSplit fuel' maxWidth
                  (lines ++ [firstn (Z.to_nat maxWidth) remaining])
                  (skipn (Z.to_nat maxWidth) remaining)
      else (lines, remaining)
  end.

(** The body of [for (const word of words)], on the pair
    [(lines, current)]. *)
Definition wordStep (maxWidth : Z) (st : list jstring * jstring)
    (word : jstring) : list jstring * jstring :=
  let '(lines, current) := st in
  let next := if 0 <? length current then current ++ js " " ++ word else word in
  if (len next <=? maxWidth)%Z then (lines, next)
  else
    let lines := if 0 <? length current then lines ++ [current] else lines in
    if (maxWidth <? len word)%Z then hardSplit (length word) maxWidth lines word
    else (lines, word).

(** The body of [for (const paragraph of paragraphs)]. *)
Definition paragraphStep (maxWidth : Z) (lines : list jstring)
    (paragraph : jstring) : list jstring :=
  if (len paragraph <=? maxWidth)%Z then lines ++ [paragraph]
  else
    let words := split (ch " ") paragraph in
    let '(lines, current) := fold_left (wordStep maxWidth) words (lines, []) in
    if 0 <? length current then lines ++ [current] else lines.

Definition wrapText (text : jstring) (maxWidth : Z) : list jstring :=
  if (maxWidth <=? 0)%Z then [text]
  else
    let paragraphs := split LF text in
    let lines := fold_left (paragraphStep maxWidth) paragraphs [] in
    if 0 <? length lines then lines else [[]].

(** ** The scroll window of [ChatPanel] and [SidebarPanel]

    Both panels compute the visible slice with the same arithmetic;
    [viewportHeight] is [messagesHeight] in one and [bodyHeight] in the
    other. *)

Record ScrollWindow : Type := mkWindow {
  maxScroll : Z;
  effectiveOffset : Z;
  startIdx : Z;
  endIdx : Z
}.

Definition scrollWindow (totalLines viewportHeight scrollOffset : Z)
    : ScrollWindow :=
  let maxScroll := Z.max 0 (totalLines - viewportHeight) in
  let effectiveOffset := Z.min scrollOffset maxScroll in
  let startIdx := Z.max 0 (totalLines - viewportHeight - effectiveOffset) in
  let endIdx := Z.min totalLines (startIdx + viewportHeight) in
  mkWindow maxScroll effectiveOffset startIdx endIdx.

(** [clamp] of [src/ink-input-test.tsx] *)
Definition clamp (value min max : Z) : Z := Z.max min (Z.min max value).

(** ** [updateMessage] *)

Inductive ChatRole : Type := user | assistant | system.

Record ChatMessage : Type := mkMsg {
  id : jstring;
  role : ChatRole;
  content : jstring;
  timestamp : Z
}.

(** The state update [prev.map(msg => msg.id === id ? {...msg, content} : msg)] *)
Definition updateMessage (id0 content0 : jstring) (prev : list ChatMessage)
    : list ChatMessage :=
  map (fun msg =>
         if jeqb (id msg) id0
         then mkMsg (id msg) (role msg) content0 (timestamp msg)
         else msg) prev.

(** ** Definitions that follow the specification's words

    These are compared below with the definitions taken from the
    source. *)

(** The window as the specification states it, with
    [effectiveOffset = clamp(requestedOffset, 0, maxScroll)]. *)
Definition windowSpec (totalLines viewportHeight requestedOffset : Z)
    : ScrollWindow :=
  let maxScroll := Z.max 0 (totalLines - viewportHeight) in
  let effectiveOffset := clamp requestedOffset 0 maxScroll in
  let startIndex := Z.max 0 (totalLines - viewportHeight - effectiveOffset) in
  let endIndex := Z.min totalLines (startIndex + viewportHeight) in
  mkWindow maxScroll effectiveOffset startIndex endIndex.

Fixpoint skipWhile (p : char -> bool) (s : jstring) : jstring :=
  match s with
  | c :: t => if p c then skipWhile p t else s
  | [] => []
  end.

(** A non-empty run of decimal digits; the text after it. *)
Definition digitsThen (s : jstring) : option jstring :=
  match s with
  | c :: t => if digit c then Some (skipWhile digit t) else None
  | [] => None
  end.

(** The contribution of a wheel-button code: [64] and [96] are wheel up,
    [65] and [97] wheel down. *)
Definition wheelCode (a b : char) : option Z :=
  if (N.eqb a (ch "6") && N.eqb b (ch "4")) ||
     (N.eqb a (ch "9") && N.eqb b (ch "6")) then Some 1%Z
  else if (N.eqb a (ch "6") && N.eqb b (ch "5")) ||
          (N.eqb a (ch "9") && N.eqb b (ch "7")) then Some (-1)%Z
  else None.

(** The contribution of a complete SGR wheel sequence
    [ESC [ < code ; digits ; digits (m|M)] that starts at the head of
    [s]; [0] when none starts there. *)
Definition wheelAt (s : jstring) : Z :=
  match s with
  | e :: b :: l :: c1 :: c2 :: semi :: s1 =>
      if N.eqb e ESC && N.eqb b (ch "[") && N.eqb l (ch "<")
         && N.eqb semi (ch ";") then
        match wheelCode c1 c2, digitsThen s1 with
        | Some d, Some (semi2 :: s2) =>
            if N.eqb semi2 (ch ";") then
              match digitsThen s2 with
              | Some (fin :: _) => if mM fin then d else 0%Z
              | _ => 0%Z
              end
            else 0%Z
        | _, _ => 0%Z
        end
      else 0%Z
  | _ => 0%Z
  end.

(** The sum of the contributions of the complete wheel sequences of the
    buffer, over every position where one starts. *)
Fixpoint deltaSpec (s : jstring) : Z :=
  match s with
  | [] => 0%Z
  | _ :: t => (wheelAt s + deltaSpec t)%Z
  end.

(** The part of [extractTagFromBuffer] that runs on an opened tracker:
    the search for the close marker and the holdback. *)
Definition accumulate (closeTag buffer : jstring) (state : StreamTagState)
    : jstring * StreamTagState :=
  match indexOf closeTag buffer with
  | Some closeIdx =>
      (skipn (closeIdx + length closeTag) buffer,
       mkTag (opened state) true (text state ++ firstn closeIdx buffer))
  | None =>
      if length closeTag <? length buffer then
        (skipn (length buffer - length closeTag) buffer,
         mkTag (opened state) (done state)
               (text state
                ++ firstn (length buffer - length closeTag) buffer))
      else (buffer, state)
  end.

(** The contribution the loop of [consumeMouseScroll] adds for
    [match[1]]. *)
Definition contribution (caps : list jstring) : Z :=
  if jeqb (nth 0 caps []) (js "64") || jeqb (nth 0 caps []) (js "96")
  then 1%Z else (-1)%Z.

(** The wheel-down sequence [ESC [ < 6 5 ; 1 0 ; 5 M] *)
Definition wheelDown : jstring := ESC :: js "[<65;10;5M".

(** The chunks of the specification's example. *)
Definition exampleChunks : list jstring :=
  [js "<actions>REP"; js "LY</actions><te"; js "xt>A"; js "B</te"; js "xt>"].

(** A wheel sequence that never completes: the introducer, then [n]
    chunks of one parameter digit each. *)
Definition endless (n : nat) : list jstring := sgrIntro :: repeat (js "1") n.

(** The code units a match of [r] can contain. *)
Fixpoint allows (r : regex) (c : char) : bool :=
  match r with
  | Cls p => p c
  | Seq r1 r2 => allows r1 c || allows r2 c
  | Alt r1 r2 => allows r1 c || allows r2 c
  | Opt r1 => allows r1 c
  | Star p => p c
  | Grp r1 => allows r1 c
  end.

(** What a scrubbed text is made of: no carriage return and no code unit
    of the control class (which contains ESC). *)
Definition clean (c : char) : Prop := ctl c = false /\ c <> CR.

(** No raw C0 control code other than tab and newline; this excludes ESC
    and carriage return. *)
Definition c0Free (s : jstring) : bool :=
  forallb (fun c => negb (inRange 0%N 31%N c) || N.eqb c TAB || N.eqb c LF) s.

(** ** Further definitions for the properties of the decoder *)

(** The two parameters and the final byte of a wheel sequence, after
    [ESC [ < code ;]: the value of [wheelAt] there. *)
Definition wheelParams (d : Z) (s1 : jstring) : Z :=
  match digitsThen s1 with
  | Some (semi2 :: s2) =>
      if N.eqb semi2 (ch ";") then
        match digitsThen s2 with
        | Some (fin :: _) => if mM fin then d else 0%Z
        | _ => 0%Z
        end
      else 0%Z
  | _ => 0%Z
  end.

(** No complete wheel sequence starts anywhere in [s]. *)
Fixpoint quiet (s : jstring) : Prop :=
  match s with
  | [] => True
  | _ :: t => wheelAt s = 0%Z /\ quiet t
  end.

(** The contributions of the wheel sequences that start inside [d] when
    [d] is followed by [z]. *)
Fixpoint sumAt (d z : jstring) : Z :=
  match d with
  | [] => 0%Z
  | _ :: d' => (wheelAt (d ++ z) + sumAt d' z)%Z
  end.

(** The [lastIndex] the loop of [consumeMouseScroll] ends with, [d]
    when there was no match. *)
Definition lastIdx (ms : list rmatch) (d : nat) : nat :=
  last (map m_lastIndex ms) d.

(** The cut of [consumeMouseScroll] at the last introducer. *)
Definition cutIntro (r1 : jstring) : jstring :=
  match lastIndexOf sgrIntro r1 with
  | Some (S i) => skipn (S i) r1
  | _ => r1
  end.

(** ** Scrolling: the stored offset and the visible slice *)

(** What changes a panel's scroll offset in [PolymarketTuiApp]: the
    mouse wheel ([onData], with the decoded delta), the page and arrow
    keys ([useInput]), and the resets to [0] ([appendMessage], Ctrl+C,
    [cycleSidebarView], a change of view). *)
Inductive ScrollEvent : Type :=
| Wheel (delta : Z)
| PageUp
| PageDown
| ArrowUp
| ArrowDown
| ResetScroll.

(** The state updates [setScrollOffset((prev) => ...)]; [maxScroll] is
    the [chatMaxScroll] or [sidebarMaxScroll] the panel last reported. *)
Definition scrollStep (maxScroll prev : Z) (ev : ScrollEvent) : Z :=
  match ev with
  | Wheel delta => Z.max 0 (Z.min maxScroll (prev + delta))
  | PageUp => Z.min maxScroll (prev + 10)
  | PageDown => Z.max 0 (prev - 10)
  | ArrowUp => Z.max 0 (Z.min maxScroll (prev + 1))
  | ArrowDown => Z.max 0 (Z.min maxScroll (prev + -1))
  | ResetScroll => 0
  end%Z.

(** The offset after a sequence of events, each with the [maxScroll]
    reported when it arrives; the offset starts at [0]. *)
Definition scrollRun (events : list (Z * ScrollEvent)) : Z :=
  fold_left (fun prev p => scrollStep (fst p) prev (snd p)) events 0%Z.

(** An index of [Array.prototype.slice] brought into [0..n]: a negative
    index counts from the end. *)
Definition sliceIndex (n i : Z) : Z :=
  if (i <? 0)%Z then Z.max 0 (n + i) else Z.min i n.

(** [l.slice(a, b)] *)
Definition jsSlice {A : Type} (a b : Z) (l : list A) : list A :=
  let n := Z.of_nat (length l) in
  let from := sliceIndex n a in
  let to := sliceIndex n b in
  firstn (Z.to_nat (to - from)) (skipn (Z.to_nat from) l).

(** The lines [ChatPanel] paints:
    [renderLines.slice(startIdx, endIdx).slice(0, messagesHeight)].
    [SidebarPanel] slices its body lines the same way. *)
Definition linesToRender {A : Type} (renderLines : list A)
    (messagesHeight scrollOffset : Z) : list A :=
  let totalLines := Z.of_nat (length renderLines) in
  let w := scrollWindow totalLines messagesHeight scrollOffset in
  let visibleLines := jsSlice (startIdx w) (endIdx w) renderLines in
  jsSlice 0 messagesHeight visibleLines.

(** The lines the input test paints ([src/ink-input-test.tsx]):
    [start = clamp(scrollOffset, 0, maxScroll)] and
    [lines.slice(start, start + viewHeight)]. *)
Definition inkVisible {A : Type} (lines : list A)
    (viewHeight scrollOffset : Z) : list A :=
  let maxScroll := Z.max 0 (Z.of_nat (length lines) - viewHeight) in
  let start := clamp scrollOffset 0 maxScroll in
  jsSlice start (start + viewHeight) lines.

(** ** [appendLog], [truncateText], [shortenId] *)

(** The state update of [appendLog]: the log keeps at most 200 lines. *)
Definition appendLog (prev : list jstring) (line : jstring) : list jstring :=
  let next := prev ++ [line] in
  if 200 <? length next then skipn (length next - 200) next else next.

Definition truncateText (text : jstring) (maxWidth : Z) : jstring :=
  if (maxWidth <=? 0)%Z then []
  else if (len text <=? maxWidth)%Z then text
  else if (maxWidth <=? 3)%Z then firstn (Z.to_nat maxWidth) text
  else firstn (Z.to_nat (Z.max 0 (maxWidth - 3))) text ++ js "...".


(** ** Whitespace, [sanitizeLine] and the card lines *)

(** The code units [\s] matches and [trim], [trimEnd] remove: the
    WhiteSpace and LineTerminator code points of ECMAScript. *)
Definition jsWhite (c : char) : bool :=
  (inRange 9 13 c || N.eqb c 32 || N.eqb c 160 || N.eqb c 5760
   || inRange 8192 8202 c || N.eqb c 8232 || N.eqb c 8233 || N.eqb c 8239
   || N.eqb c 8287 || N.eqb c 12288 || N.eqb c 65279)%N.

Definition trimStart (s : jstring) : jstring := skipWhile jsWhite s.
Definition trimEnd (s : jstring) : jstring := rev (skipWhile jsWhite (rev s)).
Definition trim (s : jstring) : jstring := trimEnd (trimStart s).

(** [[0-9;]] *)
Definition digitSemi (c : char) : bool := digit c || N.eqb c (ch ";").
(** [[A-Za-z]] *)
Definition asciiLetter (c : char) : bool :=
  inRange (ch "A") (ch "Z") c || inRange (ch "a") (ch "z") c.
(** [/\x1b\[[0-9;]*[A-Za-z]/] *)
Definition reAnsi : regex :=
  (Lit ESC ;; Lit (ch "[") ;; Star digitSemi ;; Cls asciiLetter)%re.

Definition sanitizeLine (text : jstring) : jstring :=
  trimEnd
    (replaceAll reAnsi []
       (replaceAll (Lit LF) (js " ") (replaceAll (Lit CR) (js " ") text))).

(** [/^r$/.test(s)]: a match of [r] that starts at the start of [s] and
    ends at its end (no [m] flag). *)
Definition testWhole (r : regex) (s : jstring) : bool :=
  match mt r s [] (fun s' caps =>
                     match s' with
                     | [] => Some (caps, s')
                     | _ :: _ => None
                     end) with
  | Some _ => true
  | None => false
  end.

Definition isCardBorderLine (line : jstring) : bool :=
  let trimmed := trimEnd line in
  (0 <? length trimmed) && testWhole (Plus (N.eqb (ch "-"))) trimmed.

Definition isCardDividerLine (line : jstring) : bool :=
  let trimmed := trimEnd line in
  (0 <? length trimmed) && testWhole (Plus (N.eqb (ch "="))) trimmed.

(** ** [wrapCardLines] and [buildSidebarCard] *)

(** The loop over the words is the loop of [wrapText], statement for
    statement.  The function has no guard for [maxWidth <= 0], where its
    [while] loop does not end on a word that is not empty; the model is
    the function for [maxWidth >= 1] (its caller passes at least 12). *)
Definition wrapCardLines (text : jstring) (maxWidth : Z) : list jstring :=
  if (len text <=? maxWidth)%Z then [text]
  else
    let words := split (ch " ") text in
    let '(lines, current) := fold_left (wordStep maxWidth) words ([], []) in
    let lines := if 0 <? length current then lines ++ [current] else lines in
    if 0 <? length lines then lines else [[]].

(** [line.padEnd(targetLength)] *)
Definition padEnd (line : jstring) (targetLength : Z) : jstring :=
  line ++ repeat (ch " ") (Z.to_nat (targetLength - len line)).

(** [l.join(sep)] *)
Fixpoint join (sep : jstring) (l : list jstring) : jstring :=
  match l with
  | [] => []
  | [x] => x
  | x :: rest => x ++ sep ++ join sep rest
  end.

(** [contentWidth] of [buildSidebarCard];
    [widest = Math.max(12, ...allLines.map((line) => line.length))]. *)
Definition cardContentWidth (title : jstring) (lines : list jstring)
    (maxInnerWidth : Z) : Z :=
  let titleLines := wrapCardLines title maxInnerWidth in
  let bodyLines := flat_map (fun line => wrapCardLines line maxInnerWidth) lines in
  let allLines := titleLines ++ bodyLines in
  let widest := fold_left Z.max (map len allLines) 12%Z in
  Z.min maxInnerWidth widest.

(** [rows] of [buildSidebarCard].  ([String.prototype.repeat] throws on
    a negative count; the count is negative only for a negative
    [maxInnerWidth].) *)
Definition sidebarCardRows (title : jstring) (lines : list jstring)
    (maxInnerWidth : Z) : list jstring :=
  let titleLines := wrapCardLines title maxInnerWidth in
  let bodyLines := flat_map (fun line => wrapCardLines line maxInnerWidth) lines in
  let contentWidth := cardContentWidth title lines maxInnerWidth in
  let border := repeat (ch "-") (Z.to_nat contentWidth) in
  let divider := repeat (ch "=") (Z.to_nat contentWidth) in
  let renderLine := fun line => padEnd line contentWidth in
  [border] ++ map renderLine titleLines ++ [divider]
  ++ map renderLine bodyLines ++ [border].

Definition buildSidebarCard (title : jstring) (lines : list jstring)
    (maxInnerWidth : Z) : jstring :=
  join [LF] (sidebarCardRows title lines maxInnerWidth).


(** ** [getSidebarBodyLines] *)

Inductive SidebarView : Type := positions | markets | logs.

Definition getSidebarBodyLines (view : SidebarView) (content : jstring)
    (loading : bool) (logLines0 : list jstring) (contentWidth : Z)
    : list jstring :=
  match view with
  | logs =>
      let logLines :=
        if 0 <? length logLines0 then logLines0 else [js "No logs yet."] in
      flat_map (fun line => wrapText line contentWidth) logLines
  | _ =>
      if loading then wrapText (js "Loading...") contentWidth
      else
        let c := if 0 <? length content then content else js "No data." in
        match view with
        | markets => split LF c
        | _ => wrapText c contentWidth
        end
  end.

(** [contentWidth] of [ChatPanel] and [SidebarPanel] *)
Definition panelContentWidth (width : Z) : Z := Z.max 10 (width - 2).

(** The code units that are neither a space nor a line feed. *)
Definition visibleUnit (c : char) : bool :=
  negb (N.eqb c (ch " ")) && negb (N.eqb c LF).

(** ** The input field *)

(** [/\s*\n\s*/] *)
Definition reNewlineRun : regex := (Star jsWhite ;; Lit LF ;; Star jsWhite)%re.

(** The new value of the input field, from its previous value and the
    value the text input reports. *)
Definition handleInputChange (prev value : jstring) : jstring :=
  if hasMouseSequence value then stripInputArtifacts prev
  else
    let cleaned := stripInputArtifacts value in
    let singleLine := replaceAll reNewlineRun (js " ") cleaned in
    singleLine.

(** What sets the input field in [PolymarketTuiApp]: a change reported
    by the text input ([handleInputChange]), a decoded wheel event
    ([onData]: [setInput((prev) => stripInputArtifacts(prev))]), and the
    resets to [""] (submit, Escape, Ctrl+C). *)
Inductive InputEvent : Type :=
| InputChange (value : jstring)
| WheelSeen
| InputCleared.

Definition inputStep (prev : jstring) (ev : InputEvent) : jstring :=
  match ev with
  | InputChange value => handleInputChange prev value
  | WheelSeen => stripInputArtifacts prev
  | InputCleared => []
  end.

Definition inputRun (events : list InputEvent) : jstring :=
  fold_left inputStep events [].

(** The least number of code units a match of [r] has. *)
Fixpoint minLen (r : regex) : nat :=
  match r with
  | Cls _ => 1
  | Seq r1 r2 => minLen r1 + minLen r2
  | Alt r1 r2 => Nat.min (minLen r1) (minLen r2)
  | Opt _ => 0
  | Star _ => 0
  | Grp r1 => minLen r1
  end.

(** [formatInput] of [src/ink-input-test.tsx]; ["…"] is U+2026. *)
Definition formatInput (value : jstring) : jstring :=
  if length value =? 0 then []
  else
    let replaced :=
      replaceAll (Lit LF) (js "<LF>")
        (replaceAll (Lit CR) (js "<CR>")
           (replaceAll (Lit TAB) (js "<TAB>")
              (replaceAll (Lit ESC) (js "<ESC>") value))) in
    if 120 <? length replaced then firstn 120 replaced ++ [8230%N]
    else replaced.

(** ** The layout of [PolymarketTuiApp] *)




(** The code units an input field may hold. *)
Definition fieldUnit (c : char) : Prop := ctl c = false /\ c <> CR /\ c <> LF.

(** ** [toRenderLines] *)

(** A line of the chat panel.  The optional fields of the source are
    options; [lineText] is the field [text]. *)
Record RenderLine : Type := mkLine {
  key : jstring;
  lineText : jstring;
  color : option jstring;
  dim : option bool;
  bold : option bool;
  italic : option bool
}.

(** The decimal numeral that a template literal prints for an index. *)
Definition decimal (n : nat) : jstring :=
  js (NilEmpty.string_of_uint (Nat.to_uint n)).

(** [array.forEach((line, idx) => ...)] collecting one value per element,
    the index starting at [idx]. *)
Fixpoint mapFrom {A B : Type} (f : A -> nat -> B) (idx : nat) (l : list A)
    : list B :=
  match l with
  | [] => []
  | x :: t => f x idx :: mapFrom f (S idx) t
  end.

Definition indent : jstring := js "  ".

(** The three object literals pushed for the lines of a message. *)
Definition systemLine (msg : ChatMessage) (line : jstring) (idx : nat)
    : RenderLine :=
  mkLine (id msg ++ js ":system:" ++ decimal idx) (sanitizeLine line)
         None (Some true) None (Some true).

Definition cardLine (msg : ChatMessage) (rawLine : jstring) (lineIndex : nat)
    : RenderLine :=
  mkLine (id msg ++ js ":card:" ++ decimal lineIndex) (sanitizeLine rawLine)
         None None None None.

Definition bodyLine (msg : ChatMessage) (line : jstring) (lineIndex : nat)
    : RenderLine :=
  mkLine (id msg ++ js ":body:" ++ decimal lineIndex)
         (sanitizeLine (indent ++ line)) None None None None.

Section RenderLines.

(** [formatTime] formats a time stamp with the locale of the host; the
    lines are built from whatever text it returns. *)
Variable formatTime : Z -> jstring.

(** The header line of a user or assistant message. *)
Definition headerLine (msg : ChatMessage) : RenderLine :=
  let speaker := match role msg with user => js "You" | _ => js "Eliza" end in
  let color := match role msg with user => js "cyan" | _ => js "green" end in
  let header := speaker ++ js ": " ++ formatTime (timestamp msg) in
  mkLine (id msg ++ js ":header") (sanitizeLine header)
         (Some color) None (Some true) None.

(** The body of [for (const rawLine of contentLines)], on the pair
    [(lines, lineIndex)]. *)
Definition rawLineStep (msg : ChatMessage) (maxWidth : Z)
    (st : list RenderLine * nat) (rawLine : jstring)
    : list RenderLine * nat :=
  let '(lines, lineIndex) := st in
  if isCardBorderLine rawLine || isCardDividerLine rawLine then
    (lines ++ [cardLine msg rawLine lineIndex], lineIndex + 1)
  else
    let wrapped := wrapText rawLine (Z.max 1 (maxWidth - len indent)) in
    fold_left (fun '(lines, lineIndex) line =>
                 (lines ++ [bodyLine msg line lineIndex], lineIndex + 1))
              wrapped (lines, lineIndex).

(** The body of [for (const msg of messages)], on [lines]. *)
Definition messageStep (maxWidth : Z) (lines : list RenderLine)
    (msg : ChatMessage) : list RenderLine :=
  match role msg with
  | system =>
      let wrapped := wrapText (content msg) maxWidth in
      lines ++ mapFrom (systemLine msg) 0 wrapped
  | _ =>
      let lines := lines ++ [headerLine msg] in
      let contentLines := split LF (content msg) in
      fst (fold_left (rawLineStep msg maxWidth) contentLines (lines, 0))
  end.

Definition toRenderLines (messages : list ChatMessage) (maxWidth : Z)
    : list RenderLine :=
  fold_left (messageStep maxWidth) messages [].

End RenderLines.

(** The lines that one turn of each loop appends, as functions of the
    line index it starts from. *)
Definition rawLineLines (msg : ChatMessage) (maxWidth : Z) (lineIndex : nat)
    (rawLine : jstring) : list RenderLine :=
  if isCardBorderLine rawLine || isCardDividerLine rawLine
  then [cardLine msg rawLine lineIndex]
  else mapFrom (bodyLine msg) lineIndex
               (wrapText rawLine (Z.max 1 (maxWidth - len indent))).

Fixpoint contentLinesFrom (msg : ChatMessage) (maxWidth : Z) (lineIndex : nat)
    (contentLines : list jstring) : list RenderLine :=
  match contentLines with
  | [] => []
  | rawLine :: rest =>
      let new := rawLineLines msg maxWidth lineIndex rawLine in
      new ++ contentLinesFrom msg maxWidth (lineIndex + length new) rest
  end.

Definition messageLines (formatTime : Z -> jstring) (msg : ChatMessage)
    (maxWidth : Z) : list RenderLine :=
  match role msg with
  | system => mapFrom (systemLine msg) 0 (wrapText (content msg) maxWidth)
  | _ => headerLine formatTime msg
         :: contentLinesFrom msg maxWidth 0 (split LF (content msg))
  end.

(** The keys of the lines of a message: the message id, then [:header]
    or the kind of the line and its index. *)
Inductive KeyKind : Type := systemKey | cardKey | bodyKey.

Definition kindName (kind : KeyKind) : jstring :=
  match kind with
  | systemKey => js "system"
  | cardKey => js "card"
  | bodyKey => js "body"
  end.

Definition indexedKey (msgId : jstring) (kind : KeyKind) (idx : nat)
    : jstring :=
  msgId ++ js ":" ++ kindName kind ++ js ":" ++ decimal idx.

Definition headerKey (msgId : jstring) : jstring := msgId ++ js ":header".

(** A key made from the message id [msgId]. *)
Definition keyOf (msgId k : jstring) : Prop :=
  k = headerKey msgId \/ exists kind idx, k = indexedKey msgId kind idx.

(** Lines with indexed keys of consecutive indices, the first being
    [idx]. *)
Fixpoint keyedFrom (msgId : jstring) (idx : nat) (lines : list RenderLine)
    : Prop :=
  match lines with
  | [] => True
  | l :: rest =>
      (exists kind, key l = indexedKey msgId kind idx)
      /\ keyedFrom msgId (S idx) rest
  end.

(** The least number of lines a message takes: a system message has at
    least one line, any other its header and at least one line of
    content. *)
Definition minLines (msg : ChatMessage) : nat :=
  match role msg with system => 1 | _ => 2 end.

(** ** [pollAutonomyLogs] *)

(** A memory of the runtime, as far as [isAutonomyResponse] and
    [pollAutonomyLogs] read it.  A field that may be missing is an
    option; [createdAt] is a time stamp in milliseconds. *)
Record MemoryMetadata : Type := mkMetadata {
  isAutonomous : option bool;
  metadataType : option jstring
}.

Record MemoryContent : Type := mkContent {
  contentText : option jstring;
  metadata : option MemoryMetadata
}.

Record Memory : Type := mkMemory {
  createdAt : option Z;
  memoryContent : option MemoryContent
}.

Definition isAutonomyResponse (memory : Memory) : bool :=
  match createdAt memory, memoryContent memory with
  | Some _, Some c =>
      match contentText c, metadata c with
      | Some _, Some typed =>
          match isAutonomous typed, metadataType typed with
          | Some true, Some t => jeqb t (js "autonomous-response")
          | _, _ => false
          end
      | _, _ => false
      end
  | _, _ => false
  end.

(** [memory.createdAt] of a memory that passed the type guard. *)
Definition stamp (memory : Memory) : Z :=
  match createdAt memory with
  | Some t => t
  | None => 0%Z
  end.

(** [memory.content?.text ?? ""] *)
Definition textOf (memory : Memory) : jstring :=
  match memoryContent memory with
  | Some c => match contentText c with
              | Some t => t
              | None => []
              end
  | None => []
  end.

(** [.sort((a, b) => a.createdAt - b.createdAt)]: the sort of an array
    is stable, so memories of the same time stamp keep their order. *)
Fixpoint insertByCreatedAt (memory : Memory) (sorted : list Memory)
    : list Memory :=
  match sorted with
  | [] => [memory]
  | m :: rest =>
      if (stamp memory <=? stamp m)%Z then memory :: sorted
      else m :: insertByCreatedAt memory rest
  end.

Definition sortByCreatedAt (memories : list Memory) : list Memory :=
  fold_right insertByCreatedAt [] memories.

Definition freshMemories (memories : list Memory) (lastSeen : Z)
    : list Memory :=
  sortByCreatedAt
    (filter (fun memory => (lastSeen <? stamp memory)%Z)
            (filter isAutonomyResponse memories)).

(** One poll.  [svc] tells whether the autonomy service exists,
    [memories] is what [runtime.getMemories] returns; the result is the
    texts given to [onLog], in the order of the calls, and the new
    [lastSeen.value]. *)
Definition pollAutonomyLogs (svc : bool) (memories : list Memory)
    (lastSeen : Z) : list jstring * Z :=
  if negb svc then ([], lastSeen)
  else
    let fresh := freshMemories memories lastSeen in
    (map textOf fresh,
     match fresh with
     | [] => lastSeen
     | m :: _ => stamp (last fresh m)
     end).

(** Memories in the order of their time stamps. *)
Definition byCreatedAt (a b : Memory) : Prop := (stamp a <= stamp b)%Z.

(** ** [cycleSidebarView] and the settings wizard *)

(** [array.indexOf(x)]; [None] stands for [-1]. *)
Fixpoint arrayIndexOf {A : Type} (eqb : A -> A -> bool) (x : A) (l : list A)
    : option nat :=
  match l with
  | [] => None
  | y :: t => if eqb y x then Some 0 else option_map S (arrayIndexOf eqb x t)
  end.

Definition viewEqb (a b : SidebarView) : bool :=
  match a, b with
  | positions, positions | markets, markets | logs, logs => true
  | _, _ => false
  end.

(** The two state updates of [cycleSidebarView], on the pair of the
    sidebar view and the sidebar scroll offset. *)
Definition cycleSidebarView (st : SidebarView * Z) : SidebarView * Z :=
  let '(prev, _) := st in
  let order := [positions; markets; logs] in
  let current :=
    match arrayIndexOf viewEqb prev order with
    | Some i => Z.of_nat i
    | None => (-1)%Z
    end in
  (nth (Z.to_nat ((current + 1) mod Z.of_nat (length order))) order positions, 0%Z).

(** [formatFieldValue]; [secret] is [field.secret]. *)
Definition bullet : char := 8226%N.

Definition formatFieldValue (secret : bool) (value : jstring) : jstring :=
  if secret then
    if 0 <? length value then repeat bullet (Nat.min 12 (length value)) else []
  else value.

(** The value a select field shows: the stored value when it is one of
    the options, else the first option. *)
Definition currentValue (options : list jstring) (raw : jstring) : jstring :=
  if existsb (jeqb raw) options then raw else nth 0 options raw.

(** The left and right arrow keys on a select field: the value they
    store, [None] when they store nothing. *)
Definition selectIndex (options : list jstring) (raw : jstring) : Z :=
  match arrayIndexOf jeqb (currentValue options raw) options with
  | Some i => Z.max 0 (Z.of_nat i)
  | None => Z.max 0 (-1)
  end.

Definition selectLeft (options : list jstring) (raw : jstring)
    : option jstring :=
  if length options =? 0 then None
  else
    let currentIdx := selectIndex options raw in
    let nextIdx := ((currentIdx - 1 + Z.of_nat (length options)) mod Z.of_nat (length options))%Z in
    Some (nth (Z.to_nat nextIdx) options (currentValue options raw)).

Definition selectRight (options : list jstring) (raw : jstring)
    : option jstring :=
  if length options =? 0 then None
  else
    let currentIdx := selectIndex options raw in
    let nextIdx := ((currentIdx + 1) mod Z.of_nat (length options))%Z in
    Some (nth (Z.to_nat nextIdx) options (currentValue options raw)).

(** ** The values of the [.env] file ([src/lib.ts]) *)

Definition QUOTE : char := 34%N.
Definition APOSTROPHE : char := 39%N.
Definition HASH : char := 35%N.
Definition BACKSLASH : char := 92%N.

(** The class of the pattern that [formatEnvValue] tests: whitespace,
    the hash sign, the two quotes and the backslash. *)
Definition envSpecial (c : char) : bool :=
  jsWhite c || N.eqb c HASH || N.eqb c QUOTE || N.eqb c APOSTROPHE
  || N.eqb c BACKSLASH.

(** [s.endsWith(pat)] *)
Definition endsWith (pat s : jstring) : bool := startsWith (rev pat) (rev s).

Definition formatEnvValue (value : jstring) : jstring :=
  if negb (test (Cls envSpecial) value) then value
  else
    let escaped :=
      replaceAll (Lit LF) [BACKSLASH; ch "n"]
        (replaceAll (Lit QUOTE) [BACKSLASH; QUOTE]
           (replaceAll (Lit BACKSLASH) [BACKSLASH; BACKSLASH] value)) in
    [QUOTE] ++ escaped ++ [QUOTE].

Definition parseEnvValue (raw : jstring) : jstring :=
  let trimmed := trim raw in
  if length trimmed =? 0 then []
  else if startsWith [QUOTE] trimmed && endsWith [QUOTE] trimmed then
    let inner := jsSlice 1 (-1) trimmed in
    replaceAll (Lit BACKSLASH ;; Lit BACKSLASH) [BACKSLASH]
      (replaceAll (Lit BACKSLASH ;; Lit QUOTE) [QUOTE]
         (replaceAll (Lit BACKSLASH ;; Lit (ch "n")) [LF] inner))
  else if startsWith [APOSTROPHE] trimmed && endsWith [APOSTROPHE] trimmed
  then jsSlice 1 (-1) trimmed
  else trimmed.

(** Does the value contain a backslash followed by the letter [n]. *)
Fixpoint hasBackslashN (value : jstring) : bool :=
  match value with
  | [] => false
  | c :: t =>
      (N.eqb c BACKSLASH
       && match t with
          | c' :: _ => N.eqb c' (ch "n")
          | [] => false
          end)
      || hasBackslashN t
  end.

(** What the three replacements of [formatEnvValue] make of one code
    unit, and what is left of it after the first and after the second
    replacement of [parseEnvValue]. *)
Definition escapeUnit (c : char) : jstring :=
  if N.eqb c BACKSLASH then [BACKSLASH; BACKSLASH]
  else if N.eqb c QUOTE then [BACKSLASH; QUOTE]
  else if N.eqb c LF then [BACKSLASH; ch "n"]
  else [c].

Definition escapeUnit1 (c : char) : jstring :=
  if N.eqb c BACKSLASH then [BACKSLASH; BACKSLASH]
  else if N.eqb c QUOTE then [BACKSLASH; QUOTE]
  else [c].

Definition escapeUnit2 (c : char) : jstring :=
  if N.eqb c BACKSLASH then [BACKSLASH; BACKSLASH] else [c].

(** A code unit that the escaping leaves as it is. *)
Definition plainUnit (c : char) : Prop :=
  c <> BACKSLASH /\ c <> QUOTE /\ c <> LF.

(** ** The log filter of [src/runner.ts] *)

(** [\w] *)
Definition wordChar (c : char) : bool :=
  inRange (ch "a") (ch "z") c || inRange (ch "A") (ch "Z") c || digit c
  || N.eqb c (ch "_").

(** The canonical form of a code unit under the [i] flag (without the
    [u] flag): its upper case; a code unit outside ASCII never becomes
    an ASCII letter. *)
Definition canonicalize (c : char) : char :=
  if inRange (ch "a") (ch "z") c then (c - 32)%N else c.

Fixpoint startsWithCI (pat s : jstring) : bool :=
  match pat, s with
  | [], _ => true
  | p :: pat', c :: s' =>
      N.eqb (canonicalize p) (canonicalize c) && startsWithCI pat' s'
  | _ :: _, [] => false
  end.

(** [\b] after a letter: the text ends or goes on with a code unit that
    is not a word character. *)
Definition atWordEnd (s : jstring) : bool :=
  match s with
  | c :: _ => negb (wordChar c)
  | [] => true
  end.

(** [/^(info|debug|trace)\b/i.test(line.trimStart())] *)
Definition shouldDropLine (line : jstring) : bool :=
  let trimmed := trimStart line in
  existsb (fun word =>
             startsWithCI word trimmed
             && atWordEnd (skipn (length word) trimmed))
          [js "info"; js "debug"; js "trace"].

(** [filterLines] returns the text to write and the new
    [pending.value].  [lines.pop()] runs only when the text does not end
    in a line feed. *)
Definition filterLines (text pending : jstring) : jstring * jstring :=
  let combined := pending ++ text in
  let lines := split LF combined in
  let hasTrailingNewline := endsWith [LF] combined in
  let '(pending', lines) :=
    if hasTrailingNewline then ([], lines)
    else (last lines [], removelast lines) in
  let kept := filter (fun line => negb (shouldDropLine line)) lines in
  if length kept =? 0 then ([], pending')
  else (join [LF] kept ++ [LF], pending').

(** * Properties *)

(** ** Strings *)

Lemma jeqb_eq a b : jeqb a b = true <-> a = b.
Proof.
  revert b; induction a as [|x a IH]; intros [|y b]; simpl;
    try (split; [discriminate | discriminate]); try tauto.
  rewrite andb_true_iff, N.eqb_eq, IH.
  split; [intros [-> ->]; reflexivity | intros H; inversion H; auto].
Qed.

Lemma jeqb_neq a b : jeqb a b = false <-> a <> b.
Proof.
  rewrite <- jeqb_eq. destruct (jeqb a b); split; congruence.
Qed.

Lemma len_app a b : len (a ++ b) = (len a + len b)%Z.
Proof. unfold len. rewrite length_app. lia. Qed.

(** ** The scroll window *)

(** C7, as the specification states it, fails on the code: the panels
    take [min(scrollOffset, maxScroll)] and apply no lower clamp, so a
    negative offset is not raised to [0]. *)
Lemma C7_negative_offset_counterexample :
  (0 <= 50)%Z /\ (0 <= 10)%Z /\
  effectiveOffset (scrollWindow 50 10 (-1)) = (-1)%Z /\
  clamp (-1) 0 (maxScroll (scrollWindow 50 10 (-1))) = 0%Z /\
  scrollWindow 50 10 (-1) <> windowSpec 50 10 (-1).
Proof.
  repeat split; try lia; try reflexivity. discriminate.
Qed.

(** C7 (amended): for [totalLines >= 0], [viewportHeight >= 0] and a
    requested offset that is not negative (the only offsets the callers
    store), the window of the panels is the window of the specification:
    [maxScroll = max(0, totalLines - viewportHeight)],
    [effectiveOffset = clamp(requestedOffset, 0, maxScroll)],
    [startIndex = max(0, totalLines - viewportHeight - effectiveOffset)],
    [endIndex = min(totalLines, startIndex + viewportHeight)]; and
    [window(50,10,0)] is [40..50], [window(50,10,100)] is [0..10]. *)
Theorem C7_scroll_window (totalLines viewportHeight requestedOffset : Z) :
  (0 <= totalLines)%Z -> (0 <= viewportHeight)%Z ->
  (0 <= requestedOffset)%Z ->
  let w := scrollWindow totalLines viewportHeight requestedOffset in
  w = windowSpec totalLines viewportHeight requestedOffset /\
  maxScroll w = Z.max 0 (totalLines - viewportHeight) /\
  effectiveOffset w = clamp requestedOffset 0 (maxScroll w) /\
  startIdx w = Z.max 0 (totalLines - viewportHeight - effectiveOffset w) /\
  endIdx w = Z.min totalLines (startIdx w + viewportHeight) /\
  (startIdx (scrollWindow 50 10 0) = 40 /\
   endIdx (scrollWindow 50 10 0) = 50)%Z /\
  (startIdx (scrollWindow 50 10 100) = 0 /\
   endIdx (scrollWindow 50 10 100) = 10)%Z.
Proof.
  intros Ht Hv Hr w.
  assert (E : Z.min requestedOffset (Z.max 0 (totalLines - viewportHeight))
              = clamp requestedOffset 0
                      (Z.max 0 (totalLines - viewportHeight))).
  { unfold clamp. lia. }
  subst w. unfold scrollWindow, windowSpec. simpl.
  rewrite <- E. repeat split; reflexivity.
Qed.

Lemma C7_scroll_window_witness :
  let w := scrollWindow 50 10 100 in
  w = windowSpec 50 10 100 /\
  maxScroll w = Z.max 0 (50 - 10) /\
  effectiveOffset w = clamp 100 0 (maxScroll w) /\
  startIdx w = Z.max 0 (50 - 10 - effectiveOffset w) /\
  endIdx w = Z.min 50 (startIdx w + 10) /\
  (startIdx (scrollWindow 50 10 0) = 40 /\
   endIdx (scrollWindow 50 10 0) = 50)%Z /\
  (startIdx (scrollWindow 50 10 100) = 0 /\
   endIdx (scrollWindow 50 10 100) = 10)%Z.
Proof.
  apply (@C7_scroll_window 50 10 100); lia.
Defined.

(** ** [updateMessage] *)

(** C9: [updateMessage(id, content)] keeps the length and the order of
    the list; a message with another id is unchanged, and a message with
    the id keeps its id, role and timestamp and has the new content. *)
Theorem C9_updateMessage_frame (id0 content0 : jstring)
    (prev : list ChatMessage) :
  length (updateMessage id0 content0 prev) = length prev /\
  forall i msg, nth_error prev i = Some msg ->
    exists msg', nth_error (updateMessage id0 content0 prev) i = Some msg' /\
      id msg' = id msg /\ role msg' = role msg /\
      timestamp msg' = timestamp msg /\
      (id msg <> id0 -> msg' = msg) /\
      (id msg = id0 -> content msg' = content0).
Proof.
  unfold updateMessage. split; [apply length_map|].
  intros i msg H. rewrite nth_error_map, H. simpl.
  destruct (jeqb (id msg) id0) eqn:E.
  - apply jeqb_eq in E. eexists; split; [reflexivity|]. simpl.
    repeat split; auto. intros N; contradiction.
  - apply jeqb_neq in E. exists msg. repeat split; auto.
    intros N; contradiction.
Qed.

Lemma C9_updateMessage_frame_witness :
  exists msg',
    nth_error (updateMessage (js "m2") (js "new")
                 [mkMsg (js "m1") user (js "hi") 1;
                  mkMsg (js "m2") assistant (js "...") 2]) 1 = Some msg' /\
    id msg' = js "m2" /\ role msg' = assistant /\ timestamp msg' = 2%Z /\
    (js "m2" <> js "m2" ->
     msg' = mkMsg (js "m2") assistant (js "...") 2) /\
    (js "m2" = js "m2" -> content msg' = js "new").
Proof.
  apply (proj2 (C9_updateMessage_frame (js "m2") (js "new")
                 [mkMsg (js "m1") user (js "hi") 1;
                  mkMsg (js "m2") assistant (js "...") 2])
               1 (mkMsg (js "m2") assistant (js "...") 2)).
  reflexivity.
Defined.

(** ** The tag tracker: one push *)

(** Every push extends the accumulated text, in every state. *)
Lemma extract_text_grows buffer tag st :
  exists more, text (snd (extractTagFromBuffer buffer tag st)) = text st ++ more.
Proof.
  unfold extractTagFromBuffer.
  destruct (done st) eqn:Hd; [exists []; simpl; now rewrite app_nil_r|].
  destruct (opened st) eqn:Ho; simpl.
  - rewrite Ho; simpl.
    destruct (indexOf _ buffer); [eexists; reflexivity|].
    destruct (_ <? _); [eexists; reflexivity|].
    exists []; simpl; now rewrite app_nil_r.
  - destruct (indexOf (openTagOf tag) buffer);
      [|exists []; simpl; now rewrite app_nil_r].
    simpl. destruct (indexOf _ _); [eexists; reflexivity|].
    destruct (_ <? _); [eexists; reflexivity|].
    exists []; simpl; now rewrite app_nil_r.
Qed.

(** C5: a push on a tracker that is done changes neither the buffer nor
    the tracker; a push on a tracker that is opened and not done leaves
    the old text a prefix of the new text. *)
Theorem C5_tracker_invariant (buffer tag : jstring) (st : StreamTagState) :
  (done st = true -> extractTagFromBuffer buffer tag st = (buffer, st)) /\
  (opened st = true -> done st = false ->
   exists more,
     text (snd (extractTagFromBuffer buffer tag st)) = text st ++ more).
Proof.
  split.
  - intros Hd. unfold extractTagFromBuffer. now rewrite Hd.
  - intros _ _. apply extract_text_grows.
Qed.

Lemma C5_tracker_invariant_witness :
  extractTagFromBuffer (js "more</text>") (js "text") (mkTag true true (js "AB"))
  = (js "more</text>", mkTag true true (js "AB")) /\
  exists more,
    text (snd (extractTagFromBuffer (js "CD</text>") (js "text")
                 (mkTag true false (js "AB")))) = js "AB" ++ more.
Proof.
  split.
  - apply (proj1 (C5_tracker_invariant (js "more</text>") (js "text")
                    (mkTag true true (js "AB")))). reflexivity.
  - apply (proj2 (C5_tracker_invariant (js "CD</text>") (js "text")
                    (mkTag true false (js "AB")))); reflexivity.
Defined.

(** ** [wrapText] *)

Lemma split_nonempty sep s : split sep s <> [].
Proof.
  destruct s as [|c t]; simpl; [discriminate|].
  destruct (N.eqb c sep); [discriminate|].
  destruct (split sep t); discriminate.
Qed.

(** C6: the result of [wrapText] is never the empty list;
    [wrap("", N) = [""]] for [N > 0]; [wrap(text, maxWidth) = [text]]
    for [maxWidth <= 0]; [wrap("a b c", 3) = ["a b", "c"]]; and
    [wrap("supercalifragilistic", 5)] is four fragments of five code
    units whose concatenation is the word. *)
Theorem C6_wrapText_contract :
  (forall text maxWidth, wrapText text maxWidth <> []) /\
  (forall N, (0 < N)%Z -> wrapText (js "") N = [js ""]) /\
  (forall text maxWidth, (maxWidth <= 0)%Z -> wrapText text maxWidth = [text]) /\
  wrapText (js "a b c") 3 = [js "a b"; js "c"] /\
  (let frags := wrapText (js "supercalifragilistic") 5 in
   frags = [js "super"; js "calif"; js "ragil"; js "istic"] /\
   Forall (fun f => length f <= 5) frags /\
   concat frags = js "supercalifragilistic").
Proof.
  split; [|split; [|split; [|split]]].
  - intros text maxWidth. unfold wrapText.
    destruct (maxWidth <=? 0)%Z; [discriminate|].
    destruct (fold_left _ _ _) as [|l ls]; simpl; discriminate.
  - intros N HN. unfold wrapText.
    destruct (Z.leb_spec N 0); [lia|].
    simpl. unfold paragraphStep. simpl.
    destruct (Z.leb_spec (len []) N) as [_|H']; [reflexivity|].
    unfold len in H'. simpl in H'. lia.
  - intros text maxWidth H. unfold wrapText.
    destruct (Z.leb_spec maxWidth 0); [reflexivity|lia].
  - vm_compute. reflexivity.
  - vm_compute. repeat split; repeat constructor.
Qed.

Lemma C6_wrapText_contract_witness :
  wrapText (js "") 80 = [js ""] /\ wrapText (js "a b c") 0 = [js "a b c"].
Proof.
  split.
  - apply (proj1 (proj2 C6_wrapText_contract) 80%Z). lia.
  - apply (proj1 (proj2 (proj2 C6_wrapText_contract)) (js "a b c") 0%Z). lia.
Defined.

Section WidthBound.
Variable maxWidth : Z.
Hypothesis maxWidth_pos : (1 <= maxWidth)%Z.

Let fits (l : jstring) : Prop := (len l <= maxWidth)%Z.

(** With [length remaining] turns the loop ends by its own test: what
    is left fits the width. *)
Lemma hardSplit_exit fuel lines remaining :
  length remaining <= fuel ->
  Forall fits lines ->
  Forall fits (fst (hardSplit fuel maxWidth lines remaining)) /\
  fits (snd (hardSplit fuel maxWidth lines remaining)).
Proof.
  revert lines remaining.
  induction fuel as [|fuel IH]; intros lines remaining Hf Hl; simpl.
  - split; [assumption|]. unfold fits, len.
    destruct remaining; simpl in *; lia.
  - destruct (Z.ltb_spec maxWidth (len remaining)) as [Hlt|Hge].
    + unfold len in Hlt. apply IH.
      * rewrite length_skipn. lia.
      * apply Forall_app; split; [assumption|].
        constructor; [|constructor].
        unfold fits, len. rewrite length_firstn. lia.
    + split; assumption.
Qed.

Lemma wordStep_fits st word :
  Forall fits (fst st) -> fits (snd st) ->
  Forall fits (fst (wordStep maxWidth st word)) /\
  fits (snd (wordStep maxWidth st word)).
Proof.
  destruct st as [lines current]. simpl. intros Hl Hc.
  set (next := if 0 <? length current then _ else _).
  destruct (Z.leb_spec (len next) maxWidth) as [Hn|Hn].
  - split; assumption.
  - assert (Hl' : Forall fits
              (if 0 <? length current then lines ++ [current] else lines)).
    { destruct (0 <? length current); [|assumption].
      apply Forall_app; split; [assumption|]. constructor; auto. }
    destruct (Z.ltb_spec maxWidth (len word)) as [Hw|Hw].
    + apply hardSplit_exit; [lia|assumption].
    + split; assumption.
Qed.

Lemma words_fit words st :
  Forall fits (fst st) -> fits (snd st) ->
  Forall fits (fst (fold_left (wordStep maxWidth) words st)) /\
  fits (snd (fold_left (wordStep maxWidth) words st)).
Proof.
  revert st. induction words as [|w ws IH]; intros st Hl Hc; simpl.
  - split; assumption.
  - destruct (wordStep_fits st w Hl Hc). apply IH; assumption.
Qed.

Lemma paragraphStep_fits lines paragraph :
  Forall fits lines -> Forall fits (paragraphStep maxWidth lines paragraph).
Proof.
  intros Hl. unfold paragraphStep.
  destruct (Z.leb_spec (len paragraph) maxWidth) as [Hp|Hp].
  - apply Forall_app; split; [assumption|]. constructor; auto.
  - destruct (words_fit (split (ch " ") paragraph) (lines, [])) as [H1 H2];
      [assumption | unfold fits, len; simpl; lia |].
    destruct (fold_left _ _ _) as [lines' current]. simpl in *.
    destruct (0 <? length current); [|assumption].
    apply Forall_app; split; [assumption|]. constructor; auto.
Qed.

Lemma paragraphs_fit paragraphs lines :
  Forall fits lines ->
  Forall fits (fold_left (paragraphStep maxWidth) paragraphs lines).
Proof.
  revert lines. induction paragraphs as [|p ps IH]; intros lines Hl; simpl.
  - assumption.
  - apply IH, paragraphStep_fits, Hl.
Qed.

Lemma wrapText_fits text : Forall fits (wrapText text maxWidth).
Proof.
  unfold wrapText.
  destruct (Z.leb_spec maxWidth 0) as [H|_]; [lia|].
  pose proof (paragraphs_fit (split LF text) [] (Forall_nil _)) as H.
  destruct (fold_left _ _ _) as [|l ls]; simpl.
  - constructor; [|constructor]. unfold fits, len. simpl. lia.
  - assumption.
Qed.
End WidthBound.

(** C10: for [maxWidth >= 1] every line that [wrapText] returns has at
    most [maxWidth] code units. *)
Theorem C10_wrapText_width_bound (text : jstring) (maxWidth : Z) :
  (1 <= maxWidth)%Z ->
  Forall (fun line => (len line <= maxWidth)%Z) (wrapText text maxWidth).
Proof.
  intros H. apply wrapText_fits, H.
Qed.

Lemma C10_wrapText_width_bound_witness :
  Forall (fun line => (len line <= 7)%Z)
         (wrapText (js "the quick brownfoxjumps over") 7).
Proof.
  apply (@C10_wrapText_width_bound (js "the quick brownfoxjumps over") 7%Z).
  lia.
Defined.

(** ** Regular expressions: scanning *)

Section Scanning.
Variable r : regex.

Lemma replaceAll_no_match rep s : test r s = false -> replaceAll r rep s = s.
Proof.
  unfold replaceAll. induction s as [|c t IH]; simpl.
  - destruct (matchAt r []); [discriminate | reflexivity].
  - unfold matchLen. destruct (matchAt r (c :: t)); [discriminate|].
    intros H. now rewrite IH.
Qed.

(** A replacement can only delete code units of the input and insert
    the replacement text. *)
Lemma replaceFrom_Forall (P : char -> Prop) rep skip s :
  Forall P rep -> Forall P s -> Forall P (replaceFrom r rep skip s).
Proof.
  intros Hrep. revert skip.
  induction s as [|c t IH]; intros skip Hs; simpl.
  - destruct skip; [destruct (matchAt r [])|]; auto.
  - inversion Hs; subst. destruct skip as [|k]; [|auto].
    destruct (matchLen r (c :: t)) as [[|k]|].
    + apply Forall_app; split; auto.
    + apply Forall_app; split; auto.
    + constructor; auto.
Qed.

Lemma replaceAll_Forall (P : char -> Prop) s :
  Forall P s -> Forall P (replaceAll r [] s).
Proof. apply replaceFrom_Forall. constructor. Qed.
End Scanning.

Lemma test_class_absent p s :
  Forall (fun c => p c = false) s -> test (Cls p) s = false.
Proof.
  induction 1 as [|c t Hc _ IH]; simpl; [reflexivity|].
  unfold matchAt. simpl. now rewrite Hc.
Qed.

(** A pattern that begins with a literal matches nowhere in a text
    without that literal. *)
Lemma test_literal_absent c r s :
  Forall (fun x => x <> c) s -> test (Lit c ;; r) s = false.
Proof.
  induction 1 as [|x t Hx _ IH]; simpl; [reflexivity|].
  unfold matchAt. simpl.
  destruct (N.eqb_spec c x); [congruence | exact IH].
Qed.

Lemma matchLen_class p c t :
  matchLen (Cls p) (c :: t) = if p c then Some 1 else None.
Proof.
  unfold matchLen, matchAt. cbn [mt].
  destruct (p c); [|reflexivity]. f_equal. cbn [length]. lia.
Qed.

Lemma replaceAll_class p rep s :
  replaceAll (Cls p) rep s = flat_map (fun c => if p c then rep else [c]) s.
Proof.
  unfold replaceAll. induction s as [|c t IH]; [reflexivity|].
  cbn [replaceFrom flat_map]. rewrite matchLen_class.
  destruct (p c); now rewrite IH.
Qed.

(** ** [stripInputArtifacts] *)

Lemma clean_not_ESC c : clean c -> c <> ESC.
Proof. intros [H _] ->. discriminate. Qed.

Lemma stripInputArtifacts_clean x : Forall clean (stripInputArtifacts x).
Proof.
  unfold stripInputArtifacts, clean.
  apply Forall_and.
  - rewrite (replaceAll_class ctl). apply Forall_flat_map, Forall_forall.
    intros c _. destruct (ctl c) eqn:E; repeat constructor. exact E.
  - do 9 apply replaceAll_Forall.
    unfold reCR, Lit. rewrite replaceAll_class.
    apply Forall_flat_map, Forall_forall.
    intros c _. destruct (N.eqb_spec CR c); repeat constructor; auto.
    discriminate.
Qed.

(** On a clean text only the two patterns without a leading ESC can
    match. *)
Lemma stripInputArtifacts_on_clean y :
  Forall clean y ->
  stripInputArtifacts y =
  replaceAll rePartialX10 [] (replaceAll rePartialMouse [] y).
Proof.
  intros Hy.
  assert (noEsc : forall s, Forall clean s -> Forall (fun x => x <> ESC) s).
  { intros s; apply Forall_impl, clean_not_ESC. }
  assert (noCR : forall s, Forall clean s -> Forall (fun x => x <> CR) s).
  { intros s; apply Forall_impl. now intros c [_ H]. }
  assert (H1 : Forall clean (replaceAll rePartialMouse [] y))
    by now apply replaceAll_Forall.
  assert (H2 : Forall clean
                 (replaceAll rePartialX10 [] (replaceAll rePartialMouse [] y)))
    by now apply replaceAll_Forall.
  unfold stripInputArtifacts.
  rewrite (replaceAll_no_match reCRLF [LF] y)
    by (apply test_literal_absent; auto).
  rewrite (replaceAll_no_match reCR [LF] y)
    by (apply test_class_absent; revert Hy; apply Forall_impl;
        intros c [_ H]; destruct (N.eqb_spec CR c); congruence).
  rewrite (replaceAll_no_match reSgrMouse [] y)
    by (apply test_literal_absent; auto).
  rewrite (replaceAll_no_match reUrxvtMouse [] y)
    by (apply test_literal_absent; auto).
  rewrite (replaceAll_no_match reX10 [] _)
    by (apply test_literal_absent; auto).
  rewrite (replaceAll_no_match reCSI [] _)
    by (apply test_literal_absent; auto).
  rewrite (replaceAll_no_match reOSC [] _)
    by (apply test_literal_absent; auto).
  rewrite (replaceAll_no_match reEsc [] _)
    by (apply test_class_absent; revert H2; apply Forall_impl;
        intros c Hc; apply clean_not_ESC in Hc;
        destruct (N.eqb_spec ESC c); congruence).
  rewrite (replaceAll_no_match reCtl [] _)
    by (apply test_class_absent; revert H2; apply Forall_impl;
        now intros c [H _]).
  reflexivity.
Qed.

(** C1, as the specification states it, fails on the code: removing the
    inner mouse-looking fragment of this printable text leaves a new
    one, which only a second scrub removes. *)
Lemma C1_not_idempotent_counterexample :
  stripInputArtifacts (js "[1;2[1;2;3m;3m") = js "[1;2;3m" /\
  stripInputArtifacts (stripInputArtifacts (js "[1;2[1;2;3m;3m")) = js "" /\
  stripInputArtifacts (stripInputArtifacts (js "[1;2[1;2;3m;3m"))
  <> stripInputArtifacts (js "[1;2[1;2;3m;3m").
Proof.
  split; [|split]; vm_compute; [reflexivity | reflexivity | discriminate].
Qed.

(** C1 (amended): a second scrub does nothing but remove, from the
    scrubbed text, the mouse forms whose ESC was already stripped
    ([[<?d;d;d(m|M)] and [[M] with three code units); so scrubbing is
    idempotent on every [x] whose scrubbed text contains neither form. *)
Theorem C1_scrub_twice (x : jstring) :
  stripInputArtifacts (stripInputArtifacts x) =
  replaceAll rePartialX10 []
    (replaceAll rePartialMouse [] (stripInputArtifacts x)) /\
  (test rePartialMouse (stripInputArtifacts x) = false ->
   test rePartialX10 (stripInputArtifacts x) = false ->
   stripInputArtifacts (stripInputArtifacts x) = stripInputArtifacts x).
Proof.
  pose proof (stripInputArtifacts_on_clean _ (stripInputArtifacts_clean x))
    as E.
  split; [exact E|].
  intros Hm Hx. rewrite E.
  rewrite (replaceAll_no_match rePartialMouse [] _ Hm).
  apply replaceAll_no_match, Hx.
Qed.

Lemma C1_scrub_twice_witness :
  stripInputArtifacts (stripInputArtifacts (ESC :: js "[<64;10;5Mhi [ok]")) =
  stripInputArtifacts (ESC :: js "[<64;10;5Mhi [ok]").
Proof.
  apply (proj2 (C1_scrub_twice (ESC :: js "[<64;10;5Mhi [ok]")));
    vm_compute; reflexivity.
Defined.

(** C8, as the specification states it, fails on the code: this text has
    no ESC, no C0 control code and no carriage return, and the scrubber
    deletes all of it. *)
Lemma C8_printable_text_counterexample :
  c0Free (js "[1;2;3m") = true /\
  stripInputArtifacts (js "[1;2;3m") = js "" /\
  stripInputArtifacts (js "[1;2;3m") <> js "[1;2;3m".
Proof.
  split; [|split]; vm_compute; [reflexivity | reflexivity | discriminate].
Qed.

Lemma c0Free_clean s :
  c0Free s = true -> Forall (fun c => c <> DEL) s -> Forall clean s.
Proof.
  unfold c0Free. rewrite forallb_forall, !Forall_forall.
  intros H Hdel c Hin. specialize (H c Hin). specialize (Hdel c Hin).
  unfold clean, ctl, inRange, TAB, LF, CR, DEL in *.
  split.
  - destruct (N.eqb_spec c 127); [contradiction|].
    repeat match goal with
           | |- context [N.leb ?a ?b] => destruct (N.leb_spec a b)
           | |- context [N.eqb ?a ?b] => destruct (N.eqb_spec a b)
           | H : context [N.leb ?a ?b] |- _ => destruct (N.leb_spec a b)
           | H : context [N.eqb ?a ?b] |- _ => destruct (N.eqb_spec a b)
           end; simpl in *; try reflexivity; try discriminate; lia.
  - intros ->. discriminate.
Qed.

(** C8 (amended): for every text with no C0 control code other than tab
    and newline (so no ESC and no carriage return), no DEL, and nothing
    that [hasMouseSequence] takes for a mouse report, scrubbing is the
    identity. *)
Theorem C8_scrub_identity (s : jstring) :
  c0Free s = true ->
  Forall (fun c => c <> DEL) s ->
  hasMouseSequence s = false ->
  stripInputArtifacts s = s.
Proof.
  intros Hc Hd Hm.
  unfold hasMouseSequence in Hm.
  repeat (apply orb_false_iff in Hm; destruct Hm as [Hm ?]).
  rewrite stripInputArtifacts_on_clean by now apply c0Free_clean.
  rewrite (replaceAll_no_match rePartialMouse [] s) by assumption.
  now apply replaceAll_no_match.
Qed.

Lemma C8_scrub_identity_witness :
  stripInputArtifacts (js "buy 10 shares [yes] at 0.45") =
  js "buy 10 shares [yes] at 0.45".
Proof.
  apply (C8_scrub_identity (js "buy 10 shares [yes] at 0.45")).
  - vm_compute. reflexivity.
  - repeat constructor; discriminate.
  - vm_compute. reflexivity.
Defined.

(** ** [consumeMouseScroll]: what is retained *)

Lemma execFrom_no_match r idx s : test r s = false -> execFrom r 0 idx s = [].
Proof.
  revert idx. induction s as [|c t IH]; intros idx; simpl; [reflexivity|].
  destruct (matchAt r (c :: t)); [discriminate|]. apply IH.
Qed.

Lemma lastIndexOf_absent c pat s :
  Forall (fun x => x <> c) s -> lastIndexOf (c :: pat) s = None.
Proof.
  induction 1 as [|x t Hx _ IH]; simpl; [reflexivity|].
  rewrite IH. destruct (N.eqb_spec c x); [congruence | reflexivity].
Qed.

Lemma lastIndexOf_skipn pat s i :
  lastIndexOf pat s = Some i -> lastIndexOf pat (skipn i s) = Some 0.
Proof.
  revert i. induction s as [|c t IH]; intros i; simpl.
  - destruct (startsWith pat []) eqn:E; [|discriminate].
    intros [= <-]. simpl. now rewrite E.
  - destruct (lastIndexOf pat t) as [j|] eqn:El.
    + intros [= <-]. simpl. now apply IH.
    + destruct (startsWith pat (c :: t)) eqn:E; [|discriminate].
      intros [= <-]. simpl. now rewrite El, E.
Qed.

(** A buffer without ESC is retained whole. *)
Lemma consumeMouseScroll_no_ESC s :
  Forall (fun x => x <> ESC) s -> consumeMouseScroll s = mkScroll s 0.
Proof.
  intros H. unfold consumeMouseScroll, execAll.
  rewrite execFrom_no_match by now apply test_literal_absent.
  simpl. unfold sgrIntro. now rewrite lastIndexOf_absent.
Qed.

Lemma retained_no_ESC chunks :
  Forall (Forall (fun x => x <> ESC)) chunks -> retained chunks = concat chunks.
Proof.
  unfold retained.
  enough (G : forall buffer,
             Forall (fun x => x <> ESC) buffer ->
             Forall (Forall (fun x => x <> ESC)) chunks ->
             fold_left (fun b chunk => remaining (onData b chunk)) chunks buffer
             = buffer ++ concat chunks).
  { intros H. apply (G [] (Forall_nil _) H). }
  induction chunks as [|chunk rest IH]; intros buffer Hb Hc; simpl.
  - now rewrite app_nil_r.
  - inversion Hc; subst. unfold onData at 2.
    rewrite consumeMouseScroll_no_ESC by (apply Forall_app; auto).
    simpl. rewrite IH by (try apply Forall_app; auto).
    now rewrite app_assoc.
Qed.

Lemma consumeMouseScroll_suffix buffer :
  exists dropped, buffer = dropped ++ remaining (consumeMouseScroll buffer).
Proof.
  unfold consumeMouseScroll.
  destruct (fold_left _ _ _) as [d lastIndex]. simpl.
  set (rem1 := if 0 <? lastIndex then skipn lastIndex buffer else buffer).
  assert (H1 : exists dropped, buffer = dropped ++ rem1).
  { subst rem1. destruct (0 <? lastIndex).
    - exists (firstn lastIndex buffer). symmetry. apply firstn_skipn.
    - now exists []. }
  destruct H1 as [d1 H1].
  destruct (lastIndexOf sgrIntro rem1) as [[|i]|]; try (now exists d1).
  exists (d1 ++ firstn (S i) rem1).
  now rewrite <- app_assoc, firstn_skipn.
Qed.

(** After a call the introducer occurs in the retained text at most at
    its start. *)
Lemma consumeMouseScroll_intro buffer :
  lastIndexOf sgrIntro (remaining (consumeMouseScroll buffer)) = None \/
  lastIndexOf sgrIntro (remaining (consumeMouseScroll buffer)) = Some 0.
Proof.
  unfold consumeMouseScroll.
  destruct (fold_left _ _ _) as [d lastIndex]. simpl.
  set (rem1 := if 0 <? lastIndex then skipn lastIndex buffer else buffer).
  destruct (lastIndexOf sgrIntro rem1) as [[|i]|] eqn:E; auto.
  right. exact (lastIndexOf_skipn sgrIntro rem1 (S i) E).
Qed.

(** ** Regular expressions: what a match consumes *)

(** A greedy star followed by something that cannot start with a code
    unit of the class never gives back: it skips the whole run. *)
Lemma starK_skip p s k :
  (forall c t, p c = true -> k (c :: t) = None) ->
  starK p s k = k (skipWhile p s).
Proof.
  intros Hk. induction s as [|c t IH]; simpl; [reflexivity|].
  destruct (p c) eqn:E; [|reflexivity].
  rewrite IH. destruct (k (skipWhile p t)); [reflexivity|].
  now rewrite Hk.
Qed.

Lemma starK_consumes p s k x :
  starK p s k = Some x ->
  exists m s', s = m ++ s' /\ forallb p m = true /\ k s' = Some x.
Proof.
  revert x. induction s as [|c t IH]; simpl; intros x H.
  - now exists [], [].
  - destruct (p c) eqn:E; [|now exists [], (c :: t)].
    destruct (starK p t k) as [y|] eqn:Et.
    + destruct (IH y eq_refl) as (m & s' & -> & Hm & Hk).
      exists (c :: m), s'. simpl. rewrite E, Hm. inversion H; subst. auto.
    + now exists [], (c :: t).
Qed.

Lemma mt_consumes r : forall s caps k x,
  mt r s caps k = Some x ->
  exists m s' caps',
    s = m ++ s' /\ forallb (allows r) m = true /\ k s' caps' = Some x.
Proof.
  induction r as [p | r1 IH1 r2 IH2 | r1 IH1 r2 IH2 | r1 IH1 | p | r1 IH1];
    intros s caps k x H; simpl in H.
  - destruct s as [|c t]; [discriminate|].
    destruct (p c) eqn:E; [|discriminate].
    exists [c], t, caps. simpl. now rewrite E.
  - destruct (IH1 _ _ _ _ H) as (m1 & s1 & caps1 & -> & Hm1 & H1).
    destruct (IH2 _ _ _ _ H1) as (m2 & s2 & caps2 & -> & Hm2 & H2).
    exists (m1 ++ m2), s2, caps2. rewrite <- app_assoc.
    repeat split; auto. rewrite forallb_app. apply andb_true_iff. split.
    + rewrite forallb_forall in *. intros c Hc. simpl.
      now rewrite (Hm1 c Hc).
    + rewrite forallb_forall in *. intros c Hc. simpl.
      rewrite (Hm2 c Hc). apply orb_true_r.
  - destruct (mt r1 s caps k) as [y|] eqn:E1.
    + destruct (IH1 _ _ _ _ E1) as (m & s' & caps' & -> & Hm & Hk).
      exists m, s', caps'. repeat split; [|congruence].
      rewrite forallb_forall in *. intros c Hc. simpl. now rewrite (Hm c Hc).
    + destruct (IH2 _ _ _ _ H) as (m & s' & caps' & -> & Hm & Hk).
      exists m, s', caps'. repeat split; [|congruence].
      rewrite forallb_forall in *. intros c Hc. simpl.
      rewrite (Hm c Hc). apply orb_true_r.
  - destruct (mt r1 s caps k) as [y|] eqn:E1.
    + destruct (IH1 _ _ _ _ E1) as (m & s' & caps' & -> & Hm & Hk).
      exists m, s', caps'. repeat split; auto. congruence.
    + now exists [], s, caps.
  - destruct (starK_consumes _ _ _ _ H) as (m & s' & -> & Hm & Hk).
    now exists m, s', caps.
  - destruct (IH1 _ _ _ _ H) as (m & s' & caps' & -> & Hm & Hk).
    eexists m, s', _. repeat split; [exact Hm | exact Hk].
Qed.

(** A match of the wheel pattern is an ESC and then a text without
    ESC. *)
Lemma matchAt_wheel_shape s caps rest :
  matchAt reWheel s = Some (caps, rest) ->
  exists body, s = ESC :: body ++ rest /\ Forall (fun x => x <> ESC) body.
Proof.
  unfold matchAt, reWheel. intros H.
  match type of H with
  | mt (Seq _ ?tl) _ _ _ = _ => remember tl as tail eqn:Etail
  end.
  destruct s as [|e t]; [discriminate|].
  cbn [mt Lit] in H.
  destruct (N.eqb_spec ESC e) as [<-|]; [|discriminate].
  apply mt_consumes in H. destruct H as (m & s' & caps' & -> & Hm & Hk).
  inversion Hk; subst. exists m. split; [reflexivity|].
  rewrite forallb_forall in Hm. apply Forall_forall.
  intros c Hc E. subst c. specialize (Hm _ Hc).
  vm_compute in Hm. discriminate.
Qed.

(** ** The wheel pattern and the wheel sequences of the specification *)

(** Case analysis on every comparison of code units in the goal;
    the cases that equate two different constants are closed. *)
Ltac case_eqb :=
  repeat match goal with
         | |- context [N.eqb ?a ?b] =>
             destruct (N.eqb_spec a b);
             try (exfalso; subst;
                  match goal with
                  | H : _ = _ |- _ => vm_compute in H; discriminate H
                  | H : ?a <> ?a |- _ => apply H; reflexivity
                  end)
         end.

Lemma mt_lit_cons c r x t caps k :
  mt (Lit c ;; r) (x :: t) caps k = if N.eqb c x then mt r t caps k else None.
Proof. reflexivity. Qed.

Lemma mt_lit_nil c r caps k : mt (Lit c ;; r) [] caps k = None.
Proof. reflexivity. Qed.

Lemma digit_not_semi c : digit c = true -> N.eqb (ch ";") c = false.
Proof.
  intros H. destruct (N.eqb_spec (ch ";") c); [subst c | reflexivity].
  vm_compute in H. discriminate.
Qed.

Lemma digit_not_mM c : digit c = true -> mM c = false.
Proof.
  intros H. unfold mM.
  destruct (N.eqb_spec c (ch "m")); [subst c; vm_compute in H; discriminate|].
  destruct (N.eqb_spec c (ch "M")); [subst c; vm_compute in H; discriminate|].
  reflexivity.
Qed.

(** The capture of [(64|65|96|97)] is the two code units of the code. *)
Lemma mt_wheel_code r s caps k :
  mt (Grp reWheelCode ;; r) s caps k =
  match s with
  | c1 :: c2 :: t =>
      match wheelCode c1 c2 with
      | Some _ => mt r t (caps ++ [[c1; c2]]) k
      | None => None
      end
  | _ => None
  end.
Proof.
  destruct s as [|c1 [|c2 t]].
  - reflexivity.
  - unfold reWheelCode. cbn [mt Lit].
    destruct (N.eqb (ch "6") c1), (N.eqb (ch "9") c1); reflexivity.
  - unfold reWheelCode, wheelCode. cbn [mt Lit].
    replace (length (c1 :: c2 :: t) - length t) with 2 by (cbn [length]; lia).
    cbn [firstn].
    case_eqb; cbn [andb orb];
      try match goal with
          | |- context [mt r t ?c k] => destruct (mt r t c k)
          end; reflexivity.
Qed.

(** A captured [\d+] that is followed by something that cannot start
    with a digit is a whole run of digits. *)
Lemma mt_digits r s caps k :
  (forall c t caps', digit c = true -> mt r (c :: t) caps' k = None) ->
  mt (Grp (Plus digit) ;; r) s caps k =
  match digitsThen s with
  | Some s' => mt r s' (caps ++ [firstn (length s - length s') s]) k
  | None => None
  end.
Proof.
  intros Hk. unfold Plus, digitsThen. cbn [mt].
  destruct s as [|c t]; [reflexivity|].
  destruct (digit c); [|reflexivity].
  apply (starK_skip digit t
           (fun s' => mt r s' (caps ++ [firstn (length (c :: t) - length s')
                                               (c :: t)]) k)).
  intros c0 t0 H0. now apply Hk.
Qed.

Lemma wheelCode_contribution c1 c2 d rest :
  wheelCode c1 c2 = Some d -> contribution ([c1; c2] :: rest) = d.
Proof.
  unfold wheelCode, contribution.
  cbn [nth jeqb js map list_ascii_of_string].
  case_eqb; cbn [andb orb]; intros H; inversion H; reflexivity.
Qed.

(** The wheel pattern matches at the head of [s] exactly when a complete
    wheel sequence of the specification starts there, and the loop then
    adds its contribution. *)
Lemma matchAt_wheel_value s :
  match matchAt reWheel s with
  | Some (caps, _) => wheelAt s = contribution caps /\ wheelAt s <> 0%Z
  | None => wheelAt s = 0%Z
  end.
Proof.
  unfold matchAt, reWheel.
  destruct s as [|e [|b [|l s]]]; try reflexivity;
    rewrite ?mt_lit_cons, ?mt_lit_nil.
  - destruct (N.eqb ESC e); reflexivity.
  - destruct (N.eqb ESC e); [destruct (N.eqb (ch "[") b)|]; reflexivity.
  - rewrite mt_wheel_code.
    destruct s as [|c1 [|c2 [|semi s1]]].
    + destruct (N.eqb ESC e); [destruct (N.eqb (ch "[") b);
        [destruct (N.eqb (ch "<") l)|]|]; reflexivity.
    + destruct (N.eqb ESC e); [destruct (N.eqb (ch "[") b);
        [destruct (N.eqb (ch "<") l)|]|]; reflexivity.
    + rewrite mt_lit_nil.
      destruct (N.eqb ESC e); [destruct (N.eqb (ch "[") b);
        [destruct (N.eqb (ch "<") l); [destruct (wheelCode c1 c2)|]|]|];
        reflexivity.
    + rewrite mt_lit_cons. unfold wheelAt.
      rewrite (N.eqb_sym e), (N.eqb_sym b), (N.eqb_sym l), (N.eqb_sym semi).
      destruct (N.eqb ESC e); [|reflexivity].
      destruct (N.eqb (ch "[") b); [|reflexivity].
      destruct (N.eqb (ch "<") l); [|reflexivity].
      cbn [andb app].
      destruct (wheelCode c1 c2) as [d|] eqn:Ed;
        [|destruct (N.eqb (ch ";") semi); reflexivity].
      destruct (N.eqb (ch ";") semi); [|reflexivity]. cbn [andb].
      rewrite mt_digits
        by (intros c t caps' Hc; rewrite mt_lit_cons;
            now rewrite (digit_not_semi c Hc)).
      destruct (digitsThen s1) as [[|semi2 s2]|]; try reflexivity.
      rewrite mt_lit_cons, (N.eqb_sym semi2).
      destruct (N.eqb (ch ";") semi2); [|reflexivity].
      rewrite mt_digits
        by (intros c t caps' Hc; cbn [mt]; now rewrite (digit_not_mM c Hc)).
      destruct (digitsThen s2) as [[|fin s3]|]; try reflexivity.
      cbn [mt]. destruct (mM fin); [|reflexivity].
      cbn [app]. rewrite (wheelCode_contribution c1 c2 _ _ Ed).
      split; [reflexivity|].
      unfold wheelCode in Ed.
      destruct (_ || _) in Ed; [inversion Ed; discriminate|].
      destruct (_ || _) in Ed; [inversion Ed; discriminate | discriminate].
Qed.

Lemma wheelAt_head c t : c <> ESC -> wheelAt (c :: t) = 0%Z.
Proof.
  intros H. unfold wheelAt.
  destruct t as [|b [|l [|c1 [|c2 [|semi s1]]]]]; try reflexivity.
  destruct (N.eqb_spec c ESC); [contradiction | reflexivity].
Qed.

Lemma wheelStep_fst acc m :
  fst (wheelStep acc m) = (fst acc + contribution (m_groups m))%Z.
Proof. destruct acc. reflexivity. Qed.

Lemma wheel_loop s : forall skip idx acc,
  Forall (fun x => x <> ESC) (firstn skip s) ->
  fst (fold_left wheelStep (execFrom reWheel skip idx s) acc)
  = (fst acc + deltaSpec s)%Z.
Proof.
  induction s as [|c t IH]; intros skip idx acc Hskip.
  - simpl. lia.
  - cbn [execFrom deltaSpec]. destruct skip as [|k].
    + pose proof (matchAt_wheel_value (c :: t)) as Hv.
      destruct (matchAt reWheel (c :: t)) as [[caps rest]|] eqn:Em.
      * destruct (matchAt_wheel_shape _ _ _ Em) as (body & Hs & Hb).
        inversion Hs; subst c t.
        replace (length (ESC :: body ++ rest) - length rest)
          with (S (length body)) by (cbn [length]; rewrite length_app; lia).
        cbn [fold_left]. rewrite IH.
        -- rewrite wheelStep_fst. cbn [m_groups].
           destruct Hv as [Hv _]. rewrite Hv. lia.
        -- rewrite firstn_app, firstn_all, Nat.sub_diag. simpl.
           now rewrite app_nil_r.
      * rewrite IH by constructor. rewrite Hv. lia.
    + cbn [firstn] in Hskip. inversion Hskip; subst.
      rewrite IH by assumption. rewrite wheelAt_head by assumption. lia.
Qed.

Lemma consumeMouseScroll_delta buffer :
  delta (consumeMouseScroll buffer) = deltaSpec buffer.
Proof.
  unfold consumeMouseScroll.
  pose proof (wheel_loop buffer 0 0 (0%Z, 0) (Forall_nil _)) as H.
  unfold execAll. destruct (fold_left _ _ _) as [d li]. simpl in *. lia.
Qed.

(** C3: the delta of the decoder is the sum, over the complete SGR wheel
    sequences of the buffer, of [+1] for the codes 64 and 96 and [-1] for
    65 and 97; and the wheel-down sequence [ESC[<65;10;5M] cut in two at
    any place and fed in order, the remaining text carried over, gives
    [-1] in all, from one of the two calls and [0] from the other. *)
Theorem C3_wheel_delta :
  (forall buffer, delta (consumeMouseScroll buffer) = deltaSpec buffer) /\
  (forall k,
     let first := onData [] (firstn k wheelDown) in
     let second := onData (remaining first) (skipn k wheelDown) in
     totalDelta [] [firstn k wheelDown; skipn k wheelDown] = (-1)%Z /\
     (delta first + delta second = -1)%Z /\
     ((delta first = 0 /\ delta second = -1) \/
      (delta first = -1 /\ delta second = 0))%Z).
Proof.
  split; [apply consumeMouseScroll_delta|].
  assert (G : forall k, k <= 11 ->
     let first := onData [] (firstn k wheelDown) in
     let second := onData (remaining first) (skipn k wheelDown) in
     totalDelta [] [firstn k wheelDown; skipn k wheelDown] = (-1)%Z /\
     (delta first + delta second = -1)%Z /\
     ((delta first = 0 /\ delta second = -1) \/
      (delta first = -1 /\ delta second = 0))%Z).
  { intros k Hk.
    do 12 (destruct k as [|k];
           [vm_compute; repeat split; auto; fail|]).
    lia. }
  intros k. destruct (Nat.le_gt_cases k 11) as [Hk|Hk]; [now apply G|].
  assert (length wheelDown = 11) by reflexivity.
  rewrite (firstn_all2 (n := k) wheelDown) by lia.
  rewrite (skipn_all2 (n := k) wheelDown) by lia.
  vm_compute. repeat split; auto.
Qed.

(** ** [consumeMouseScroll]: an introducer that is never completed *)

Lemma test_cons r c t :
  matchAt r (c :: t) = None -> test r t = false -> test r (c :: t) = false.
Proof. intros H1 H2. simpl. now rewrite H1. Qed.

Lemma matchAt_wheel_none s : wheelAt s = 0%Z -> matchAt reWheel s = None.
Proof.
  intros H. pose proof (matchAt_wheel_value s) as Hv.
  destruct (matchAt reWheel s) as [[caps rest]|]; [|reflexivity].
  destruct Hv as [_ Hv]. contradiction.
Qed.

Lemma ones_no_ESC n : Forall (fun x => x <> ESC) (repeat (ch "1") n).
Proof.
  induction n; simpl; constructor; [discriminate | assumption].
Qed.

Lemma consumeMouseScroll_endless n :
  consumeMouseScroll (sgrIntro ++ repeat (ch "1") n)
  = mkScroll (sgrIntro ++ repeat (ch "1") n) 0.
Proof.
  assert (Htail : Forall (fun x => x <> ESC)
                    (ch "[" :: ch "<" :: repeat (ch "1") n)).
  { constructor; [discriminate|]. constructor; [discriminate|].
    apply ones_no_ESC. }
  unfold consumeMouseScroll, execAll.
  rewrite execFrom_no_match.
  - cbn [fold_left Nat.ltb Nat.leb].
    assert (E : lastIndexOf sgrIntro (sgrIntro ++ repeat (ch "1") n) = Some 0).
    { unfold sgrIntro. cbn [app js map list_ascii_of_string].
      cbn [lastIndexOf].
      rewrite (lastIndexOf_absent ESC _ _ (ones_no_ESC n)). reflexivity. }
    now rewrite E.
  - unfold sgrIntro. cbn [app js map list_ascii_of_string].
    apply test_cons; [|now apply test_literal_absent].
    apply matchAt_wheel_none.
    destruct n as [|[|[|n]]]; reflexivity.
Qed.

Lemma retained_endless n :
  retained (endless n) = sgrIntro ++ repeat (ch "1") n.
Proof.
  unfold retained, endless. cbn [fold_left]. unfold onData at 2.
  cbn [app].
  change sgrIntro with (sgrIntro ++ repeat (ch "1") 0) at 1.
  rewrite consumeMouseScroll_endless. cbn [remaining].
  enough (G : forall k m,
            fold_left (fun b chunk => remaining (onData b chunk))
                      (repeat (js "1") k) (sgrIntro ++ repeat (ch "1") m)
            = sgrIntro ++ repeat (ch "1") (m + k)).
  { now rewrite G. }
  induction k as [|k IH]; intros m; cbn [repeat fold_left].
  - now rewrite Nat.add_0_r.
  - unfold onData at 2. rewrite <- app_assoc.
    change (js "1") with (repeat (ch "1") 1) at 2.
    rewrite <- repeat_app, consumeMouseScroll_endless. cbn [remaining].
    rewrite IH. f_equal. f_equal. lia.
Qed.

(** C2, as the specification states it, fails on the code: an
    introducer followed by parameter digits that never end is retained
    whole, so ten such chunks leave thirteen code units, and no constant
    bounds the retained buffer. *)
Lemma C2_unbounded_counterexample :
  length (retained (endless 10)) = 13 /\
  ~ exists bound, forall chunks, length (retained chunks) <= bound.
Proof.
  split; [reflexivity|].
  intros [bound H]. specialize (H (endless bound)).
  rewrite retained_endless, length_app, repeat_length in H.
  simpl in H. lia.
Qed.

(** C2 (amended): the retained buffer is a suffix of the text fed so
    far, so it is no longer than that text, and it contains the
    introducer [ESC [ <] at most at its very start: what precedes the
    last introducer is dropped.  No constant bounds its length: an
    introducer followed by [n] parameter digits is retained whole. *)
Theorem C2_retained_suffix (chunks : list jstring) :
  (exists dropped, concat chunks = dropped ++ retained chunks) /\
  length (retained chunks) <= length (concat chunks) /\
  (lastIndexOf sgrIntro (retained chunks) = None \/
   lastIndexOf sgrIntro (retained chunks) = Some 0) /\
  (forall n, length (retained (endless n)) = 3 + n).
Proof.
  unfold retained.
  enough (G : forall buffer,
     (lastIndexOf sgrIntro buffer = None \/
      lastIndexOf sgrIntro buffer = Some 0) ->
     let out := fold_left (fun b chunk => remaining (onData b chunk))
                          chunks buffer in
     (exists dropped, buffer ++ concat chunks = dropped ++ out) /\
     (lastIndexOf sgrIntro out = None \/ lastIndexOf sgrIntro out = Some 0)).
  { destruct (G [] (or_introl eq_refl)) as [[d Hd] Hi].
    split; [exists d; exact Hd|]. split; [|split; [exact Hi|]].
    - simpl in Hd. rewrite Hd, length_app. lia.
    - intros n. fold (retained (endless n)).
      now rewrite retained_endless, length_app, repeat_length. }
  induction chunks as [|chunk rest IH]; intros buffer Hb; simpl.
  - split; [exists []; now rewrite app_nil_r | exact Hb].
  - destruct (IH (remaining (onData buffer chunk))
                 (consumeMouseScroll_intro _)) as [[d Hd] Hi].
    split; [|exact Hi].
    destruct (consumeMouseScroll_suffix (buffer ++ chunk)) as [d0 Hd0].
    exists (d0 ++ d). rewrite <- app_assoc, <- Hd.
    unfold onData. rewrite !app_assoc. f_equal. exact Hd0.
Qed.

(** ** [indexOf] *)

Lemma startsWith_length pat : forall s,
  startsWith pat s = true -> length pat <= length s.
Proof.
  induction pat as [|p pat IH]; intros [|c s]; simpl; try lia; try discriminate.
  intros H. apply andb_true_iff in H. destruct H as [_ H].
  apply IH in H. lia.
Qed.

(** Appending text does not change the answer once the pattern fits. *)
Lemma startsWith_long pat : forall s c,
  length pat <= length s -> startsWith pat (s ++ c) = startsWith pat s.
Proof.
  induction pat as [|p pat IH]; intros [|x s] c; simpl; try lia; try reflexivity.
  intros H. rewrite IH by lia. reflexivity.
Qed.

Lemma startsWith_nil pat : startsWith pat [] = true -> pat = [].
Proof. destruct pat; [reflexivity | discriminate]. Qed.

Lemma indexOf_bound pat s : forall i,
  indexOf pat s = Some i -> i + length pat <= length s.
Proof.
  induction s as [|c s IH]; intros i; simpl.
  - destruct (startsWith pat []) eqn:E; [|discriminate].
    apply startsWith_nil in E. subst. intros [= <-]. simpl. lia.
  - destruct (startsWith pat (c :: s)) eqn:E.
    + intros [= <-]. apply startsWith_length in E. simpl in *. lia.
    + destruct (indexOf pat s) as [j|]; [|discriminate].
      intros [= <-]. specialize (IH j eq_refl). simpl. lia.
Qed.

(** An occurrence that was found is still the first one after more text
    arrives. *)
Lemma indexOf_app pat s c : forall i,
  indexOf pat s = Some i -> indexOf pat (s ++ c) = Some i.
Proof.
  induction s as [|x s IH]; intros i H.
  - simpl in H. destruct (startsWith pat []) eqn:E; [|discriminate].
    apply startsWith_nil in E. subst. inversion H. now destruct c.
  - pose proof (indexOf_bound _ _ _ H) as Hb.
    cbn [indexOf app] in *.
    change (x :: s ++ c) with ((x :: s) ++ c).
    destruct (startsWith pat (x :: s)) eqn:E.
    + rewrite startsWith_long, E by (now apply startsWith_length). exact H.
    + destruct (indexOf pat s) as [j|] eqn:Ej; [|discriminate].
      inversion H; subst i.
      rewrite startsWith_long, E by (simpl in *; lia).
      now rewrite (IH j eq_refl).
Qed.

Lemma skipn_app_add (t rest : jstring) m :
  skipn (length t + m) (t ++ rest) = skipn m rest.
Proof.
  rewrite skipn_app, skipn_all2 by lia.
  replace (length t + m - length t) with m by lia. reflexivity.
Qed.

Lemma option_map_add0 (o : option nat) : option_map (Nat.add 0) o = o.
Proof. now destruct o. Qed.

(** The holdback: when the pattern does not occur in [t ++ u] and [u]
    holds back enough, a later occurrence lies in [u] and what follows
    it. *)
Lemma indexOf_holdback pat u c : forall t,
  indexOf pat (t ++ u) = None ->
  t = [] \/ length pat <= S (length u) ->
  indexOf pat (t ++ u ++ c) = option_map (Nat.add (length t)) (indexOf pat (u ++ c)).
Proof.
  induction t as [|x t IH]; intros Hn Hu.
  - simpl. now rewrite option_map_add0.
  - destruct Hu as [Hu|Hu]; [discriminate|].
    cbn [app indexOf] in *.
    destruct (startsWith pat (x :: t ++ u)) eqn:E; [discriminate|].
    destruct (indexOf pat (t ++ u)) eqn:Ei; [discriminate|].
    change (x :: t ++ u ++ c) with (x :: t ++ (u ++ c)).
    rewrite (app_assoc t u c).
    change (x :: (t ++ u) ++ c) with ((x :: t ++ u) ++ c).
    rewrite startsWith_long, E
      by (cbn [length]; rewrite length_app; lia).
    rewrite <- app_assoc, IH by (auto; right; lia).
    destruct (indexOf pat (u ++ c)); reflexivity.
Qed.

Lemma startsWith_app pat : forall rest, startsWith pat (pat ++ rest) = true.
Proof.
  induction pat as [|p pat IH]; intros rest; simpl; [reflexivity|].
  now rewrite N.eqb_refl, IH.
Qed.

Lemma startsWith_split pat : forall s,
  startsWith pat s = true -> s = pat ++ skipn (length pat) s.
Proof.
  induction pat as [|p pat IH]; intros [|c s]; simpl; try discriminate;
    try reflexivity.
  intros H. apply andb_true_iff in H. destruct H as [Hc H].
  apply N.eqb_eq in Hc. subst c. f_equal. now apply IH.
Qed.

Lemma indexOf_startsWith pat s :
  startsWith pat s = true -> indexOf pat s = Some 0.
Proof. intros H. destruct s; simpl; now rewrite H. Qed.

(** A pattern that occurs is found, at or before the occurrence. *)
Lemma indexOf_complete pat b : forall a,
  exists i, indexOf pat (a ++ pat ++ b) = Some i /\ i <= length a.
Proof.
  induction a as [|x a IH].
  - exists 0. split; [|simpl; lia].
    cbn [app]. apply indexOf_startsWith, startsWith_app.
  - cbn [app indexOf]. destruct (startsWith pat (x :: a ++ pat ++ b)).
    + exists 0. split; [reflexivity | simpl; lia].
    + destruct IH as (i & -> & Hi). exists (S i). split; [reflexivity|].
      simpl. lia.
Qed.

Lemma indexOf_split pat : forall s i,
  indexOf pat s = Some i ->
  s = firstn i s ++ pat ++ skipn (i + length pat) s.
Proof.
  induction s as [|c s IH]; intros i; cbn [indexOf].
  - destruct (startsWith pat []) eqn:E; [|discriminate].
    apply startsWith_nil in E. subst. now intros [= <-].
  - destruct (startsWith pat (c :: s)) eqn:E.
    + intros [= <-]. now apply startsWith_split.
    + destruct (indexOf pat s) as [j|] eqn:Ej; [|discriminate].
      intros [= <-]. cbn [firstn skipn app Nat.add]. f_equal. now apply IH.
Qed.

(** ** The tag tracker: chunk boundaries do not matter *)

Lemma extractTagFromBuffer_unfold buffer tag st :
  extractTagFromBuffer buffer tag st =
  if done st then (buffer, st)
  else if opened st then accumulate (closeTagOf tag) buffer st
  else match indexOf (openTagOf tag) buffer with
       | None => (buffer, st)
       | Some openIdx =>
           accumulate (closeTagOf tag)
             (skipn (openIdx + length (openTagOf tag)) buffer)
             (mkTag true (done st) (text st))
       end.
Proof.
  unfold extractTagFromBuffer, accumulate.
  destruct st as [[|] [|] t]; cbn [done opened text negb]; try reflexivity.
  destruct (indexOf (openTagOf tag) buffer); reflexivity.
Qed.

(** Without a close marker in the buffer, all but the last
    [closeTag.length] code units move to the text; the test
    [buffer.value.length > closeTag.length] only skips a move of
    nothing. *)
Lemma accumulate_none closeTag buffer st :
  indexOf closeTag buffer = None ->
  opened st = true -> done st = false ->
  accumulate closeTag buffer st =
  (skipn (length buffer - length closeTag) buffer,
   mkTag true false
         (text st ++ firstn (length buffer - length closeTag) buffer)).
Proof.
  intros Hn Ho Hd. unfold accumulate. rewrite Hn.
  destruct st as [o d t]. cbn [opened done text] in *. subst o d.
  destruct (Nat.ltb_spec (length closeTag) (length buffer)) as [H|H];
    [reflexivity|].
  replace (length buffer - length closeTag) with 0 by lia.
  cbn [skipn firstn]. now rewrite app_nil_r.
Qed.

Lemma openTagOf_not_nil tag : indexOf (openTagOf tag) [] = None.
Proof. reflexivity. Qed.

Section Chunks.
Variable tag : jstring.
Let openTag := openTagOf tag.
Let closeTag := closeTagOf tag.

(** The state of the buffer and the tracker after the text [fed] has
    arrived in one chunk. *)
Let oneShot (fed : jstring) := extractTagFromBuffer fed tag initTag.

Lemma onStreamChunk_oneShot fed chunk :
  onStreamChunk tag (oneShot fed) chunk = oneShot (fed ++ chunk).
Proof.
  unfold onStreamChunk, oneShot.
  rewrite (extractTagFromBuffer_unfold fed), (extractTagFromBuffer_unfold (fed ++ chunk)).
  cbn [initTag done opened text].
  fold openTag closeTag.
  destruct (indexOf openTag fed) as [i|] eqn:Eopen.
  2:{ cbn [fst snd]. rewrite extractTagFromBuffer_unfold.
      reflexivity. }
  pose proof (indexOf_bound _ _ _ Eopen) as Hb.
  rewrite (indexOf_app _ _ chunk _ Eopen).
  rewrite skipn_app.
  replace (i + length openTag - length fed) with 0 by lia.
  cbn [skipn].
  set (Q := skipn (i + length openTag) fed).
  destruct (indexOf closeTag Q) as [j|] eqn:Eclose.
  - pose proof (indexOf_bound _ _ _ Eclose) as Hc.
    unfold accumulate at 1 2. rewrite Eclose. cbn [fst snd].
    rewrite extractTagFromBuffer_unfold. cbn [done].
    unfold accumulate. rewrite (indexOf_app _ _ chunk _ Eclose).
    cbn [opened text app].
    rewrite skipn_app, firstn_app.
    replace (j + length closeTag - length Q) with 0 by lia.
    replace (j - length Q) with 0 by lia.
    cbn [skipn firstn]. now rewrite app_nil_r.
  - rewrite (accumulate_none closeTag Q) by auto.
    cbn [fst snd text app].
    rewrite extractTagFromBuffer_unfold. cbn [done opened].
    fold closeTag.
    set (n := length Q - length closeTag).
    assert (Hcase : firstn n Q = [] \/
                    length closeTag <= length (skipn n Q)).
    { destruct (Nat.eq_dec n 0) as [E0|E0].
      - left. now rewrite E0.
      - right. rewrite length_skipn. lia. }
    replace (Q ++ chunk) with (firstn n Q ++ skipn n Q ++ chunk)
      by (now rewrite app_assoc, firstn_skipn).
    assert (Hn : indexOf closeTag (firstn n Q ++ skipn n Q) = None)
      by (now rewrite firstn_skipn).
    revert Hcase Hn.
    generalize (firstn n Q) as t, (skipn n Q) as u. clear.
    intros t u Hcase Hn.
    destruct (indexOf closeTag (u ++ chunk)) as [j|] eqn:Ej.
    + unfold accumulate. rewrite Ej.
      pose proof (indexOf_holdback closeTag u chunk t Hn) as Hh.
      rewrite Ej in Hh. rewrite Hh
        by (destruct Hcase; [now left | right; lia]).
      cbn [option_map opened text app]. f_equal.
      * now rewrite <- Nat.add_assoc, skipn_app_add.
      * f_equal. now rewrite firstn_app_2.
    + assert (Hh : indexOf closeTag (t ++ u ++ chunk) = None).
      { rewrite (indexOf_holdback closeTag u chunk t Hn), Ej
          by (destruct Hcase; [now left | right; lia]).
        reflexivity. }
      rewrite (accumulate_none _ _ (mkTag true false t) Ej eq_refl eq_refl).
      rewrite (accumulate_none _ _ (mkTag true false []) Hh eq_refl eq_refl).
      cbn [text app].
      assert (Hlen : length (t ++ u ++ chunk) - length closeTag
                     = length t + (length (u ++ chunk) - length closeTag)).
      { destruct Hcase as [-> | Hu]; [reflexivity|].
        rewrite !length_app. lia. }
      rewrite Hlen. f_equal.
      * now rewrite skipn_app_add.
      * f_equal. now rewrite firstn_app_2.
Qed.

(** Feeding the chunks one by one leaves the buffer and the tracker as
    one push of their concatenation does. *)
Lemma feed_oneShot chunks : feed tag chunks = oneShot (concat chunks).
Proof.
  unfold feed.
  change ([], initTag) with (oneShot []).
  enough (G : forall fed,
            fold_left (onStreamChunk tag) chunks (oneShot fed)
            = oneShot (fed ++ concat chunks)) by apply (G []).
  induction chunks as [|chunk rest IH]; intros fed; simpl.
  - now rewrite app_nil_r.
  - rewrite onStreamChunk_oneShot, IH. now rewrite app_assoc.
Qed.

Lemma oneShot_exact pre content post :
  indexOf openTag (pre ++ openTag ++ content ++ closeTag ++ post)
  = Some (length pre) ->
  indexOf closeTag (content ++ closeTag ++ post) = Some (length content) ->
  oneShot (pre ++ openTag ++ content ++ closeTag ++ post)
  = (post, mkTag true true content).
Proof.
  intros Ho Hc. unfold oneShot.
  rewrite extractTagFromBuffer_unfold. cbn [initTag done opened text].
  fold openTag closeTag. rewrite Ho.
  assert (E : skipn (length pre + length openTag)
                (pre ++ openTag ++ content ++ closeTag ++ post)
              = content ++ closeTag ++ post).
  { rewrite app_assoc, <- length_app.
    rewrite skipn_app, skipn_all, Nat.sub_diag. reflexivity. }
  rewrite E. unfold accumulate. rewrite Hc. cbn [opened text app].
  f_equal.
  - rewrite app_assoc, <- length_app.
    rewrite skipn_app, skipn_all, Nat.sub_diag. reflexivity.
  - f_equal. rewrite firstn_app, firstn_all, Nat.sub_diag. simpl.
    now rewrite app_nil_r.
Qed.
(** A stream that contains the two markers in this order ends the
    tracker done, whatever the chunks: its text is what lies between the
    first open marker and the first close marker after it, and the
    buffer keeps what follows. *)
Lemma feed_done pre content post chunks :
  concat chunks = pre ++ openTag ++ content ++ closeTag ++ post ->
  exists pre' content' post',
    concat chunks = pre' ++ openTag ++ content' ++ closeTag ++ post' /\
    indexOf openTag (concat chunks) = Some (length pre') /\
    indexOf closeTag (content' ++ closeTag ++ post') = Some (length content') /\
    feed tag chunks = (post', mkTag true true content').
Proof.
  intros Hs. rewrite feed_oneShot. rewrite Hs.
  set (stream := pre ++ openTag ++ content ++ closeTag ++ post).
  destruct (indexOf_complete openTag (content ++ closeTag ++ post) pre)
    as (i & Hi & Hle).
  fold stream in Hi.
  pose proof (indexOf_split _ _ _ Hi) as Hsplit.
  set (rest := skipn (i + length openTag) stream) in *.
  assert (Hrest : exists x, rest = (x ++ content) ++ closeTag ++ post).
  { exists (skipn (i + length openTag) (pre ++ openTag)).
    subst rest stream.
    rewrite (app_assoc pre openTag), skipn_app, length_app.
    replace (i + length openTag - (length pre + length openTag)) with 0
      by lia.
    cbn [skipn]. now rewrite <- app_assoc. }
  destruct Hrest as [x Hx].
  destruct (indexOf_complete closeTag post (x ++ content)) as (j & Hj & _).
  rewrite <- Hx in Hj.
  pose proof (indexOf_split _ _ _ Hj) as Hsplit2.
  pose proof (indexOf_bound _ _ _ Hi) as Hbi.
  pose proof (indexOf_bound _ _ _ Hj) as Hbj.
  assert (Lpre : length (firstn i stream) = i)
    by (rewrite length_firstn; lia).
  assert (Lcontent : length (firstn j rest) = j)
    by (rewrite length_firstn; lia).
  exists (firstn i stream), (firstn j rest),
         (skipn (j + length closeTag) rest).
  rewrite <- Hsplit2, <- Hsplit, Lpre, Lcontent.
  repeat split; auto.
  rewrite Hsplit at 1. rewrite Hsplit2 at 1.
  apply oneShot_exact.
  - rewrite <- Hsplit2, <- Hsplit, Lpre. exact Hi.
  - rewrite <- Hsplit2, Lcontent. exact Hj.
Qed.
End Chunks.

(** C4: however a stream that contains [<tag>content</tag>] is cut into
    chunks, each appended to the buffer and followed by a push, the
    tracker ends done with exactly the text between the first open
    marker and the first close marker that follows it (and every stream
    with the two markers in this order has such a pair); and the chunks
    ["<actions>REP", "LY</actions><te", "xt>A", "B</te", "xt>"] give a
    tracker for ["text"] the text ["AB"], alone on the buffer or pushed
    after a tracker for ["actions"] (which gets ["REPLY"]). *)
Theorem C4_tag_text_exact :
  (forall tag pre content post chunks,
     concat chunks
     = pre ++ openTagOf tag ++ content ++ closeTagOf tag ++ post ->
     indexOf (openTagOf tag) (concat chunks) = Some (length pre) ->
     indexOf (closeTagOf tag) (content ++ closeTagOf tag ++ post)
     = Some (length content) ->
     done (snd (feed tag chunks)) = true /\
     text (snd (feed tag chunks)) = content) /\
  (forall tag pre content post chunks,
     concat chunks
     = pre ++ openTagOf tag ++ content ++ closeTagOf tag ++ post ->
     exists pre' content' post',
       concat chunks
       = pre' ++ openTagOf tag ++ content' ++ closeTagOf tag ++ post' /\
       indexOf (openTagOf tag) (concat chunks) = Some (length pre') /\
       indexOf (closeTagOf tag) (content' ++ closeTagOf tag ++ post')
       = Some (length content') /\
       feed tag chunks = (post', mkTag true true content')) /\
  text (snd (feed (js "text") exampleChunks)) = js "AB" /\
  (let '(_, actionsState, textState) :=
     feed2 (js "actions") (js "text") exampleChunks in
   text actionsState = js "REPLY" /\ text textState = js "AB").
Proof.
  split; [|split; [|split; vm_compute; auto]].
  - intros tag pre content post chunks Hs Ho Hc.
    rewrite feed_oneShot, Hs. rewrite Hs in Ho.
    rewrite (oneShot_exact tag pre content post Ho Hc). auto.
  - intros tag pre content post chunks. apply feed_done.
Qed.

Lemma C4_tag_text_exact_witness :
  done (snd (feed (js "text") exampleChunks)) = true /\
  text (snd (feed (js "text") exampleChunks)) = js "AB".
Proof.
  apply (proj1 C4_tag_text_exact (js "text")
           (js "<actions>REPLY</actions>") (js "AB") (js "") exampleChunks);
    vm_compute; reflexivity.
Defined.

(** * Further properties *)

(** ** The decoder across chunk boundaries *)

Lemma wheelAt_unfold e b l c1 c2 semi s1 :
  wheelAt (e :: b :: l :: c1 :: c2 :: semi :: s1) =
  if N.eqb e ESC && N.eqb b (ch "[") && N.eqb l (ch "<")
     && N.eqb semi (ch ";")
  then match wheelCode c1 c2 with
       | Some d => wheelParams d s1
       | None => 0%Z
       end
  else 0%Z.
Proof.
  unfold wheelAt, wheelParams.
  destruct (_ && _); [|reflexivity].
  destruct (wheelCode c1 c2); [|reflexivity].
  destruct (digitsThen s1) as [[|semi2 s2]|]; reflexivity.
Qed.

Lemma wheelCode_not_ESC c1 c2 d :
  wheelCode c1 c2 = Some d -> c1 <> ESC /\ c2 <> ESC.
Proof.
  unfold wheelCode. intros H.
  split; intros ->; revert H; case_eqb; cbn [andb orb]; discriminate.
Qed.

(** A sequence that is complete is an ESC, the fixed header, and
    parameters that complete it. *)
Lemma wheelAt_nonzero s :
  wheelAt s <> 0%Z ->
  exists c1 c2 d s1,
    s = ESC :: ch "[" :: ch "<" :: c1 :: c2 :: ch ";" :: s1 /\
    wheelCode c1 c2 = Some d /\ wheelAt s = wheelParams d s1.
Proof.
  destruct s as [|e [|b [|l [|c1 [|c2 [|semi s1]]]]]];
    try (intros H; exfalso; apply H; reflexivity).
  rewrite wheelAt_unfold.
  destruct (N.eqb_spec e ESC); [|intros H; now elim H].
  destruct (N.eqb_spec b (ch "[")); [|intros H; now elim H].
  destruct (N.eqb_spec l (ch "<")); [|intros H; now elim H].
  destruct (N.eqb_spec semi (ch ";")); [|intros H; now elim H].
  cbn [andb]. destruct (wheelCode c1 c2) as [d|] eqn:E;
    [|intros H; now elim H].
  intros _. subst. now exists c1, c2, d, s1.
Qed.

Lemma skipWhile_app p t y :
  skipWhile p t <> [] -> skipWhile p (t ++ y) = skipWhile p t ++ y.
Proof.
  induction t as [|c t IH]; simpl; [congruence|].
  destruct (p c); [exact IH | reflexivity].
Qed.

Lemma skipWhile_stop p c z : forall t,
  p c = false ->
  skipWhile p (t ++ c :: z) =
  match skipWhile p t with
  | [] => c :: z
  | r => r ++ c :: z
  end.
Proof.
  induction t as [|x t IH]; intros Hc; simpl.
  - now rewrite Hc.
  - destruct (p x); [now apply IH | reflexivity].
Qed.

Lemma digitsThen_app s c r y :
  digitsThen s = Some (c :: r) -> digitsThen (s ++ y) = Some (c :: r ++ y).
Proof.
  destruct s as [|x t]; simpl; [discriminate|].
  destruct (digit x); [|discriminate].
  intros [= H]. rewrite skipWhile_app by (rewrite H; discriminate).
  now rewrite H.
Qed.

(** A complete sequence stays what it is when text is appended. *)
Lemma wheelParams_stable d s1 y :
  wheelParams d s1 <> 0%Z -> wheelParams d (s1 ++ y) = wheelParams d s1.
Proof.
  unfold wheelParams.
  destruct (digitsThen s1) as [[|semi2 s2]|] eqn:E1;
    try (intros H; now elim H).
  rewrite (digitsThen_app _ _ _ y E1).
  destruct (N.eqb semi2 (ch ";")); [|intros H; now elim H].
  destruct (digitsThen s2) as [[|fin s3]|] eqn:E2;
    try (intros H; now elim H).
  now rewrite (digitsThen_app _ _ _ y E2).
Qed.

Lemma wheelAt_stable s y : wheelAt s <> 0%Z -> wheelAt (s ++ y) = wheelAt s.
Proof.
  intros H. destruct (wheelAt_nonzero s H) as (c1 & c2 & d & s1 & -> & Hc & E).
  rewrite E in H. rewrite E. cbn [app]. rewrite wheelAt_unfold, Hc.
  rewrite !N.eqb_refl. cbn [andb]. now apply wheelParams_stable.
Qed.

Lemma digit_ESC : digit ESC = false.
Proof. reflexivity. Qed.

Lemma digitsThen_stop z : forall s,
  digitsThen (s ++ ESC :: z) =
  match digitsThen s with
  | Some [] => Some (ESC :: z)
  | Some r => Some (r ++ ESC :: z)
  | None => None
  end.
Proof.
  intros [|c t]; simpl; [reflexivity|].
  destruct (digit c); [|reflexivity].
  rewrite (skipWhile_stop digit ESC z t digit_ESC).
  destruct (skipWhile digit t); reflexivity.
Qed.

(** An ESC stops the parameters: what follows it does not matter. *)
Lemma wheelParams_block d u z z' :
  wheelParams d (u ++ ESC :: z) = wheelParams d (u ++ ESC :: z').
Proof.
  unfold wheelParams. rewrite !digitsThen_stop.
  destruct (digitsThen u) as [[|semi2 s2]|]; try reflexivity.
  cbn [app]. destruct (N.eqb semi2 (ch ";")); [|reflexivity].
  rewrite !digitsThen_stop.
  destruct (digitsThen s2) as [[|fin s3]|]; reflexivity.
Qed.

Lemma wheelAt_block u z z' :
  u <> [] -> wheelAt (u ++ ESC :: z) = wheelAt (u ++ ESC :: z').
Proof.
  intros Hu.
  assert (short : forall w, length u < 6 -> wheelAt (u ++ ESC :: w) = 0%Z).
  { intros w Hl.
    destruct (Z.eq_dec (wheelAt (u ++ ESC :: w)) 0) as [E|E]; [exact E|].
    exfalso.
    destruct (wheelAt_nonzero _ E) as (c1 & c2 & d & s1 & Hs & Hc & _).
    destruct (wheelCode_not_ESC _ _ _ Hc) as [H1 H2].
    destruct u as [|e [|b [|l [|x1 [|x2 [|semi u']]]]]];
      cbn [app] in Hs; try (simpl in Hl; lia); try congruence;
      inversion Hs; subst; try discriminate; congruence. }
  destruct (Nat.lt_ge_cases (length u) 6) as [Hl|Hl].
  - now rewrite !short.
  - destruct u as [|e [|b [|l [|c1 [|c2 [|semi u']]]]]];
      try (simpl in Hl; lia).
    cbn [app]. rewrite !wheelAt_unfold.
    destruct (_ && _); [|reflexivity].
    destruct (wheelCode c1 c2); [|reflexivity].
    apply wheelParams_block.
Qed.

Lemma quiet_deltaSpec s : quiet s -> deltaSpec s = 0%Z.
Proof.
  induction s as [|c t IH]; simpl; [reflexivity|].
  intros [H Hq]. rewrite H, IH by assumption. reflexivity.
Qed.

Lemma quiet_skipn n : forall s, quiet s -> quiet (skipn n s).
Proof.
  induction n as [|n IH]; intros [|c t] H; simpl; auto.
  apply IH. now destruct H.
Qed.

Lemma deltaSpec_app d z : deltaSpec (d ++ z) = (sumAt d z + deltaSpec z)%Z.
Proof.
  induction d as [|c d IH]; simpl; [reflexivity|].
  change (c :: d ++ z) with ((c :: d) ++ z). rewrite IH. lia.
Qed.

Lemma lastIdx_cons m ms d : lastIdx (m :: ms) d = lastIdx ms (m_lastIndex m).
Proof.
  unfold lastIdx. cbn [map].
  generalize (m_lastIndex m) as a. generalize (map m_lastIndex ms) as l.
  assert (G : forall (l : list nat) a x, last (a :: l) x = last l a).
  { induction l as [|b l IH]; intros a x; [reflexivity|].
    change (last (a :: b :: l) x) with (last (b :: l) x).
    now rewrite !IH. }
  intros l a. apply G.
Qed.

Lemma wheelStep_snd ms : forall acc,
  snd (fold_left wheelStep ms acc) = lastIdx ms (snd acc).
Proof.
  induction ms as [|m ms IH]; intros acc; [reflexivity|].
  cbn [fold_left]. rewrite IH, lastIdx_cons. now destruct acc.
Qed.

(** What the loop leaves: [e], the end of the last match (or [skip]
    when there is none); no sequence starts at or after [e], and the
    sequences that start before [e] are not changed by text appended to
    the buffer. *)
Lemma wheel_loop_end s : forall skip idx,
  Forall (fun x => x <> ESC) (firstn skip s) -> skip <= length s ->
  (execFrom reWheel skip idx s = [] /\ quiet (skipn skip s)) \/
  (exists e, skip <= e <= length s /\
     (forall d, lastIdx (execFrom reWheel skip idx s) d = idx + e) /\
     0 < e /\
     quiet (skipn e s) /\
     In ESC (firstn e s) /\
     forall y, sumAt (firstn e s) (skipn e s ++ y)
               = sumAt (firstn e s) (skipn e s)).
Proof.
  induction s as [|c t IH]; intros skip idx Hskip Hle.
  - left. simpl in Hle. replace skip with 0 by lia. simpl. auto.
  - cbn [execFrom]. destruct skip as [|k].
    + pose proof (matchAt_wheel_value (c :: t)) as Hv.
      destruct (matchAt reWheel (c :: t)) as [[caps rest]|] eqn:Em.
      * destruct (matchAt_wheel_shape _ _ _ Em) as (body & Hs & Hb).
        inversion Hs; subst c t. destruct Hv as [_ Hv].
        replace (length (ESC :: body ++ rest) - length rest)
          with (S (length body)) by (cbn [length]; rewrite length_app; lia).
        assert (Hf : firstn (length body) (body ++ rest) = body).
        { rewrite firstn_app, firstn_all, Nat.sub_diag. simpl.
          now rewrite app_nil_r. }
        assert (Hbody : forall z, sumAt body z = 0%Z).
        { intros z. clear - Hb.
          induction Hb as [|x b Hx _ IHb]; cbn [sumAt app]; [reflexivity|].
          rewrite wheelAt_head by assumption. now rewrite IHb. }
        right.
        destruct (IH (length body) (S idx)) as [[E Hq]|(e & He & Hl & _ & Hq & _ & Hset)].
        { now rewrite Hf. }
        { rewrite length_app. lia. }
        -- exists (S (length body)). rewrite E.
           split; [cbn [length]; rewrite length_app; lia|].
           split; [intros d; rewrite lastIdx_cons; reflexivity|].
           split; [lia|]. split; [exact Hq|].
           split; [left; reflexivity|].
           intros y. cbn [firstn skipn sumAt]. rewrite Hf, !Hbody.
           rewrite skipn_app, skipn_all, Nat.sub_diag. cbn [app skipn].
           assert (W := wheelAt_stable (ESC :: body ++ rest) y Hv).
           cbn [app] in W. rewrite <- !app_assoc in W. rewrite W. reflexivity.
        -- exists (S e). split; [cbn [length]; lia|].
           split; [intros d; rewrite lastIdx_cons, Hl; lia|].
           split; [lia|]. split; [exact Hq|].
           split; [left; reflexivity|].
           intros y. cbn [firstn skipn sumAt]. rewrite Hset. f_equal.
           cbn [app]. rewrite (app_assoc (firstn e _)), !firstn_skipn.
           exact (wheelAt_stable (ESC :: body ++ rest) y Hv).
      * destruct (IH 0 (S idx) (Forall_nil _) (Nat.le_0_l _))
          as [[E Hq]|(e & He & Hl & _ & Hq & Hin & Hset)].
        -- left. split; [exact E|]. cbn [skipn] in *. split; assumption.
        -- right. exists (S e). split; [cbn [length]; lia|].
           split; [intros d; rewrite Hl; lia|].
           split; [lia|]. split; [exact Hq|].
           split; [right; exact Hin|].
           intros y. cbn [firstn skipn sumAt]. rewrite Hset. f_equal.
           destruct (in_split _ _ Hin) as (u1 & u2 & Hu). rewrite Hu.
           cbn [app]. rewrite <- !app_assoc. cbn [app].
           apply (wheelAt_block (c :: u1)). discriminate.
    + cbn [firstn] in Hskip. inversion Hskip; subst.
      cbn [length] in Hle.
      destruct (IH k (S idx)) as [[E Hq]|(e & He & Hl & _ & Hq & Hin & Hset)];
        [assumption | lia | |].
      * left. split; [exact E | exact Hq].
      * right. exists (S e). split; [cbn [length]; lia|].
        split; [intros d; rewrite Hl; lia|].
        split; [lia|]. split; [exact Hq|].
        split; [right; exact Hin|].
        intros y. cbn [firstn skipn sumAt]. rewrite Hset.
        cbn [app]. now rewrite !wheelAt_head by assumption.
Qed.

Lemma sumAt_block d z z' : sumAt d (ESC :: z) = sumAt d (ESC :: z').
Proof.
  induction d as [|c d IH]; cbn [sumAt]; [reflexivity|].
  rewrite IH. f_equal. apply wheelAt_block. discriminate.
Qed.

Lemma lastIndexOf_zero pat r :
  lastIndexOf pat r = Some 0 -> startsWith pat r = true.
Proof.
  destruct r as [|c t]; simpl.
  - destruct (startsWith pat []); [reflexivity | discriminate].
  - destruct (lastIndexOf pat t); [discriminate|].
    destruct (startsWith pat (c :: t)); [reflexivity | discriminate].
Qed.

Lemma cutIntro_settled r1 :
  exists d2, r1 = d2 ++ cutIntro r1 /\
    forall y, sumAt d2 (cutIntro r1 ++ y) = sumAt d2 (cutIntro r1).
Proof.
  unfold cutIntro.
  destruct (lastIndexOf sgrIntro r1) as [[|i]|] eqn:E;
    try (exists []; split; [reflexivity | intros; reflexivity]).
  exists (firstn (S i) r1). split; [symmetry; apply firstn_skipn|].
  apply lastIndexOf_skipn, lastIndexOf_zero in E.
  destruct (skipn (S i) r1) as [|c r']; [discriminate|].
  unfold sgrIntro in E. cbn [startsWith] in E.
  apply andb_true_iff in E. destruct E as [E _].
  apply N.eqb_eq in E. subst c.
  intros y. cbn [app]. apply sumAt_block.
Qed.

Lemma consumeMouseScroll_cut x :
  exists e,
    remaining (consumeMouseScroll x) = cutIntro (skipn e x) /\
    quiet (skipn e x) /\
    forall y, sumAt (firstn e x) (skipn e x ++ y)
              = sumAt (firstn e x) (skipn e x).
Proof.
  unfold consumeMouseScroll, execAll.
  pose proof (wheelStep_snd (execFrom reWheel 0 0 x) (0%Z, 0)) as Hsnd.
  destruct (fold_left wheelStep (execFrom reWheel 0 0 x) (0%Z, 0))
    as [d li]. cbn [snd] in Hsnd. subst li. cbn [remaining].
  destruct (wheel_loop_end x 0 0 (Forall_nil _) (Nat.le_0_l _))
    as [[E Hq]|(e & He & Hl & Hpos & Hq & _ & Hset)].
  - exists 0. rewrite E. cbn [lastIdx map last Nat.ltb Nat.leb skipn firstn].
    repeat split; auto.
  - exists e. rewrite Hl. cbn [Nat.add].
    destruct (Nat.ltb_spec 0 e) as [_|]; [|lia].
    unfold cutIntro. repeat split; auto.
Qed.

(** What a call reports and what it keeps add up: the delta of a
    buffer and the sequences of the kept text with what arrives next are
    the sequences of the buffer with what arrives next. *)
Lemma consumeMouseScroll_carry x y :
  (deltaSpec x + deltaSpec (remaining (consumeMouseScroll x) ++ y))%Z
  = deltaSpec (x ++ y).
Proof.
  destruct (consumeMouseScroll_cut x) as (e & -> & Hq & Hset).
  destruct (cutIntro_settled (skipn e x)) as (d2 & Hd2 & Hset2).
  set (r := cutIntro (skipn e x)) in *.
  assert (Hr : quiet r).
  { unfold r, cutIntro. destruct (lastIndexOf _ _) as [[|i]|]; auto.
    now apply quiet_skipn. }
  assert (H0 : sumAt d2 r = 0%Z).
  { pose proof (quiet_deltaSpec _ Hq) as H. rewrite Hd2 in H.
    rewrite deltaSpec_app, (quiet_deltaSpec _ Hr) in H. lia. }
  assert (E1 : deltaSpec x = sumAt (firstn e x) (skipn e x)).
  { rewrite <- (firstn_skipn e x) at 1.
    rewrite deltaSpec_app, (quiet_deltaSpec _ Hq). lia. }
  assert (E2 : deltaSpec (x ++ y)
               = (sumAt (firstn e x) (skipn e x) + deltaSpec (r ++ y))%Z).
  { rewrite <- (firstn_skipn e x) at 1.
    rewrite <- app_assoc, deltaSpec_app, Hset. f_equal.
    rewrite Hd2 at 1. rewrite <- app_assoc, deltaSpec_app, Hset2, H0.
    reflexivity. }
  rewrite E1, E2. reflexivity.
Qed.

Lemma consumeMouseScroll_quiet x : quiet (remaining (consumeMouseScroll x)).
Proof.
  destruct (consumeMouseScroll_cut x) as (e & -> & Hq & _).
  unfold cutIntro. destruct (lastIndexOf _ _) as [[|i]|]; auto.
  now apply quiet_skipn.
Qed.

Lemma totalDelta_carry chunks : forall buffer,
  quiet buffer -> totalDelta buffer chunks = deltaSpec (buffer ++ concat chunks).
Proof.
  induction chunks as [|chunk rest IH]; intros buffer Hq; cbn [totalDelta concat].
  - rewrite app_nil_r. symmetry. now apply quiet_deltaSpec.
  - unfold onData. rewrite IH by apply consumeMouseScroll_quiet.
    rewrite consumeMouseScroll_delta, app_assoc.
    apply consumeMouseScroll_carry.
Qed.

(** X1: however a stream is cut into chunks, the deltas the decoder
    reports for the chunks, the remaining text carried from call to
    call, add up to the contributions of the complete wheel sequences of
    the whole stream: each sequence is counted once, whether or not it
    is split across chunks; and the text retained after any chunk
    contains no complete wheel sequence. *)
Theorem X1_wheel_chunks (chunks : list jstring) :
  totalDelta [] chunks = deltaSpec (concat chunks) /\
  delta (consumeMouseScroll (retained chunks)) = 0%Z.
Proof.
  split; [apply (totalDelta_carry chunks []); exact I|].
  rewrite consumeMouseScroll_delta. apply quiet_deltaSpec.
  unfold retained.
  enough (G : forall buffer, quiet buffer ->
            quiet (fold_left (fun b chunk => remaining (onData b chunk))
                             chunks buffer)) by (apply G; exact I).
  induction chunks as [|chunk rest IH]; intros buffer Hq; cbn [fold_left].
  - exact Hq.
  - apply IH, consumeMouseScroll_quiet.
Qed.

(** ** The tag tracker: what a push keeps *)




(** ** Scrolling *)

Lemma scrollStep_nonneg maxScroll prev ev :
  (0 <= maxScroll)%Z -> (0 <= prev)%Z -> (0 <= scrollStep maxScroll prev ev)%Z.
Proof. intros Hm Hp. destruct ev; unfold scrollStep; lia. Qed.

Lemma scrollRun_nonneg events :
  Forall (fun p => (0 <= fst p)%Z) events -> (0 <= scrollRun events)%Z.
Proof.
  unfold scrollRun.
  enough (G : forall prev, (0 <= prev)%Z ->
            Forall (fun p => (0 <= fst p)%Z) events ->
            (0 <= fold_left (fun prev p => scrollStep (fst p) prev (snd p))
                            events prev)%Z) by (apply G; lia).
  induction events as [|p events IH]; intros prev Hp H; cbn [fold_left].
  - exact Hp.
  - inversion H; subst. apply IH; [|assumption].
    now apply scrollStep_nonneg.
Qed.

(** X3: the scroll offset a panel is given is never negative, whatever
    wheel, page, arrow and reset events arrive, as long as the reported
    [maxScroll] values are not negative (they are [Math.max(0, ...)]);
    after a wheel or arrow event it is at most the [maxScroll] of that
    event; and with such an offset the window the panels compute is the
    window with [effectiveOffset = clamp(offset, 0, maxScroll)]. *)
Theorem X3_scroll_offset_range (events : list (Z * ScrollEvent)) :
  Forall (fun p => (0 <= fst p)%Z) events ->
  (0 <= scrollRun events)%Z /\
  (forall m ev, (0 <= m)%Z ->
     ev <> PageDown ->
     (0 <= scrollRun (events ++ [(m, ev)]) <= m)%Z) /\
  (forall totalLines viewportHeight,
     scrollWindow totalLines viewportHeight (scrollRun events)
     = windowSpec totalLines viewportHeight (scrollRun events)).
Proof.
  intros H. pose proof (scrollRun_nonneg events H) as Hn.
  split; [exact Hn|]. split.
  - intros m ev Hm Hev. unfold scrollRun in *. rewrite fold_left_app.
    cbn [fold_left fst snd].
    set (x := fold_left _ events 0%Z) in *. clearbody x.
    destruct ev; unfold scrollStep; try lia. congruence.
  - intros totalLines viewportHeight.
    unfold scrollWindow, windowSpec, clamp.
    replace (Z.max 0 (Z.min (Z.max 0 (totalLines - viewportHeight))
                            (scrollRun events)))
      with (Z.min (scrollRun events) (Z.max 0 (totalLines - viewportHeight)))
      by lia.
    reflexivity.
Qed.

Lemma X3_scroll_offset_range_witness :
  (0 <= scrollRun [(40, Wheel 3); (40, PageUp); (5, ArrowDown);
                   (5, PageDown); (0, Wheel (-7))])%Z.
Proof.
  apply (fun H => proj1 (X3_scroll_offset_range
           [(40, Wheel 3); (40, PageUp); (5, ArrowDown);
            (5, PageDown); (0, Wheel (-7))]%Z H)).
  repeat constructor; simpl; lia.
Defined.

Lemma sliceIndex_range n i :
  (0 <= i <= n)%Z -> sliceIndex n i = i.
Proof.
  intros H. unfold sliceIndex. destruct (Z.ltb_spec i 0); lia.
Qed.

Lemma jsSlice_range {A : Type} (a b : Z) (l : list A) :
  (0 <= a <= b)%Z -> (b <= Z.of_nat (length l))%Z ->
  Z.of_nat (length (jsSlice a b l)) = (b - a)%Z /\
  l = firstn (Z.to_nat a) l ++ jsSlice a b l ++ skipn (Z.to_nat b) l.
Proof.
  intros Hab Hb. unfold jsSlice.
  rewrite !sliceIndex_range by lia. split.
  - rewrite length_firstn, length_skipn. lia.
  - rewrite <- (firstn_skipn (Z.to_nat a) l) at 1. f_equal.
    rewrite <- (firstn_skipn (Z.to_nat (b - a)) (skipn (Z.to_nat a) l)) at 1.
    f_equal. rewrite skipn_skipn. f_equal. lia.
Qed.

Lemma jsSlice_all {A : Type} (h : Z) (l : list A) :
  (Z.of_nat (length l) <= h)%Z -> jsSlice 0 h l = l.
Proof.
  intros H. unfold jsSlice, sliceIndex. cbn [Z.ltb Z.compare].
  destruct (Z.ltb_spec h 0); [lia|].
  replace (Z.min 0 (Z.of_nat (length l))) with 0%Z by lia.
  cbn [Z.to_nat skipn]. apply firstn_all2. lia.
Qed.

(** X4: for a viewport height and a scroll offset that are not
    negative, the panel paints a run of consecutive lines, as many as
    fit ([min(totalLines, viewportHeight)]), and the number of lines
    below the run is [min(offset, maxScroll)]: offset [0] shows the last
    lines, and every step of the offset up to [maxScroll] moves the run
    one line up. *)
Theorem X4_visible_slice {A : Type} (renderLines : list A)
    (viewportHeight scrollOffset : Z) :
  (0 <= viewportHeight)%Z -> (0 <= scrollOffset)%Z ->
  let totalLines := Z.of_nat (length renderLines) in
  let shown := linesToRender renderLines viewportHeight scrollOffset in
  Z.of_nat (length shown) = Z.min totalLines viewportHeight /\
  exists above below,
    renderLines = above ++ shown ++ below /\
    Z.of_nat (length below)
    = Z.min scrollOffset (Z.max 0 (totalLines - viewportHeight)).
Proof.
  intros Hh Ho totalLines shown. subst shown. unfold linesToRender.
  fold totalLines.
  set (w := scrollWindow totalLines viewportHeight scrollOffset).
  assert (Hs : (0 <= startIdx w <= endIdx w)%Z)
    by (subst w; unfold scrollWindow; cbn [startIdx endIdx]; lia).
  assert (He : (endIdx w <= totalLines)%Z)
    by (subst w; unfold scrollWindow; cbn [startIdx endIdx]; lia).
  assert (Hd : (endIdx w - startIdx w = Z.min totalLines viewportHeight)%Z)
    by (subst w; unfold scrollWindow; cbn [startIdx endIdx]; lia).
  assert (Hb : (totalLines - endIdx w
                = Z.min scrollOffset (Z.max 0 (totalLines - viewportHeight)))%Z)
    by (subst w; unfold scrollWindow; cbn [startIdx endIdx]; lia).
  destruct (jsSlice_range (startIdx w) (endIdx w) renderLines Hs He)
    as [Hl Hsplit].
  rewrite jsSlice_all by lia.
  split; [lia|].
  exists (firstn (Z.to_nat (startIdx w)) renderLines),
         (skipn (Z.to_nat (endIdx w)) renderLines).
  split; [exact Hsplit|]. rewrite length_skipn. lia.
Qed.

Lemma X4_visible_slice_witness :
  Z.of_nat (length (linesToRender (seq 0 50) 10 3)) = Z.min 50 10.
Proof.
  apply (X4_visible_slice (seq 0 50) 10 3); lia.
Defined.

(** X5: the input test paints a full viewport for every scroll offset,
    negative or too large: [lines.slice(start, start + viewHeight)] with
    [start = clamp(scrollOffset, 0, maxScroll)] has
    [min(lines.length, viewHeight)] lines, and [start] lies in
    [0..maxScroll]. *)
Theorem X5_ink_viewport {A : Type} (lines : list A)
    (viewHeight scrollOffset : Z) :
  (0 <= viewHeight)%Z ->
  let maxScroll := Z.max 0 (Z.of_nat (length lines) - viewHeight) in
  (0 <= clamp scrollOffset 0 maxScroll <= maxScroll)%Z /\
  Z.of_nat (length (inkVisible lines viewHeight scrollOffset))
  = Z.min (Z.of_nat (length lines)) viewHeight.
Proof.
  intros Hh maxScroll. split; [unfold clamp; lia|].
  unfold inkVisible. fold maxScroll.
  set (start := clamp scrollOffset 0 maxScroll).
  assert (Hs : (0 <= start <= maxScroll)%Z) by (subst start; unfold clamp; lia).
  unfold jsSlice, sliceIndex.
  destruct (Z.ltb_spec start 0); [lia|].
  destruct (Z.ltb_spec (start + viewHeight) 0); [lia|].
  rewrite length_firstn, length_skipn. lia.
Qed.

Lemma X5_ink_viewport_witness :
  Z.of_nat (length (inkVisible (seq 0 200) 18 (-4))) = Z.min 200 18.
Proof.
  apply (X5_ink_viewport (seq 0 200) 18 (-4)). lia.
Defined.

(** ** The log *)

Lemma appendLog_last prev line :
  appendLog prev line
  = skipn (length (prev ++ [line]) - 200) (prev ++ [line]).
Proof.
  unfold appendLog.
  destruct (Nat.ltb_spec 200 (length (prev ++ [line]))) as [H|H];
    [reflexivity|].
  replace (length (prev ++ [line]) - 200) with 0 by lia. reflexivity.
Qed.

(** Keeping the last [k] of the last [k] of [a] followed by [b] keeps
    the last [k] of [a ++ b]. *)
Lemma lastN_app {A : Type} k (a b : list A) :
  skipn (length (skipn (length a - k) a ++ b) - k) (skipn (length a - k) a ++ b)
  = skipn (length (a ++ b) - k) (a ++ b).
Proof.
  destruct (Nat.le_gt_cases (length a) k) as [H|H].
  - replace (length a - k) with 0 by lia. reflexivity.
  - rewrite !length_app, length_skipn.
    replace (length a - (length a - k) + length b - k) with (length b) by lia.
    replace (length a + length b - k) with (length b + (length a - k)) by lia.
    rewrite <- skipn_skipn. f_equal.
    rewrite skipn_app.
    replace (length a - k - length a) with 0 by lia. reflexivity.
Qed.

(** X6: the log holds exactly the last 200 of the lines appended to it
    (all of them while there are at most 200), in order; it never holds
    more than 200 lines. *)
Theorem X6_log_keeps_last_200 (lines : list jstring) :
  fold_left appendLog lines [] = skipn (length lines - 200) lines /\
  length (fold_left appendLog lines []) <= 200.
Proof.
  assert (G : forall prev,
            fold_left appendLog lines (skipn (length prev - 200) prev)
            = skipn (length (prev ++ lines) - 200) (prev ++ lines)).
  { induction lines as [|line rest IH]; intros prev; cbn [fold_left].
    - now rewrite app_nil_r.
    - rewrite appendLog_last, lastN_app, IH, <- app_assoc. reflexivity. }
  specialize (G []). cbn [length Nat.sub skipn app] in G.
  rewrite G. split; [reflexivity|]. rewrite length_skipn. lia.
Qed.

(** ** [truncateText] and [shortenId] *)

(** X7: [truncateText] never returns more than [max(0, maxWidth)] code
    units; a text that fits a positive width is returned as it is, a
    longer one is cut to exactly [maxWidth] code units; truncating
    twice is truncating once. *)
Theorem X7_truncateText (text : jstring) (maxWidth : Z) :
  (len (truncateText text maxWidth) <= Z.max 0 maxWidth)%Z /\
  ((0 < maxWidth)%Z -> (len text <= maxWidth)%Z ->
   truncateText text maxWidth = text) /\
  ((0 < maxWidth < len text)%Z ->
   len (truncateText text maxWidth) = maxWidth) /\
  truncateText (truncateText text maxWidth) maxWidth
  = truncateText text maxWidth.
Proof.
  assert (Hfit : (0 < maxWidth)%Z -> (len text <= maxWidth)%Z ->
                 truncateText text maxWidth = text).
  { intros H1 H2. unfold truncateText.
    destruct (Z.leb_spec maxWidth 0); [lia|].
    destruct (Z.leb_spec (len text) maxWidth); [reflexivity | lia]. }
  assert (Hcut : (0 < maxWidth < len text)%Z ->
                 len (truncateText text maxWidth) = maxWidth).
  { intros H. unfold truncateText.
    destruct (Z.leb_spec maxWidth 0); [lia|].
    destruct (Z.leb_spec (len text) maxWidth); [lia|].
    unfold len in *.
    destruct (Z.leb_spec maxWidth 3).
    - rewrite length_firstn. lia.
    - rewrite length_app, length_firstn. simpl. lia. }
  assert (Hlen : (len (truncateText text maxWidth) <= Z.max 0 maxWidth)%Z).
  { destruct (Z.leb_spec maxWidth 0) as [H|H].
    - unfold truncateText. destruct (Z.leb_spec maxWidth 0); [|lia].
      unfold len. simpl. lia.
    - destruct (Z.leb_spec (len text) maxWidth).
      + rewrite Hfit; lia.
      + rewrite Hcut; lia. }
  repeat split; auto.
  destruct (Z.leb_spec maxWidth 0) as [H|H].
  - unfold truncateText. destruct (Z.leb_spec maxWidth 0); [reflexivity | lia].
  - unfold truncateText at 1.
    destruct (Z.leb_spec maxWidth 0); [lia|].
    destruct (Z.leb_spec (len (truncateText text maxWidth)) maxWidth);
      [reflexivity | lia].
Qed.

Lemma X7_truncateText_witness :
  len (truncateText (js "Eliza Polymarket | USDC: -- | Idle") 20) = 20%Z.
Proof.
  apply (proj1 (proj2 (proj2
           (X7_truncateText (js "Eliza Polymarket | USDC: -- | Idle") 20)))).
  vm_compute. split; reflexivity.
Defined.



(** ** Whitespace and [sanitizeLine] *)

Lemma skipWhile_split p s :
  exists run, s = run ++ skipWhile p s /\ forallb p run = true.
Proof.
  induction s as [|c t (run & Ht & Hr)]; simpl.
  - now exists [].
  - destruct (p c) eqn:E.
    + exists (c :: run). simpl. rewrite E, Hr. split; [congruence | reflexivity].
    + now exists [].
Qed.

Lemma skipWhile_head p s c t : skipWhile p s = c :: t -> p c = false.
Proof.
  induction s as [|x s IH]; simpl; [discriminate|].
  destruct (p x) eqn:E; [exact IH|]. intros [= <- _]. exact E.
Qed.

Lemma skipWhile_all p s : forallb p s = true -> skipWhile p s = [].
Proof.
  induction s as [|c t IH]; simpl; [reflexivity|].
  destruct (p c); [exact IH | discriminate].
Qed.

(** [trimEnd] removes a run of whitespace from the end. *)
Lemma trimEnd_split s :
  exists ws, s = trimEnd s ++ ws /\ forallb jsWhite ws = true.
Proof.
  unfold trimEnd.
  destruct (skipWhile_split jsWhite (rev s)) as (run & Hs & Hr).
  exists (rev run). split.
  - rewrite <- (rev_involutive s), Hs at 1. now rewrite rev_app_distr.
  - rewrite forallb_forall in *. intros c Hc. apply Hr. now apply in_rev.
Qed.

Lemma trimEnd_last s a c : trimEnd s = a ++ [c] -> jsWhite c = false.
Proof.
  unfold trimEnd. intros H.
  apply (f_equal (@rev char)) in H.
  rewrite rev_involutive, rev_app_distr in H. cbn [rev app] in H.
  now apply skipWhile_head in H.
Qed.

(** What [trimEnd] returns for a text that ends in a visible code unit
    followed by whitespace. *)
Lemma trimEnd_app a c ws :
  jsWhite c = false -> forallb jsWhite ws = true ->
  trimEnd ((a ++ [c]) ++ ws) = a ++ [c].
Proof.
  intros Hc Hw. unfold trimEnd.
  rewrite !rev_app_distr. cbn [rev app].
  assert (forall w rest, forallb jsWhite w = true ->
            skipWhile jsWhite (w ++ c :: rest) = c :: rest) as G.
  { induction w as [|x w IH]; intros rest H; simpl.
    - now rewrite Hc.
    - simpl in H. apply andb_true_iff in H. destruct H as [Hx H].
      rewrite Hx. now apply IH. }
  rewrite G.
  - cbn [rev]. now rewrite rev_involutive.
  - rewrite forallb_forall in *. intros x Hx. apply Hw. now apply in_rev.
Qed.

Lemma replaceFrom_length r skip : forall s,
  length (replaceFrom r [] skip s) <= length s.
Proof.
  intros s. revert skip.
  induction s as [|c t IH]; intros skip; simpl.
  - destruct skip; [destruct (matchAt r [])|]; simpl; lia.
  - destruct skip as [|k]; [|specialize (IH k); lia].
    destruct (matchLen r (c :: t)) as [[|k]|]; simpl;
      [specialize (IH 0) | specialize (IH k) | specialize (IH 0)]; lia.
Qed.

Lemma replaceAll_class_length p c s :
  length (replaceAll (Cls p) [c] s) = length s.
Proof.
  rewrite replaceAll_class.
  induction s as [|x s IH]; simpl; [reflexivity|].
  destruct (p x); simpl; now rewrite IH.
Qed.

(** A sanitized line contains no line break. *)
Lemma sanitizeLine_no_break text :
  Forall (fun c => c <> LF /\ c <> CR) (sanitizeLine text).
Proof.
  unfold sanitizeLine.
  set (s1 := replaceAll (Lit CR) (js " ") text).
  set (s2 := replaceAll (Lit LF) (js " ") s1).
  set (s3 := replaceAll reAnsi [] s2).
  assert (H1 : Forall (fun c => c <> CR) s1).
  { subst s1. unfold Lit. rewrite replaceAll_class.
    apply Forall_flat_map, Forall_forall. intros c _.
    destruct (N.eqb_spec CR c); repeat constructor; auto. discriminate. }
  assert (H2 : Forall (fun c => c <> LF /\ c <> CR) s2).
  { subst s2. unfold Lit. rewrite replaceAll_class.
    apply Forall_flat_map. revert H1. apply Forall_impl. intros c Hc.
    destruct (N.eqb_spec LF c); repeat constructor; auto; discriminate. }
  assert (H3 : Forall (fun c => c <> LF /\ c <> CR) s3)
    by (subst s3; now apply replaceAll_Forall).
  destruct (trimEnd_split s3) as (ws & Hs & _).
  rewrite Hs in H3. now apply Forall_app in H3.
Qed.

Lemma sanitizeLine_length text : length (sanitizeLine text) <= length text.
Proof.
  unfold sanitizeLine.
  set (s1 := replaceAll (Lit CR) (js " ") text).
  set (s2 := replaceAll (Lit LF) (js " ") s1).
  set (s3 := replaceAll reAnsi [] s2).
  destruct (trimEnd_split s3) as (ws & Hs & _).
  assert (length (trimEnd s3) <= length s3)
    by (rewrite Hs at 2; rewrite length_app; lia).
  assert (length s3 <= length s2) by apply replaceFrom_length.
  assert (length s2 = length s1) by apply replaceAll_class_length.
  assert (length s1 = length text) by apply replaceAll_class_length.
  lia.
Qed.

(** X9: a sanitized line is one display line: it contains no line feed
    and no carriage return, it does not end in whitespace, and it is not
    longer than the text it was made from. *)
Theorem X9_sanitizeLine (text : jstring) :
  Forall (fun c => c <> LF /\ c <> CR) (sanitizeLine text) /\
  (forall a c, sanitizeLine text = a ++ [c] -> jsWhite c = false) /\
  length (sanitizeLine text) <= length text.
Proof.
  split; [|split].
  - apply sanitizeLine_no_break.
  - intros a c. unfold sanitizeLine. apply trimEnd_last.
  - apply sanitizeLine_length.
Qed.

Lemma X9_sanitizeLine_witness :
  jsWhite (ch "k") = false.
Proof.
  apply (proj1 (proj2 (X9_sanitizeLine (ESC :: js "[1mok  ")))
               (js "o") (ch "k")).
  vm_compute. reflexivity.
Defined.

(** ** Card border and divider lines *)

Lemma starK_end p : forall s caps,
  starK p s (fun s' => match s' with
                       | [] => Some (caps, s')
                       | _ :: _ => None
                       end)
  = if forallb p s then Some (caps, []) else None.
Proof.
  induction s as [|c t IH]; intros caps; simpl; [reflexivity|].
  destruct (p c); simpl; [|reflexivity].
  rewrite IH. destruct (forallb p t); reflexivity.
Qed.

(** [/^c+$/] matches the texts made of one or more [c]. *)
Lemma testWhole_plus p s :
  testWhole (Plus p) s = (0 <? length s) && forallb p s.
Proof.
  unfold testWhole, Plus. cbn [mt].
  destruct s as [|c t]; [reflexivity|]. cbn [length forallb Nat.ltb Nat.leb].
  destruct (p c); [|reflexivity]. cbn [andb].
  rewrite starK_end. destruct (forallb p t); reflexivity.
Qed.

Lemma forallb_eqb_repeat c s :
  forallb (N.eqb c) s = true -> s = repeat c (length s).
Proof.
  induction s as [|x s IH]; simpl; [reflexivity|].
  intros H. apply andb_true_iff in H. destruct H as [Hx H].
  apply N.eqb_eq in Hx. subst x. f_equal. now apply IH.
Qed.

Lemma forallb_eqb_repeat_true c n : forallb (N.eqb c) (repeat c n) = true.
Proof. induction n; simpl; [reflexivity|]. now rewrite N.eqb_refl. Qed.

(** The lines a card test accepts, for a fill character that is not
    whitespace. *)
Lemma cardLine_iff c line :
  jsWhite c = false ->
  (0 <? length (trimEnd line)) && testWhole (Plus (N.eqb c)) (trimEnd line)
  = true <->
  exists n ws, line = repeat c (S n) ++ ws /\ forallb jsWhite ws = true.
Proof.
  intros Hc. rewrite testWhole_plus. split.
  - intros H. apply andb_true_iff in H. destruct H as [_ H].
    apply andb_true_iff in H. destruct H as [Hn Hall].
    destruct (trimEnd_split line) as (ws & Hs & Hw).
    apply forallb_eqb_repeat in Hall.
    destruct (length (trimEnd line)) as [|n] eqn:El; [discriminate|].
    exists n, ws. split; [|exact Hw].
    transitivity (trimEnd line ++ ws); [exact Hs|]. f_equal.
    rewrite Hall. f_equal. exact El.
  - intros (n & ws & -> & Hw).
    assert (E : repeat c (S n) = repeat c n ++ [c]).
    { clear. induction n as [|n IH]; [reflexivity|].
      cbn [repeat app] in *. now rewrite <- IH. }
    rewrite E, (trimEnd_app _ _ _ Hc Hw), <- E.
    cbn [length repeat Nat.ltb Nat.leb andb forallb].
    now rewrite N.eqb_refl, forallb_eqb_repeat_true.
Qed.

(** X10: [isCardBorderLine] accepts exactly the lines made of one or
    more ['-'] followed by any whitespace, [isCardDividerLine] exactly
    those made of one or more ['='] followed by any whitespace; no line
    is both. *)
Theorem X10_card_lines (line : jstring) :
  (isCardBorderLine line = true <->
   exists n ws, line = repeat (ch "-") (S n) ++ ws /\
                forallb jsWhite ws = true) /\
  (isCardDividerLine line = true <->
   exists n ws, line = repeat (ch "=") (S n) ++ ws /\
                forallb jsWhite ws = true) /\
  (isCardBorderLine line && isCardDividerLine line = false).
Proof.
  split; [apply cardLine_iff; reflexivity|].
  split; [apply cardLine_iff; reflexivity|].
  destruct (isCardBorderLine line) eqn:Eb; [|reflexivity].
  destruct (isCardDividerLine line) eqn:Ed; [|reflexivity].
  exfalso.
  apply (cardLine_iff (ch "-")) in Eb; [|reflexivity].
  apply (cardLine_iff (ch "=")) in Ed; [|reflexivity].
  destruct Eb as (n & ws & -> & _). destruct Ed as (m & ws' & E & _).
  cbn [repeat app] in E. discriminate E.
Qed.

Lemma X10_card_lines_witness : isCardBorderLine (js "------------  ") = true.
Proof.
  apply (proj2 (proj1 (X10_card_lines (js "------------  ")))).
  exists 11, (js "  "). split; reflexivity.
Defined.

(** ** [wrapCardLines] and the sidebar card *)







(** ** [wrapText]: what it keeps *)

Lemma split_no_sep sep s :
  Forall (fun c => c <> sep) s -> split sep s = [s].
Proof.
  induction 1 as [|c t Hc _ IH]; simpl; [reflexivity|].
  destruct (N.eqb_spec c sep); [contradiction|]. now rewrite IH.
Qed.

(** X12: on a text without a line feed, for [maxWidth >= 1],
    [wrapText] and [wrapCardLines] return the same lines. *)
Theorem X12_wrappers_agree (text : jstring) (maxWidth : Z) :
  (1 <= maxWidth)%Z -> Forall (fun c => c <> LF) text ->
  wrapText text maxWidth = wrapCardLines text maxWidth.
Proof.
  intros Hw Hlf. unfold wrapText, wrapCardLines.
  destruct (Z.leb_spec maxWidth 0); [lia|].
  rewrite (split_no_sep LF text Hlf). cbn [fold_left].
  unfold paragraphStep.
  destruct (Z.leb_spec (len text) maxWidth); [reflexivity|].
  cbn [app]. destruct (fold_left _ _ _) as [lines current]. reflexivity.
Qed.

Lemma X12_wrappers_agree_witness :
  wrapText (js "Will it rain tomorrow in Paris?") 12
  = wrapCardLines (js "Will it rain tomorrow in Paris?") 12.
Proof.
  apply (X12_wrappers_agree (js "Will it rain tomorrow in Paris?") 12).
  - lia.
  - repeat constructor; discriminate.
Defined.

Section Kept.
Variable keep : char -> bool.

Lemma filter_concat_split sep s :
  keep sep = false ->
  filter keep (concat (split sep s)) = filter keep s.
Proof.
  intros Hk. induction s as [|c t IH]; [reflexivity|].
  cbn [split]. destruct (N.eqb_spec c sep) as [->|Hc].
  - cbn [concat app filter]. now rewrite Hk.
  - pose proof (split_nonempty sep t) as Hne.
    destruct (split sep t) as [|w ws]; [contradiction|].
    cbn [concat app filter] in *. now rewrite IH.
Qed.

(** The hard split loses nothing. *)
Lemma hardSplit_concat fuel maxWidth : forall lines remaining,
  concat (fst (hardSplit fuel maxWidth lines remaining))
  ++ snd (hardSplit fuel maxWidth lines remaining)
  = concat lines ++ remaining.
Proof.
  induction fuel as [|fuel IH]; intros lines remaining; cbn [hardSplit];
    [reflexivity|].
  destruct (maxWidth <? len remaining)%Z; [|reflexivity].
  rewrite IH, concat_app. cbn [concat]. rewrite app_nil_r, <- app_assoc.
  now rewrite firstn_skipn.
Qed.

Hypothesis keep_space : keep (ch " ") = false.

Lemma wordStep_kept maxWidth st word :
  filter keep (concat (fst (wordStep maxWidth st word))
               ++ snd (wordStep maxWidth st word))
  = filter keep (concat (fst st) ++ snd st ++ word).
Proof.
  destruct st as [lines current]. cbn [fst snd]. unfold wordStep.
  destruct (Nat.ltb_spec 0 (length current)) as [Hc|Hc].
  - destruct (_ <=? _)%Z.
    + cbn [fst snd]. rewrite !filter_app. cbn [js list_ascii_of_string map filter].
      now rewrite keep_space.
    + destruct (_ <? _)%Z.
      * rewrite hardSplit_concat, concat_app. cbn [concat].
        now rewrite app_nil_r, <- app_assoc.
      * cbn [fst snd]. rewrite concat_app. cbn [concat].
        now rewrite app_nil_r, <- app_assoc.
  - destruct current; [|simpl in Hc; lia].
    destruct (_ <=? _)%Z; [reflexivity|].
    destruct (_ <? _)%Z; [|reflexivity].
    now rewrite hardSplit_concat.
Qed.

Lemma words_kept maxWidth words : forall st,
  filter keep (concat (fst (fold_left (wordStep maxWidth) words st))
               ++ snd (fold_left (wordStep maxWidth) words st))
  = filter keep (concat (fst st) ++ snd st ++ concat words).
Proof.
  induction words as [|w ws IH]; intros st; cbn [fold_left concat].
  - now rewrite app_nil_r.
  - rewrite IH. rewrite !app_assoc, !filter_app.
    f_equal. rewrite <- !filter_app, <- app_assoc. apply wordStep_kept.
Qed.

Lemma paragraphStep_kept maxWidth lines paragraph :
  filter keep (concat (paragraphStep maxWidth lines paragraph))
  = filter keep (concat lines ++ paragraph).
Proof.
  unfold paragraphStep. destruct (_ <=? _)%Z.
  - rewrite concat_app. cbn [concat]. now rewrite app_nil_r.
  - pose proof (words_kept maxWidth (split (ch " ") paragraph) (lines, []))
      as H.
    destruct (fold_left _ _ _) as [lines' current]. cbn [fst snd app] in H.
    rewrite (filter_app keep (concat lines)) in H.
    rewrite (filter_concat_split _ _ keep_space), <- filter_app in H.
    rewrite <- H.
    destruct (Nat.ltb_spec 0 (length current)) as [Hc|Hc].
    + rewrite concat_app. cbn [concat]. now rewrite app_nil_r.
    + destruct current; [|simpl in Hc; lia]. now rewrite app_nil_r.
Qed.

Hypothesis keep_LF : keep LF = false.

Lemma wrapText_kept text maxWidth :
  filter keep (concat (wrapText text maxWidth)) = filter keep text.
Proof.
  unfold wrapText. destruct (_ <=? _)%Z.
  - cbn [concat]. now rewrite app_nil_r.
  - assert (G : forall ps lines,
              filter keep (concat (fold_left (paragraphStep maxWidth) ps lines))
              = filter keep (concat lines ++ concat ps)).
    { induction ps as [|p ps IH]; intros lines; cbn [fold_left concat].
      - now rewrite app_nil_r.
      - rewrite IH, !filter_app, paragraphStep_kept, filter_app.
        now rewrite app_assoc. }
    specialize (G (split LF text) []). cbn [concat app] in G.
    rewrite (filter_concat_split _ _ keep_LF) in G.
    destruct (fold_left _ _ _) as [|l ls]; [|exact G].
    cbn [length Nat.ltb Nat.leb concat app]. exact G.
Qed.
End Kept.

(** X13: [wrapText] neither loses, adds nor reorders a code unit other
    than spaces and line feeds: the lines it returns, read in order,
    contain exactly the non-blank code units of the text in their
    order, for every width. *)
Theorem X13_wrapText_keeps_text (text : jstring) (maxWidth : Z) :
  filter visibleUnit (concat (wrapText text maxWidth))
  = filter visibleUnit text.
Proof.
  apply wrapText_kept; reflexivity.
Qed.

(** ** The body of the sidebar *)

(** X14: for every panel width, the body lines of the sidebar fit its
    content width [max(10, width - 2)] in the logs view, while loading,
    and in the account view (the markets view shows its content
    unwrapped); and there is always at least one body line. *)
Theorem X14_sidebar_body_fits (view : SidebarView) (content : jstring)
    (loading : bool) (logLines : list jstring) (width : Z) :
  let contentWidth := panelContentWidth width in
  let bodyLines :=
    getSidebarBodyLines view content loading logLines contentWidth in
  bodyLines <> [] /\
  (view <> markets \/ loading = true ->
   Forall (fun line => (len line <= contentWidth)%Z) bodyLines).
Proof.
  intros contentWidth bodyLines.
  assert (Hw : (1 <= contentWidth)%Z)
    by (subst contentWidth; unfold panelContentWidth; lia).
  assert (Hne : forall t, wrapText t contentWidth <> []).
  { intros t. unfold wrapText. destruct (_ <=? _)%Z; [discriminate|].
    destruct (fold_left _ _ _); simpl; discriminate. }
  subst bodyLines. unfold getSidebarBodyLines. split.
  - destruct view.
    + destruct loading; [apply Hne|]. apply Hne.
    + destruct loading; [apply Hne|]. apply split_nonempty.
    + destruct (0 <? length logLines) eqn:E.
      * destruct logLines as [|l ls]; [discriminate|]. cbn [flat_map].
        specialize (Hne l). destruct (wrapText l contentWidth);
          [contradiction | discriminate].
      * cbn [flat_map]. rewrite app_nil_r. apply Hne.
  - intros Hv. destruct view.
    + destruct loading; now apply wrapText_fits.
    + destruct loading; [now apply wrapText_fits|].
      destruct Hv; [congruence | discriminate].
    + apply Forall_flat_map, Forall_forall. intros l _.
      now apply wrapText_fits.
Qed.

Lemma X14_sidebar_body_fits_witness :
  Forall (fun line => (len line <= panelContentWidth 30)%Z)
         (getSidebarBodyLines logs (js "") false
            [js "INFO: fetched 12 markets from the gamma endpoint"]
            (panelContentWidth 30)).
Proof.
  apply (proj2 (X14_sidebar_body_fits logs (js "") false
                  [js "INFO: fetched 12 markets from the gamma endpoint"] 30)).
  left. discriminate.
Defined.

(** ** The input field *)

Lemma mt_minLen r : forall s caps k x,
  mt r s caps k = Some x ->
  exists s' caps', k s' caps' = Some x /\ length s' + minLen r <= length s.
Proof.
  induction r as [p | r1 IH1 r2 IH2 | r1 IH1 r2 IH2 | r1 IH1 | p | r1 IH1];
    intros s caps k x H; cbn [mt minLen] in *.
  - destruct s as [|c t]; [discriminate|].
    destruct (p c); [|discriminate].
    exists t, caps. split; [exact H | simpl; lia].
  - destruct (IH1 _ _ _ _ H) as (s1 & caps1 & H1 & L1).
    destruct (IH2 _ _ _ _ H1) as (s2 & caps2 & H2 & L2).
    exists s2, caps2. split; [exact H2 | lia].
  - destruct (mt r1 s caps k) as [y|] eqn:E1.
    + inversion H; subst y.
      destruct (IH1 _ _ _ _ E1) as (s1 & caps1 & H1 & L1).
      exists s1, caps1. split; [exact H1 | lia].
    + destruct (IH2 _ _ _ _ H) as (s2 & caps2 & H2 & L2).
      exists s2, caps2. split; [exact H2 | lia].
  - destruct (mt r1 s caps k) as [y|] eqn:E1.
    + inversion H; subst y.
      destruct (IH1 _ _ _ _ E1) as (s1 & caps1 & H1 & L1).
      exists s1, caps1. split; [exact H1 | lia].
    + exists s, caps. split; [exact H | lia].
  - destruct (starK_consumes _ _ _ _ H) as (m & s' & -> & _ & Hk).
    exists s', caps. split; [exact Hk | rewrite length_app; lia].
  - destruct (IH1 _ _ _ _ H) as (s1 & caps1 & H1 & L1).
    eexists s1, _. split; [exact H1 | lia].
Qed.

(** A match is at least [minLen r] code units long. *)
Lemma matchLen_minLen r s n : matchLen r s = Some n -> minLen r <= n.
Proof.
  unfold matchLen, matchAt. intros H.
  destruct (mt r s [] _) as [[caps rest]|] eqn:E; [|discriminate].
  inversion H; subst n.
  destruct (mt_minLen _ _ _ _ _ E) as (s' & caps' & Hk & L).
  inversion Hk; subst. lia.
Qed.

Lemma starK_some p k : (forall s', k s' <> None) -> forall s, starK p s k <> None.
Proof.
  intros Hk. induction s as [|c t IH]; simpl; [apply Hk|].
  destruct (p c); [|apply Hk].
  destruct (starK p t k); [discriminate | apply Hk].
Qed.

(** At a line feed a run of the pattern is always found. *)
Lemma reNewlineRun_at_LF t :
  exists k, matchLen reNewlineRun (LF :: t) = Some (S k).
Proof.
  destruct (matchLen reNewlineRun (LF :: t)) as [n|] eqn:E.
  - apply matchLen_minLen in E as L. cbn in L.
    destruct n; [lia|]. now exists n.
  - exfalso. unfold matchLen, matchAt, reNewlineRun in E.
    cbn [mt] in E.
    destruct (starK jsWhite (LF :: t) _) as [[caps rest]|] eqn:Es;
      [discriminate|].
    cbn [starK] in Es. change (jsWhite LF) with true in Es.
    destruct (starK jsWhite t _) as [y|]; [discriminate|].
    unfold Lit in Es. cbn [mt] in Es. rewrite N.eqb_refl in Es.
    revert Es. apply starK_some. discriminate.
Qed.

(** What a replacement copies from its input are code units where no
    match of one or more code units starts. *)
Lemma replaceFrom_copied r rep (P : char -> Prop) :
  Forall P rep ->
  (forall c t, (forall k, matchLen r (c :: t) <> Some (S k)) -> P c) ->
  forall s skip, Forall P (replaceFrom r rep skip s).
Proof.
  intros Hrep HP. induction s as [|c t IH]; intros skip; simpl.
  - destruct skip; [destruct (matchAt r [])|]; auto.
  - destruct skip as [|k]; [|apply IH].
    destruct (matchLen r (c :: t)) as [[|k]|] eqn:E.
    + apply Forall_app; split; [exact Hrep|]. constructor; [|apply IH].
      apply (HP c t). intros k. rewrite E. discriminate.
    + apply Forall_app; split; [exact Hrep | apply IH].
    + constructor; [|apply IH].
      apply (HP c t). intros k. rewrite E. discriminate.
Qed.

Lemma replace_newline_runs s :
  Forall (fun c => c <> LF) (replaceAll reNewlineRun (js " ") s).
Proof.
  apply replaceFrom_copied.
  - repeat constructor. discriminate.
  - intros c t H ->. destruct (reNewlineRun_at_LF t) as [k Hk].
    now apply (H k).
Qed.

Lemma fieldUnit_clean s : Forall fieldUnit s -> Forall clean s.
Proof. apply Forall_impl. intros c (H1 & H2 & _). now split. Qed.

Lemma strip_field s : Forall fieldUnit s -> Forall fieldUnit (stripInputArtifacts s).
Proof.
  intros H. rewrite stripInputArtifacts_on_clean by now apply fieldUnit_clean.
  now do 2 apply replaceAll_Forall.
Qed.

Lemma handleInputChange_field prev value :
  Forall fieldUnit prev -> Forall fieldUnit (handleInputChange prev value).
Proof.
  intros Hp. unfold handleInputChange.
  destruct (hasMouseSequence value); [now apply strip_field|].
  pose proof (stripInputArtifacts_clean value) as Hc.
  pose proof (replace_newline_runs (stripInputArtifacts value)) as Hlf.
  assert (Hcl : Forall clean
                  (replaceAll reNewlineRun (js " ") (stripInputArtifacts value))).
  { apply replaceFrom_Forall; [|exact Hc].
    repeat constructor; discriminate. }
  rewrite Forall_forall in *. intros c Hin.
  destruct (Hcl c Hin). repeat split; auto.
Qed.

(** X15: the input field is always one clean line: after any sequence
    of changes reported by the text input (with any values), decoded
    wheel events and resets, it contains no line feed, no carriage
    return, no ESC and no other control code of the class the scrubber
    removes. *)
Theorem X15_input_single_line (events : list InputEvent) :
  Forall (fun c => c <> LF /\ c <> CR /\ c <> ESC /\ ctl c = false)
         (inputRun events).
Proof.
  enough (G : Forall fieldUnit (inputRun events)).
  { revert G. apply Forall_impl. intros c (H1 & H2 & H3).
    repeat split; auto. intros ->. discriminate. }
  unfold inputRun.
  enough (G : forall prev, Forall fieldUnit prev ->
            Forall fieldUnit (fold_left inputStep events prev))
    by (apply G; constructor).
  induction events as [|ev events IH]; intros prev Hp; cbn [fold_left];
    [exact Hp|].
  apply IH. destruct ev; cbn [inputStep].
  - now apply handleInputChange_field.
  - now apply strip_field.
  - constructor.
Qed.

(** ** [formatInput] *)

Lemma flat_map_Forall (P : char -> Prop) (f : char -> jstring) s :
  (forall c, Forall P (f c)) -> Forall P (flat_map f s).
Proof. intros H. apply Forall_flat_map, Forall_forall. intros c _. apply H. Qed.

Lemma replace_lit_Forall (P : char -> Prop) c rep s :
  Forall P rep -> Forall P s -> Forall P (replaceAll (Lit c) rep s).
Proof. apply replaceFrom_Forall. Qed.

Lemma replace_lit_gone c rep s :
  Forall (fun x => x <> c) rep -> Forall (fun x => x <> c) (replaceAll (Lit c) rep s).
Proof.
  intros Hrep. unfold Lit. rewrite replaceAll_class.
  apply flat_map_Forall. intros x.
  destruct (N.eqb_spec c x); [exact Hrep|]. repeat constructor. congruence.
Qed.

(** X16: what [formatInput] shows of a raw input contains no ESC, tab,
    carriage return or line feed (each is spelled out as a tag), and is
    at most 121 code units long. *)
Theorem X16_formatInput (value : jstring) :
  Forall (fun c => c <> ESC /\ c <> TAB /\ c <> CR /\ c <> LF)
         (formatInput value) /\
  length (formatInput value) <= 121.
Proof.
  unfold formatInput. destruct (length value =? 0); [split; [constructor | simpl; lia]|].
  set (s1 := replaceAll (Lit ESC) (js "<ESC>") value).
  set (s2 := replaceAll (Lit TAB) (js "<TAB>") s1).
  set (s3 := replaceAll (Lit CR) (js "<CR>") s2).
  set (s4 := replaceAll (Lit LF) (js "<LF>") s3).
  assert (H1 : Forall (fun c => c <> ESC) s1)
    by (apply replace_lit_gone; repeat constructor; discriminate).
  assert (H2 : Forall (fun c => c <> ESC /\ c <> TAB) s2).
  { apply Forall_and.
    - apply replace_lit_Forall; [repeat constructor; discriminate | exact H1].
    - apply replace_lit_gone; repeat constructor; discriminate. }
  assert (H3 : Forall (fun c => (c <> ESC /\ c <> TAB) /\ c <> CR) s3).
  { apply Forall_and.
    - apply replace_lit_Forall; [|exact H2].
      repeat constructor; discriminate.
    - apply replace_lit_gone; repeat constructor; discriminate. }
  assert (H4 : Forall (fun c => ((c <> ESC /\ c <> TAB) /\ c <> CR) /\ c <> LF) s4).
  { apply Forall_and.
    - apply replace_lit_Forall; [|exact H3].
      repeat constructor; discriminate.
    - apply replace_lit_gone; repeat constructor; discriminate. }
  assert (H5 : Forall (fun c => c <> ESC /\ c <> TAB /\ c <> CR /\ c <> LF) s4).
  { revert H4. apply Forall_impl. tauto. }
  destruct (Nat.ltb_spec 120 (length s4)) as [Hl|Hl].
  - split.
    + apply Forall_app; split.
      * rewrite <- (firstn_skipn 120 s4) in H5. now apply Forall_app in H5.
      * repeat constructor; discriminate.
    + rewrite length_app, length_firstn. cbn [length]. lia.
  - split; [exact H5 | lia].
Qed.

(** ** The layout *)



(** ** [toRenderLines] *)

Lemma wrapText_nonempty text maxWidth : wrapText text maxWidth <> [].
Proof.
  unfold wrapText. destruct (_ <=? _)%Z; [discriminate|].
  destruct (fold_left _ _ _); discriminate.
Qed.

Lemma mapFrom_length {A B : Type} (f : A -> nat -> B) l :
  forall n, length (mapFrom f n l) = length l.
Proof. induction l as [|x l IH]; intros n; simpl; [|rewrite IH]; reflexivity. Qed.

Lemma mapFrom_Forall {A B : Type} (P : B -> Prop) (f : A -> nat -> B) l :
  (forall x i, In x l -> P (f x i)) -> forall n, Forall P (mapFrom f n l).
Proof.
  induction l as [|x l IH]; intros H n; simpl; constructor.
  - apply H. now left.
  - apply IH. intros y i Hy. apply H. now right.
Qed.

(** The loops of [toRenderLines] append: each turn adds its lines to the
    end of [lines] and advances the index by their number. *)
Lemma pushFold {A : Type} (f : A -> nat -> RenderLine) l :
  forall lines n,
    fold_left (fun '(lines, lineIndex) line =>
                 (lines ++ [f line lineIndex], lineIndex + 1)) l (lines, n)
    = (lines ++ mapFrom f n l, n + length l).
Proof.
  induction l as [|x l IH]; intros lines n; simpl.
  - now rewrite app_nil_r, Nat.add_0_r.
  - rewrite IH, Nat.add_1_r, <- app_assoc. simpl. f_equal. lia.
Qed.

Lemma rawLineStep_eq msg maxWidth lines n rawLine :
  rawLineStep msg maxWidth (lines, n) rawLine
  = (lines ++ rawLineLines msg maxWidth n rawLine,
     n + length (rawLineLines msg maxWidth n rawLine)).
Proof.
  unfold rawLineStep, rawLineLines.
  destruct (isCardBorderLine rawLine || isCardDividerLine rawLine).
  - reflexivity.
  - rewrite mapFrom_length. exact (pushFold (bodyLine msg) _ lines n).
Qed.

Lemma contentFold_eq msg maxWidth contentLines : forall lines n,
  fold_left (rawLineStep msg maxWidth) contentLines (lines, n)
  = (lines ++ contentLinesFrom msg maxWidth n contentLines,
     n + length (contentLinesFrom msg maxWidth n contentLines)).
Proof.
  induction contentLines as [|raw rest IH]; intros lines n;
    cbn [fold_left contentLinesFrom].
  - cbn [length]. now rewrite app_nil_r, Nat.add_0_r.
  - rewrite rawLineStep_eq, IH, <- app_assoc, length_app. f_equal. lia.
Qed.

Lemma messageStep_eq formatTime maxWidth lines msg :
  messageStep formatTime maxWidth lines msg
  = lines ++ messageLines formatTime msg maxWidth.
Proof.
  unfold messageStep, messageLines.
  destruct (role msg); try reflexivity;
    rewrite contentFold_eq; cbn [fst]; now rewrite <- app_assoc.
Qed.

Lemma toRenderLines_eq formatTime messages maxWidth :
  toRenderLines formatTime messages maxWidth
  = flat_map (fun msg => messageLines formatTime msg maxWidth) messages.
Proof.
  unfold toRenderLines.
  enough (forall lines,
            fold_left (messageStep formatTime maxWidth) messages lines
            = lines ++ flat_map (fun msg => messageLines formatTime msg maxWidth)
                                messages) as H by apply H.
  induction messages as [|msg rest IH]; intros lines; simpl.
  - now rewrite app_nil_r.
  - now rewrite messageStep_eq, IH, <- app_assoc.
Qed.

(** A property of the header, of the lines of a system message, of the
    card lines and of the wrapped lines is a property of all lines. *)
Lemma messageLines_Forall (P : RenderLine -> Prop) formatTime msg maxWidth :
  P (headerLine formatTime msg) ->
  (forall line idx, In line (wrapText (content msg) maxWidth) ->
                    P (systemLine msg line idx)) ->
  (forall rawLine idx,
      In rawLine (split LF (content msg)) ->
      isCardBorderLine rawLine || isCardDividerLine rawLine = true ->
      P (cardLine msg rawLine idx)) ->
  (forall rawLine line idx,
      In rawLine (split LF (content msg)) ->
      In line (wrapText rawLine (Z.max 1 (maxWidth - len indent))) ->
      P (bodyLine msg line idx)) ->
  Forall P (messageLines formatTime msg maxWidth).
Proof.
  intros Hh Hs Hc Hb. unfold messageLines.
  assert (G : forall raws n, incl raws (split LF (content msg)) ->
                Forall P (contentLinesFrom msg maxWidth n raws)).
  { induction raws as [|raw rest IH]; intros n Hin; simpl; [constructor|].
    apply Forall_app. split.
    - unfold rawLineLines.
      destruct (isCardBorderLine raw || isCardDividerLine raw) eqn:E.
      + constructor; [|constructor]. apply Hc; [apply Hin; now left | exact E].
      + apply mapFrom_Forall. intros line i Hl.
        apply (Hb raw); [apply Hin; now left | exact Hl].
    - apply IH. intros x Hx. apply Hin. now right. }
  destruct (role msg).
  - constructor; [exact Hh | apply G, incl_refl].
  - constructor; [exact Hh | apply G, incl_refl].
  - apply mapFrom_Forall. intros line i Hl. now apply Hs.
Qed.

Lemma messageLines_min formatTime msg maxWidth :
  minLines msg <= length (messageLines formatTime msg maxWidth).
Proof.
  unfold minLines, messageLines.
  assert (G : 1 <= length (contentLinesFrom msg maxWidth 0
                             (split LF (content msg)))).
  { pose proof (split_nonempty LF (content msg)) as Hne.
    destruct (split LF (content msg)) as [|raw rest]; [congruence|].
    simpl. rewrite length_app. unfold rawLineLines.
    destruct (isCardBorderLine raw || isCardDividerLine raw); [simpl; lia|].
    rewrite mapFrom_length.
    pose proof (wrapText_nonempty raw (Z.max 1 (maxWidth - len indent))) as Hw.
    destruct (wrapText raw _); [congruence | simpl; lia]. }
  destruct (role msg); simpl; try lia.
  rewrite mapFrom_length.
  pose proof (wrapText_nonempty (content msg) maxWidth) as Hw.
  destruct (wrapText (content msg) maxWidth); [congruence | simpl; lia].
Qed.

(** X18: every line that [toRenderLines] builds is one display line (no
    line feed, no carriage return, no whitespace at its end); a system
    message gives at least one line, any other message at least two;
    and the lines of the messages follow each other in the order of the
    messages. *)
Theorem X18_render_lines (formatTime : Z -> jstring)
    (messages : list ChatMessage) (maxWidth : Z) :
  Forall (fun l =>
            Forall (fun c => c <> LF /\ c <> CR) (lineText l) /\
            (forall a c, lineText l = a ++ [c] -> jsWhite c = false))
         (toRenderLines formatTime messages maxWidth) /\
  list_sum (map minLines messages)
  <= length (toRenderLines formatTime messages maxWidth) /\
  (forall more,
      toRenderLines formatTime (messages ++ more) maxWidth
      = toRenderLines formatTime messages maxWidth
        ++ toRenderLines formatTime more maxWidth).
Proof.
  rewrite toRenderLines_eq. split; [|split].
  - apply Forall_flat_map, Forall_forall. intros msg _.
    apply messageLines_Forall; intros;
      cbn [lineText headerLine systemLine cardLine bodyLine];
      (split; [apply sanitizeLine_no_break |
               intros a c; unfold sanitizeLine; apply trimEnd_last]).
  - induction messages as [|msg rest IH]; simpl; [lia|].
    rewrite length_app.
    pose proof (messageLines_min formatTime msg maxWidth). lia.
  - intros more. now rewrite !toRenderLines_eq, flat_map_app.
Qed.

Lemma X18_render_lines_witness : jsWhite (ch "0") = false.
Proof.
  pose proof (proj1 (X18_render_lines (fun _ => js "12:00")
                       [mkMsg (js "m1") user (js "hi") 0%Z] 40%Z)) as H.
  rewrite Forall_forall in H.
  apply (proj2 (H (headerLine (fun _ => js "12:00")
                     (mkMsg (js "m1") user (js "hi") 0%Z))
                  ltac:(vm_compute; left; reflexivity))
               (js "You: 12:0") (ch "0")).
  vm_compute. reflexivity.
Defined.

(** A card line is rendered as its run of fill characters. *)
Lemma sanitizeLine_card c n ws :
  jsWhite c = false -> c <> ESC -> forallb jsWhite ws = true ->
  sanitizeLine (repeat c (S n) ++ ws) = repeat c (S n).
Proof.
  intros Hc Hesc Hws. unfold sanitizeLine, Lit.
  assert (G : forall x k w,
                jsWhite x = true -> forallb jsWhite w = true ->
                exists w', forallb jsWhite w' = true /\
                  replaceAll (Cls (N.eqb x)) (js " ") (repeat c k ++ w)
                  = repeat c k ++ w').
  { intros x k w Hx Hw.
    exists (flat_map (fun y => if N.eqb x y then js " " else [y]) w). split.
    - clear -Hw. induction w as [|y w IH]; [reflexivity|].
      simpl in Hw. apply andb_true_iff in Hw. destruct Hw as [Hy Hw].
      cbn [flat_map]. rewrite forallb_app, (IH Hw), andb_true_r.
      destruct (N.eqb x y); [reflexivity | simpl; now rewrite Hy].
    - rewrite replaceAll_class, flat_map_app. f_equal.
      induction k as [|k IH]; [reflexivity|]. cbn [repeat flat_map].
      destruct (N.eqb_spec x c) as [->|_]; [congruence|].
      now rewrite IH. }
  destruct (G CR (S n) ws eq_refl Hws) as (w1 & Hw1 & ->).
  destruct (G LF (S n) w1 eq_refl Hw1) as (w2 & Hw2 & ->).
  rewrite replaceAll_no_match.
  - change (repeat c (S n)) with (c :: repeat c n). rewrite repeat_cons.
    apply trimEnd_app; assumption.
  - apply test_literal_absent, Forall_app. split.
    + apply Forall_forall. intros x Hx. apply repeat_spec in Hx. now subst.
    + rewrite forallb_forall in Hw2. apply Forall_forall. intros x Hx ->.
      specialize (Hw2 _ Hx). discriminate.
Qed.

(** X19: for a width of 3 or more, every line that [toRenderLines]
    builds is at most [maxWidth] code units long, except the header of a
    message (the bold line) and the card lines, which are rendered as
    their run of ['-'] or ['='] whatever its length. *)
Theorem X19_render_width (formatTime : Z -> jstring)
    (messages : list ChatMessage) (maxWidth : Z) :
  (3 <= maxWidth)%Z ->
  Forall (fun l =>
            (len (lineText l) <= maxWidth)%Z \/
            bold l = Some true \/
            exists c n, (c = ch "-" \/ c = ch "=") /\
                        lineText l = repeat c (S n))
         (toRenderLines formatTime messages maxWidth).
Proof.
  intros Hw. rewrite toRenderLines_eq.
  apply Forall_flat_map, Forall_forall. intros msg _.
  apply messageLines_Forall.
  - right. left. reflexivity.
  - intros line idx Hin. left. cbn [systemLine lineText].
    pose proof (wrapText_fits maxWidth ltac:(lia) (content msg)) as Hf.
    rewrite Forall_forall in Hf. specialize (Hf _ Hin).
    pose proof (sanitizeLine_length line). unfold len in *. lia.
  - intros raw idx _ Hcard. right. right. cbn [cardLine lineText].
    apply orb_true_iff in Hcard. destruct Hcard as [H|H].
    + apply (cardLine_iff (ch "-")) in H; [|reflexivity].
      destruct H as (n & ws & -> & Hws). exists (ch "-"), n.
      split; [now left|]. apply sanitizeLine_card; [reflexivity | discriminate | exact Hws].
    + apply (cardLine_iff (ch "=")) in H; [|reflexivity].
      destruct H as (n & ws & -> & Hws). exists (ch "="), n.
      split; [now right|]. apply sanitizeLine_card; [reflexivity | discriminate | exact Hws].
  - intros raw line idx _ Hin. left. cbn [bodyLine lineText].
    pose proof (wrapText_fits (Z.max 1 (maxWidth - len indent)) ltac:(lia) raw)
      as Hf.
    rewrite Forall_forall in Hf. specialize (Hf _ Hin).
    pose proof (sanitizeLine_length (indent ++ line)) as Hl.
    rewrite length_app in Hl. change (length indent) with 2 in Hl.
    change (len indent) with 2%Z in Hf. unfold len in *. lia.
Qed.

Lemma X19_render_width_witness :
  Forall (fun l =>
            (len (lineText l) <= 12)%Z \/
            bold l = Some true \/
            exists c n, (c = ch "-" \/ c = ch "=") /\
                        lineText l = repeat c (S n))
         (toRenderLines (fun _ => js "12:00")
            [mkMsg (js "m1") assistant
                   (js "Markets that close today" ++ LF :: js "----------------")
                   0%Z] 12%Z).
Proof.
  apply (X19_render_width (fun _ => js "12:00")
           [mkMsg (js "m1") assistant
                  (js "Markets that close today" ++ LF :: js "----------------")
                  0%Z] 12%Z).
  lia.
Defined.

(** ** The keys of the rendered lines *)

Lemma js_inj a b : js a = js b -> a = b.
Proof.
  unfold js. intros H.
  rewrite <- (string_of_list_ascii_of_string a),
          <- (string_of_list_ascii_of_string b).
  f_equal. revert H.
  generalize (list_ascii_of_string a) (list_ascii_of_string b).
  induction l as [|x l IH]; intros [|y l']; simpl; try discriminate;
    [reflexivity|].
  intros [= Hxy Hl]. f_equal; [|now apply IH].
  unfold ch in Hxy.
  rewrite <- (ascii_N_embedding x), <- (ascii_N_embedding y).
  now rewrite Hxy.
Qed.

Lemma decimal_inj i j : decimal i = decimal j -> i = j.
Proof.
  unfold decimal. intros H. apply js_inj in H.
  apply Unsigned.to_uint_inj.
  assert (Some (Nat.to_uint i) = Some (Nat.to_uint j)) as [=]; [|assumption].
  rewrite <- !NilEmpty.usu. now rewrite H.
Qed.

Lemma decimal_digits n : Forall (fun c => digit c = true) (decimal n).
Proof.
  unfold decimal, js. generalize (Nat.to_uint n).
  induction u; cbn [NilEmpty.string_of_uint list_ascii_of_string map];
    constructor; solve [reflexivity | assumption].
Qed.

Lemma decimal_no_colon n : ~ In (ch ":") (decimal n).
Proof.
  intros H. pose proof (decimal_digits n) as D.
  rewrite Forall_forall in D. specialize (D _ H). discriminate.
Qed.

Lemma kindName_no_colon kind : ~ In (ch ":") (kindName kind).
Proof.
  destruct kind; vm_compute; intros H;
    repeat (destruct H as [H|H]; [discriminate|]); exact H.
Qed.

(** Two texts that agree and are cut at their last [c] agree on both
    sides of the cut. *)
Lemma app_sep_inj (c : char) : forall x y s t,
  ~ In c s -> ~ In c t -> x ++ c :: s = y ++ c :: t -> x = y /\ s = t.
Proof.
  induction x as [|a x IH]; intros [|b y] s t Hs Ht E; simpl in E.
  - injection E as ->. now split.
  - injection E as -> ->. exfalso. apply Hs, in_or_app. right. now left.
  - injection E as -> <-. exfalso. apply Ht, in_or_app. right. now left.
  - injection E as -> E. destruct (IH y s t Hs Ht E) as [-> ->]. now split.
Qed.

Lemma indexedKey_cut msgId kind idx :
  indexedKey msgId kind idx
  = (msgId ++ ch ":" :: kindName kind) ++ ch ":" :: decimal idx.
Proof. unfold indexedKey. now rewrite <- app_assoc. Qed.

Lemma indexedKey_inj a b kind kind' i j :
  indexedKey a kind i = indexedKey b kind' j -> a = b /\ i = j.
Proof.
  rewrite !indexedKey_cut. intros E.
  apply app_sep_inj in E; try apply decimal_no_colon.
  destruct E as [E D]. apply decimal_inj in D.
  apply app_sep_inj in E; try apply kindName_no_colon.
  now destruct E.
Qed.

Lemma headerKey_not_indexed a b kind j : headerKey a <> indexedKey b kind j.
Proof.
  rewrite indexedKey_cut. unfold headerKey.
  change (a ++ js ":header") with (a ++ ch ":" :: js "header"). intros E.
  apply app_sep_inj in E; try apply decimal_no_colon.
  - destruct E as [_ E]. pose proof (decimal_digits j) as D.
    rewrite <- E in D. inversion D. discriminate.
  - vm_compute. intros H.
    repeat (destruct H as [H|H]; [discriminate|]). exact H.
Qed.

(** A key names the message it was made for. *)
Lemma keyOf_id a b k : keyOf a k -> keyOf b k -> a = b.
Proof.
  intros [->|(kind & i & ->)] [E|(kind' & j & E)].
  - unfold headerKey in E. now apply app_inv_tail in E.
  - now apply headerKey_not_indexed in E.
  - symmetry in E. now apply headerKey_not_indexed in E.
  - now apply indexedKey_inj in E.
Qed.

Lemma keyedFrom_app msgId : forall a n b,
  keyedFrom msgId n a -> keyedFrom msgId (n + length a) b ->
  keyedFrom msgId n (a ++ b).
Proof.
  induction a as [|l a IH]; intros n b Ha Hb; simpl in *.
  - now rewrite Nat.add_0_r in Hb.
  - destruct Ha as [Hl Ha]. split; [exact Hl|].
    apply IH; [exact Ha|]. now rewrite <- Nat.add_succ_comm in Hb.
Qed.

Lemma keyedFrom_mapFrom {A : Type} msgId (f : A -> nat -> RenderLine) l :
  (forall x i, exists kind, key (f x i) = indexedKey msgId kind i) ->
  forall n, keyedFrom msgId n (mapFrom f n l).
Proof.
  intros H. induction l as [|x l IH]; intros n; simpl; [exact I|].
  split; [apply H | apply IH].
Qed.

Lemma keyedFrom_In msgId l : forall lines n,
  keyedFrom msgId n lines -> In l lines ->
  exists kind j, n <= j /\ key l = indexedKey msgId kind j.
Proof.
  induction lines as [|x lines IH]; intros n H Hin; [destruct Hin|].
  destruct H as [(kind & Hx) H]. destruct Hin as [->|Hin].
  - exists kind, n. now split.
  - destruct (IH _ H Hin) as (kind' & j & Hj & E).
    exists kind', j. split; [lia | exact E].
Qed.

Lemma keyedFrom_NoDup msgId : forall lines n,
  keyedFrom msgId n lines -> NoDup (map key lines).
Proof.
  induction lines as [|x lines IH]; intros n H; simpl; constructor.
  - destruct H as [(kind & Hx) H]. intros Hin.
    apply in_map_iff in Hin. destruct Hin as (l & E & Hin).
    destruct (keyedFrom_In _ _ _ _ H Hin) as (kind' & j & Hj & El).
    rewrite Hx, El in E. apply indexedKey_inj in E. lia.
  - destruct H as [_ H]. now apply (IH (S n)).
Qed.

Lemma contentLinesFrom_keyed msg maxWidth : forall contentLines n,
  keyedFrom (id msg) n (contentLinesFrom msg maxWidth n contentLines).
Proof.
  induction contentLines as [|raw rest IH]; intros n; simpl; [exact I|].
  apply keyedFrom_app; [|apply IH].
  unfold rawLineLines.
  destruct (isCardBorderLine raw || isCardDividerLine raw).
  - split; [now exists cardKey | exact I].
  - apply keyedFrom_mapFrom. intros line i. now exists bodyKey.
Qed.

(** The keys of the lines of one message differ from each other and
    name the message. *)
Lemma messageLines_keys formatTime msg maxWidth :
  NoDup (map key (messageLines formatTime msg maxWidth)) /\
  Forall (fun l => keyOf (id msg) (key l))
         (messageLines formatTime msg maxWidth).
Proof.
  assert (S : keyedFrom (id msg) 0
                (mapFrom (systemLine msg) 0 (wrapText (content msg) maxWidth)))
    by (apply keyedFrom_mapFrom; intros line i; now exists systemKey).
  pose proof (contentLinesFrom_keyed msg maxWidth
                (split LF (content msg)) 0) as C.
  assert (K : forall lines, keyedFrom (id msg) 0 lines ->
                Forall (fun l => keyOf (id msg) (key l)) lines).
  { intros lines H. apply Forall_forall. intros l Hl.
    destruct (keyedFrom_In _ _ _ _ H Hl) as (kind & j & _ & E).
    right. now exists kind, j. }
  assert (H : NoDup (map key (headerLine formatTime msg
                 :: contentLinesFrom msg maxWidth 0 (split LF (content msg))))
              /\ Forall (fun l => keyOf (id msg) (key l))
                   (headerLine formatTime msg
                    :: contentLinesFrom msg maxWidth 0
                         (split LF (content msg)))).
  { split.
    - simpl. constructor; [|exact (keyedFrom_NoDup (id msg) _ 0 C)].
      intros Hin. apply in_map_iff in Hin. destruct Hin as (l & E & Hin).
      destruct (keyedFrom_In _ _ _ _ C Hin) as (kind & j & _ & El).
      rewrite El in E. symmetry in E.
      now apply (headerKey_not_indexed (id msg)) in E.
    - constructor; [now left | now apply K]. }
  unfold messageLines. destruct (role msg); try exact H.
  split; [exact (keyedFrom_NoDup (id msg) _ 0 S) | now apply K].
Qed.

(** X20: when the messages have different ids, the lines that
    [toRenderLines] builds have different keys, whatever the ids are. *)
Theorem X20_render_keys (formatTime : Z -> jstring)
    (messages : list ChatMessage) (maxWidth : Z) :
  NoDup (map id messages) ->
  NoDup (map key (toRenderLines formatTime messages maxWidth)).
Proof.
  rewrite toRenderLines_eq.
  induction messages as [|msg rest IH]; intros Hid; simpl; [constructor|].
  inversion Hid as [|? ? Hnew Hrest]; subst.
  destruct (messageLines_keys formatTime msg maxWidth) as [Hnd Hk].
  rewrite map_app. apply NoDup_app; [exact Hnd | now apply IH |].
  intros k Hin1 Hin2.
  apply in_map_iff in Hin1. destruct Hin1 as (l1 & <- & Hl1).
  apply in_map_iff in Hin2. destruct Hin2 as (l2 & E & Hl2).
  apply in_flat_map in Hl2. destruct Hl2 as (msg' & Hmsg' & Hl2).
  rewrite Forall_forall in Hk. specialize (Hk _ Hl1).
  destruct (messageLines_keys formatTime msg' maxWidth) as [_ Hk'].
  rewrite Forall_forall in Hk'. specialize (Hk' _ Hl2). rewrite E in Hk'.
  apply Hnew. rewrite (keyOf_id _ _ _ Hk Hk').
  now apply in_map.
Qed.

Lemma X20_render_keys_witness :
  NoDup (map key
           (toRenderLines (fun _ => js "12:00")
              [mkMsg (js "m1") user (js "hi") 0%Z;
               mkMsg (js "m1:body") system (js "ready") 0%Z;
               mkMsg (js "m2") assistant (js "a" ++ LF :: js "----") 0%Z]
              40%Z)).
Proof.
  apply (X20_render_keys (fun _ => js "12:00")
           [mkMsg (js "m1") user (js "hi") 0%Z;
            mkMsg (js "m1:body") system (js "ready") 0%Z;
            mkMsg (js "m2") assistant (js "a" ++ LF :: js "----") 0%Z]
           40%Z).
  vm_compute.
  repeat (constructor;
          [intros H; repeat (destruct H as [H|H]; [discriminate|]); exact H|]).
  constructor.
Defined.

(** ** Wheel reports and [hasMouseSequence] *)

Lemma mt_plus_digits r s caps k :
  (forall c t caps', digit c = true -> mt r (c :: t) caps' k = None) ->
  mt (Plus digit ;; r) s caps k =
  match digitsThen s with
  | Some s' => mt r s' caps k
  | None => None
  end.
Proof.
  intros Hk. unfold Plus, digitsThen. cbn [mt].
  destruct s as [|c t]; [reflexivity|].
  destruct (digit c); [|reflexivity].
  apply (starK_skip digit t (fun s' => mt r s' caps k)).
  intros c' t' Hc'. now apply Hk.
Qed.

(** [\d+;\d+;\d+[mM]] with its sequence written out to the right. *)
Lemma reSgrMouse_flat s caps k :
  mt reSgrMouse s caps k
  = mt (Lit ESC ;; Lit (ch "[") ;; Lit (ch "<") ;;
        Plus digit ;; Lit (ch ";") ;; Plus digit ;; Lit (ch ";") ;;
        Plus digit ;; Cls mM)%re s caps k.
Proof. reflexivity. Qed.

Lemma wheelCode_digits c1 c2 d :
  wheelCode c1 c2 = Some d -> digit c1 = true /\ digit c2 = true.
Proof.
  unfold wheelCode.
  case_eqb; cbn [andb orb]; intros H; try discriminate H; subst;
    split; reflexivity.
Qed.

(** Where a wheel sequence starts, the pattern of an SGR mouse report
    matches. *)
Lemma matchAt_sgr_of_wheel s :
  wheelAt s <> 0%Z -> matchAt reSgrMouse s <> None.
Proof.
  intros H. unfold matchAt. rewrite reSgrMouse_flat.
  destruct s as [|e [|b [|l [|c1 [|c2 [|semi s1]]]]]];
    try (exfalso; apply H; reflexivity).
  unfold wheelAt in H.
  destruct (N.eqb_spec e ESC) as [->|]; [|exfalso; now apply H].
  destruct (N.eqb_spec b (ch "[")) as [->|]; [|exfalso; now apply H].
  destruct (N.eqb_spec l (ch "<")) as [->|]; [|exfalso; now apply H].
  destruct (N.eqb_spec semi (ch ";")) as [->|]; [|exfalso; now apply H].
  cbn [andb] in H.
  destruct (wheelCode c1 c2) as [d|] eqn:Ec; [|exfalso; now apply H].
  destruct (wheelCode_digits _ _ _ Ec) as [Hd1 Hd2].
  destruct (digitsThen s1) as [[|semi2 s2]|] eqn:E1;
    try (exfalso; now apply H).
  destruct (N.eqb_spec semi2 (ch ";")) as [->|]; [|exfalso; now apply H].
  destruct (digitsThen s2) as [[|fin rest]|] eqn:E2;
    try (exfalso; now apply H).
  destruct (mM fin) eqn:Em; [|exfalso; now apply H].
  assert (E0 : digitsThen (c1 :: c2 :: ch ";" :: s1) = Some (ch ";" :: s1)).
  { unfold digitsThen. rewrite Hd1. cbn [skipWhile]. now rewrite Hd2. }
  assert (Hsemi : forall r c t caps' k,
            digit c = true -> mt (Lit (ch ";") ;; r) (c :: t) caps' k = None).
  { intros r c t caps' k Hc. now rewrite mt_lit_cons, digit_not_semi. }
  rewrite !mt_lit_cons, !N.eqb_refl.
  rewrite mt_plus_digits, E0 by (intros; now apply Hsemi).
  rewrite mt_lit_cons, N.eqb_refl.
  rewrite mt_plus_digits, E1 by (intros; now apply Hsemi).
  rewrite mt_lit_cons, N.eqb_refl.
  rewrite mt_plus_digits, E2.
  - cbn [mt]. rewrite Em. discriminate.
  - intros c t caps' Hc. cbn [mt]. now rewrite digit_not_mM.
Qed.

Lemma test_sgr_of_wheel s : deltaSpec s <> 0%Z -> test reSgrMouse s = true.
Proof.
  induction s as [|c t IH]; intros H; [now elim H|].
  cbn [test]. pose proof (matchAt_sgr_of_wheel (c :: t)) as Hm.
  destruct (matchAt reSgrMouse (c :: t)); [reflexivity|].
  apply IH. intros Ht. cbn [deltaSpec] in H.
  destruct (Z.eq_dec (wheelAt (c :: t)) 0) as [E|E]; [lia|].
  now apply Hm in E.
Qed.

(** X21: a text that the wheel decoder scrolls on is a mouse sequence
    for [hasMouseSequence], so when it reaches the input field as a
    change, none of it is typed: the field keeps its scrubbed previous
    value. *)
Theorem X21_wheel_report_is_mouse (prev value : jstring) :
  delta (consumeMouseScroll value) <> 0%Z ->
  hasMouseSequence value = true /\
  handleInputChange prev value = stripInputArtifacts prev.
Proof.
  intros H. rewrite consumeMouseScroll_delta in H.
  assert (Hm : hasMouseSequence value = true)
    by (unfold hasMouseSequence; now rewrite test_sgr_of_wheel).
  split; [exact Hm|]. unfold handleInputChange. now rewrite Hm.
Qed.

Lemma X21_wheel_report_is_mouse_witness :
  hasMouseSequence (js "ab" ++ ESC :: js "[<64;10;5M") = true /\
  handleInputChange (js "ab") (js "ab" ++ ESC :: js "[<64;10;5M")
  = stripInputArtifacts (js "ab").
Proof.
  apply (X21_wheel_report_is_mouse (js "ab")
           (js "ab" ++ ESC :: js "[<64;10;5M")).
  vm_compute. discriminate.
Defined.

(** ** [pollAutonomyLogs] *)

Lemma insertByCreatedAt_perm m l :
  Permutation (insertByCreatedAt m l) (m :: l).
Proof.
  induction l as [|y l IH]; simpl; [reflexivity|].
  destruct (_ <=? _)%Z; [reflexivity|].
  apply perm_trans with (y :: m :: l); [now apply perm_skip | apply perm_swap].
Qed.

Lemma sortByCreatedAt_perm l : Permutation (sortByCreatedAt l) l.
Proof.
  induction l as [|m l IH]; simpl; [constructor|].
  apply perm_trans with (m :: sortByCreatedAt l);
    [apply insertByCreatedAt_perm | now apply perm_skip].
Qed.

Lemma insertByCreatedAt_sorted m l :
  StronglySorted byCreatedAt l ->
  StronglySorted byCreatedAt (insertByCreatedAt m l).
Proof.
  induction 1 as [|y l Hl IH Hy]; simpl.
  - repeat constructor.
  - destruct (Z.leb_spec (stamp m) (stamp y)) as [Hle|Hlt].
    + constructor; [now constructor|].
      constructor; [exact Hle|].
      revert Hy. apply Forall_impl. unfold byCreatedAt. intros; lia.
    + constructor; [exact IH|].
      apply (Permutation_Forall
               (Permutation_sym (insertByCreatedAt_perm m l))).
      constructor; [unfold byCreatedAt; lia | exact Hy].
Qed.

Lemma sortByCreatedAt_sorted l : StronglySorted byCreatedAt (sortByCreatedAt l).
Proof.
  induction l as [|m l IH]; simpl; [constructor|].
  now apply insertByCreatedAt_sorted.
Qed.

Lemma last_In {A : Type} (l : list A) d : l <> [] -> In (last l d) l.
Proof.
  induction l as [|a [|b l] IH]; intros H; [congruence | now left |].
  right. apply IH. discriminate.
Qed.

(** The last memory of a sorted list is the newest. *)
Lemma sorted_last l :
  StronglySorted byCreatedAt l ->
  forall d x, In x l -> byCreatedAt x (last l d).
Proof.
  induction 1 as [|a l Hl IH Ha]; intros d x Hx; [destruct Hx|].
  destruct l as [|b l].
  - destruct Hx as [->|[]]. unfold byCreatedAt. simpl. lia.
  - change (last (a :: b :: l) d) with (last (b :: l) d).
    destruct Hx as [->|Hx]; [|now apply IH].
    rewrite Forall_forall in Ha. apply Ha, last_In. discriminate.
Qed.

Lemma freshMemories_In memories lastSeen m :
  In m (freshMemories memories lastSeen) <->
  In m memories /\ isAutonomyResponse m = true /\ (lastSeen < stamp m)%Z.
Proof.
  unfold freshMemories.
  split.
  - intros H.
    apply (Permutation_in _ (sortByCreatedAt_perm _)) in H.
    apply filter_In in H. destruct H as [H Hs].
    apply filter_In in H. destruct H as [H Ha].
    apply Z.ltb_lt in Hs. now repeat split.
  - intros (H & Ha & Hs).
    apply (Permutation_in _ (Permutation_sym (sortByCreatedAt_perm _))).
    apply filter_In. split; [|now apply Z.ltb_lt].
    apply filter_In. now split.
Qed.

Lemma freshMemories_none memories lastSeen :
  (forall m, In m memories -> isAutonomyResponse m = true ->
             (stamp m <= lastSeen)%Z) ->
  freshMemories memories lastSeen = [].
Proof.
  intros H. destruct (freshMemories memories lastSeen) as [|m l] eqn:E;
    [reflexivity|].
  assert (Hin : In m (freshMemories memories lastSeen))
    by (rewrite E; now left).
  apply freshMemories_In in Hin. destruct Hin as (Hm & Ha & Hs).
  specialize (H m Hm Ha). lia.
Qed.

(** X22: one poll hands to [onLog] the texts of the autonomous memories
    newer than [lastSeen], each once, oldest first; [lastSeen] never goes
    back and ends at or above the time stamp of every autonomous memory
    of the poll, so a second poll over the same memories logs nothing.
    Without the autonomy service a poll does nothing. *)
Theorem X22_poll_logs_once (memories : list Memory) (lastSeen : Z) :
  let logs := fst (pollAutonomyLogs true memories lastSeen) in
  let seen := snd (pollAutonomyLogs true memories lastSeen) in
  (exists fresh,
      logs = map textOf fresh /\
      StronglySorted byCreatedAt fresh /\
      Permutation fresh
        (filter (fun m => isAutonomyResponse m && (lastSeen <? stamp m)%Z)
                memories)) /\
  (lastSeen <= seen)%Z /\
  (forall m, In m memories -> isAutonomyResponse m = true ->
             (stamp m <= seen)%Z) /\
  pollAutonomyLogs true memories seen = ([], seen) /\
  pollAutonomyLogs false memories lastSeen = ([], lastSeen).
Proof.
  intros logs seen. subst logs seen. unfold pollAutonomyLogs.
  cbn [negb fst snd].
  set (fresh := freshMemories memories lastSeen).
  set (seen := match fresh with
               | [] => lastSeen
               | m :: _ => stamp (last fresh m)
               end).
  assert (Hsorted : StronglySorted byCreatedAt fresh)
    by apply sortByCreatedAt_sorted.
  assert (Hseen : (lastSeen <= seen)%Z).
  { subst seen. destruct fresh as [|m0 l] eqn:E; [lia|].
    assert (Hin : In (last (m0 :: l) m0) fresh)
      by (rewrite E; apply last_In; discriminate).
    apply freshMemories_In in Hin. lia. }
  assert (Hall : forall m, In m memories -> isAutonomyResponse m = true ->
                           (stamp m <= seen)%Z).
  { intros m Hm Ha. destruct (Z.le_gt_cases (stamp m) lastSeen) as [|Hs];
      [lia|].
    assert (Hin : In m fresh) by (apply freshMemories_In; now repeat split).
    subst seen. destruct fresh as [|m0 l] eqn:E; [destruct Hin|].
    apply (sorted_last _ Hsorted m0 m Hin). }
  split; [|split; [exact Hseen | split; [exact Hall | split]]].
  - exists fresh. split; [reflexivity|]. split; [exact Hsorted|].
    subst fresh. unfold freshMemories.
    eapply perm_trans; [apply sortByCreatedAt_perm|].
    clear. induction memories as [|m l IH]; simpl; [constructor|].
    destruct (isAutonomyResponse m); simpl; [|exact IH].
    destruct (lastSeen <? stamp m)%Z; [now apply perm_skip | exact IH].
  - now rewrite (freshMemories_none memories seen Hall).
  - reflexivity.
Qed.

Lemma X22_poll_logs_once_witness :
  (stamp (mkMemory (Some 10%Z)
            (Some (mkContent (Some (js "bought"))
                     (Some (mkMetadata (Some true)
                              (Some (js "autonomous-response")))))))
   <= snd (pollAutonomyLogs true
             [mkMemory (Some 20%Z)
                (Some (mkContent (Some (js "sold"))
                         (Some (mkMetadata (Some true)
                                  (Some (js "autonomous-response"))))));
              mkMemory (Some 10%Z)
                (Some (mkContent (Some (js "bought"))
                         (Some (mkMetadata (Some true)
                                  (Some (js "autonomous-response"))))))]
             5%Z))%Z.
Proof.
  apply (proj1 (proj2 (proj2 (X22_poll_logs_once
           [mkMemory (Some 20%Z)
              (Some (mkContent (Some (js "sold"))
                       (Some (mkMetadata (Some true)
                                (Some (js "autonomous-response"))))));
            mkMemory (Some 10%Z)
              (Some (mkContent (Some (js "bought"))
                       (Some (mkMetadata (Some true)
                                (Some (js "autonomous-response"))))))]
           5%Z)))).
  - right. left. reflexivity.
  - reflexivity.
Defined.

(** ** [cycleSidebarView] *)

(** X23: [cycleSidebarView] resets the sidebar scroll offset and moves
    to another view; three presses come back to the view they started
    from, and every view is reached within two presses. *)
Theorem X23_cycle_views (view : SidebarView) (offset : Z) :
  snd (cycleSidebarView (view, offset)) = 0%Z /\
  fst (cycleSidebarView (view, offset)) <> view /\
  fst (Nat.iter 3 cycleSidebarView (view, offset)) = view /\
  (forall target,
      exists n, n <= 2 /\
                fst (Nat.iter n cycleSidebarView (view, offset)) = target).
Proof.
  split; [reflexivity|].
  split; [destruct view; discriminate|].
  split; [destruct view; reflexivity|].
  intros target.
  destruct view, target;
    first [ exists 0; split; [lia | reflexivity]
          | exists 1; split; [lia | reflexivity]
          | exists 2; split; [lia | reflexivity] ].
Qed.

(** ** The settings wizard *)

(** X24: a secret field shows bullets only, as many as the value has
    code units and at most 12, so two secrets of the same length (or
    both of 12 or more code units) look the same; any other field shows
    its value. *)
Theorem X24_secret_display (value : jstring) :
  Forall (eq bullet) (formatFieldValue true value) /\
  length (formatFieldValue true value) = Nat.min 12 (length value) /\
  (forall other,
      Nat.min 12 (length other) = Nat.min 12 (length value) ->
      formatFieldValue true other = formatFieldValue true value) /\
  formatFieldValue false value = value.
Proof.
  assert (E : forall v, formatFieldValue true v
                        = repeat bullet (Nat.min 12 (length v))).
  { intros v. unfold formatFieldValue. now destruct v. }
  rewrite E. split; [|split; [|split]].
  - apply Forall_forall. intros c Hc. apply repeat_spec in Hc. now subst.
  - apply repeat_length.
  - intros other H. now rewrite E, H.
  - reflexivity.
Qed.

Lemma X24_secret_display_witness :
  formatFieldValue true (js "0123456789abcdef")
  = formatFieldValue true (js "sk-live-998877").
Proof.
  apply (proj1 (proj2 (proj2 (X24_secret_display (js "sk-live-998877"))))
               (js "0123456789abcdef")).
  reflexivity.
Defined.

Lemma arrayIndexOf_In v d : forall l,
  In v l ->
  exists i, arrayIndexOf jeqb v l = Some i /\ i < length l /\ nth i l d = v.
Proof.
  induction l as [|y l IH]; intros H; [destruct H|]. simpl.
  destruct (jeqb y v) eqn:E.
  - apply jeqb_eq in E. exists 0. repeat split; [lia | exact E].
  - destruct H as [->|H]; [now rewrite (proj2 (jeqb_eq v v) eq_refl) in E|].
    destruct (IH H) as (i & -> & Hi & Hn). exists (S i).
    repeat split; [lia | exact Hn].
Qed.

Lemma arrayIndexOf_nth d : forall l i,
  NoDup l -> i < length l -> arrayIndexOf jeqb (nth i l d) l = Some i.
Proof.
  induction l as [|y l IH]; intros i Hnd Hi; [simpl in Hi; lia|].
  inversion Hnd as [|? ? Hy Hl]; subst. simpl in Hi. destruct i as [|i]; simpl.
  - now rewrite (proj2 (jeqb_eq y y) eq_refl).
  - destruct (jeqb y (nth i l d)) eqn:E.
    + apply jeqb_eq in E. exfalso. apply Hy. rewrite E. apply nth_In. lia.
    + rewrite IH by (assumption || lia). reflexivity.
Qed.

Lemma currentValue_In options raw :
  options <> [] -> In (currentValue options raw) options.
Proof.
  intros Hne. unfold currentValue. destruct (existsb _ _) eqn:E.
  - apply existsb_exists in E. destruct E as (x & Hx & E).
    apply jeqb_eq in E. now subst.
  - destruct options; [congruence | now left].
Qed.

Lemma currentValue_member options v : In v options -> currentValue options v = v.
Proof.
  intros H. unfold currentValue.
  replace (existsb (jeqb v) options) with true; [reflexivity|].
  symmetry. apply existsb_exists. exists v. split; [exact H|].
  now apply jeqb_eq.
Qed.

Lemma mod_next_prev n i :
  (0 <= i < n)%Z ->
  (0 <= (i + 1) mod n < n)%Z /\ (0 <= (i - 1 + n) mod n < n)%Z /\
  (((i + 1) mod n - 1 + n) mod n = i)%Z /\
  (((i - 1 + n) mod n + 1) mod n = i)%Z.
Proof.
  intros H.
  assert (M : forall a b, (0 <= b < n)%Z -> (a = b \/ a = b + 1 * n)%Z ->
                          (a mod n = b)%Z).
  { intros a b Hb [->| ->]; [|rewrite Z.mod_add by lia];
      apply Z.mod_small; lia. }
  assert (E1 : ((i + 1) mod n = if (i + 1 =? n) then 0 else i + 1)%Z)
    by (destruct (Z.eqb_spec (i + 1) n); apply M; lia).
  assert (E2 : ((i - 1 + n) mod n = if (i =? 0) then n - 1 else i - 1)%Z)
    by (destruct (Z.eqb_spec i 0); apply M; lia).
  rewrite E1, E2.
  destruct (Z.eqb_spec (i + 1) n), (Z.eqb_spec i 0);
    repeat split; try lia; apply M; lia.
Qed.

(** The index the arrow keys start from is the index of the value
    shown. *)
Lemma selectIndex_shown options raw :
  options <> [] ->
  exists i, selectIndex options raw = Z.of_nat i /\ i < length options /\
            forall d, nth i options d = currentValue options raw.
Proof.
  intros Hne. unfold selectIndex.
  destruct (arrayIndexOf_In _ raw _ (currentValue_In options raw Hne))
    as (i & -> & Hi & Hn).
  exists i. split; [lia|]. split; [exact Hi|].
  intros d. transitivity (nth i options raw); [apply nth_indep, Hi | exact Hn].
Qed.

Lemma selectIndex_nth options i d :
  NoDup options -> i < length options ->
  selectIndex options (nth i options d) = Z.of_nat i.
Proof.
  intros Hnd Hi. unfold selectIndex.
  rewrite currentValue_member by now apply nth_In.
  rewrite arrayIndexOf_nth by assumption. lia.
Qed.

(** X25: on a select field with options, the value shown is one of the
    options and each arrow key stores one of the options; when the
    options differ from each other, the left key undoes the right key
    and the right key the left key. *)
Theorem X25_select_keys (options : list jstring) (raw : jstring) :
  options <> [] ->
  In (currentValue options raw) options /\
  exists l r,
    selectLeft options raw = Some l /\ In l options /\
    selectRight options raw = Some r /\ In r options /\
    (NoDup options ->
     selectRight options l = Some (currentValue options raw) /\
     selectLeft options r = Some (currentValue options raw)).
Proof.
  intros Hne. split; [now apply currentValue_In|].
  destruct (selectIndex_shown options raw Hne) as (i & Ei & Hi & Hn).
  assert (Hlen : (length options =? 0) = false)
    by (destruct options; [congruence | reflexivity]).
  set (n := Z.of_nat (length options)).
  destruct (mod_next_prev n (Z.of_nat i) ltac:(subst n; lia))
    as (Hr & Hl & Erl & Elr).
  unfold selectLeft, selectRight. rewrite Hlen, Ei. fold n.
  set (cv := currentValue options raw) in *.
  assert (Bl : Z.to_nat ((Z.of_nat i - 1 + n) mod n) < length options)
    by (subst n; lia).
  assert (Br : Z.to_nat ((Z.of_nat i + 1) mod n) < length options)
    by (subst n; lia).
  eexists. eexists.
  split; [reflexivity|]. split; [now apply nth_In|].
  split; [reflexivity|]. split; [now apply nth_In|].
  intros Hnd. rewrite !selectIndex_nth by assumption.
  rewrite !Z2Nat.id by lia. rewrite Elr, Erl, Nat2Z.id.
  now rewrite !Hn.
Qed.

Lemma X25_select_keys_witness :
  In (currentValue [js "polygon"; js "amoy"] (js "mainnet"))
     [js "polygon"; js "amoy"].
Proof.
  apply (proj1 (X25_select_keys [js "polygon"; js "amoy"] (js "mainnet")
                  ltac:(discriminate))).
Defined.

(** ** The values of the [.env] file *)

(** Replacing a pattern of two literals. *)
Lemma matchLen_lit2 x y s :
  matchLen (Lit x ;; Lit y) s =
  match s with
  | a :: b :: _ => if N.eqb x a && N.eqb y b then Some 2 else None
  | _ => None
  end.
Proof.
  unfold matchLen, matchAt, Lit. cbn [mt].
  destruct s as [|a [|b t]]; [reflexivity | now destruct (N.eqb x a) |].
  destruct (N.eqb x a); [|reflexivity].
  destruct (N.eqb y b); [|reflexivity].
  cbn [andb length]. f_equal. lia.
Qed.

Lemma replace2_nil x y rep : replaceAll (Lit x ;; Lit y) rep [] = [].
Proof. reflexivity. Qed.

Lemma replace2_hit x y rep t :
  replaceAll (Lit x ;; Lit y) rep (x :: y :: t)
  = rep ++ replaceAll (Lit x ;; Lit y) rep t.
Proof.
  unfold replaceAll. cbn [replaceFrom].
  now rewrite matchLen_lit2, !N.eqb_refl.
Qed.

Lemma replace2_skip x y rep c t :
  c <> x ->
  replaceAll (Lit x ;; Lit y) rep (c :: t)
  = c :: replaceAll (Lit x ;; Lit y) rep t.
Proof.
  intros H. unfold replaceAll. cbn [replaceFrom]. rewrite matchLen_lit2.
  destruct t as [|b t]; [reflexivity|].
  destruct (N.eqb_spec x c); [congruence | reflexivity].
Qed.

Lemma replace2_miss x y rep c t :
  hd_error t <> Some y ->
  replaceAll (Lit x ;; Lit y) rep (c :: t)
  = c :: replaceAll (Lit x ;; Lit y) rep t.
Proof.
  intros H. unfold replaceAll. cbn [replaceFrom]. rewrite matchLen_lit2.
  destruct t as [|b t]; [reflexivity|].
  destruct (N.eqb_spec y b) as [->|]; [now elim H|].
  now rewrite andb_false_r.
Qed.

Lemma replace2_plain x y rep s :
  Forall (fun c => c <> x) s -> replaceAll (Lit x ;; Lit y) rep s = s.
Proof.
  induction 1 as [|c t Hc _ IH]; [reflexivity|].
  now rewrite replace2_skip, IH.
Qed.

Lemma replace2_prefix x y rep a s :
  Forall (fun c => c <> x) a ->
  replaceAll (Lit x ;; Lit y) rep (a ++ s)
  = a ++ replaceAll (Lit x ;; Lit y) rep s.
Proof.
  induction 1 as [|c t Hc _ IH]; [reflexivity|].
  cbn [app]. now rewrite replace2_skip, IH.
Qed.

(** The three replacements of [formatEnvValue] escape each code unit on
    its own. *)
Lemma escaped_units value :
  replaceAll (Lit LF) [BACKSLASH; ch "n"]
    (replaceAll (Lit QUOTE) [BACKSLASH; QUOTE]
       (replaceAll (Lit BACKSLASH) [BACKSLASH; BACKSLASH] value))
  = flat_map escapeUnit value.
Proof.
  unfold Lit. rewrite !replaceAll_class.
  induction value as [|c t IH]; [reflexivity|].
  cbn [flat_map]. rewrite !flat_map_app, IH. f_equal.
  unfold escapeUnit.
  destruct (N.eqb_spec BACKSLASH c) as [<-|Hb]; [reflexivity|].
  destruct (N.eqb_spec c BACKSLASH) as [|_]; [congruence|].
  cbn [flat_map app].
  destruct (N.eqb_spec QUOTE c) as [<-|Hq]; [reflexivity|].
  destruct (N.eqb_spec c QUOTE) as [|_]; [congruence|].
  cbn [flat_map app].
  destruct (N.eqb_spec LF c) as [<-|Hl]; [reflexivity|].
  destruct (N.eqb_spec c LF) as [|_]; [congruence|]. reflexivity.
Qed.

Lemma escapeUnit_head t :
  match t with
  | c :: _ => c <> ch "n"
  | [] => True
  end ->
  hd_error (flat_map escapeUnit t) <> Some (ch "n").
Proof.
  destruct t as [|c t]; [discriminate|]. intros Hc.
  cbn [flat_map]. unfold escapeUnit.
  destruct (N.eqb c BACKSLASH); [discriminate|].
  destruct (N.eqb c QUOTE); [discriminate|].
  destruct (N.eqb c LF); [discriminate|].
  cbn [app hd_error]. congruence.
Qed.

(** The first replacement of [parseEnvValue] undoes the escaping of the
    line feeds, when no backslash of the value is followed by [n]. *)
Lemma unescape_newlines value :
  hasBackslashN value = false ->
  replaceAll (Lit BACKSLASH ;; Lit (ch "n")) [LF] (flat_map escapeUnit value)
  = flat_map escapeUnit1 value.
Proof.
  induction value as [|c t IH]; intros H; [reflexivity|].
  cbn [hasBackslashN] in H. apply orb_false_iff in H. destruct H as [Hc Ht].
  specialize (IH Ht). cbn [flat_map]. unfold escapeUnit at 1, escapeUnit1 at 1.
  destruct (N.eqb_spec c BACKSLASH) as [->|Hb].
  - cbn [app andb] in *.
    rewrite replace2_miss by discriminate.
    rewrite replace2_miss, IH; [reflexivity|].
    apply escapeUnit_head. destruct t as [|c' t']; [exact I|].
    intros ->. discriminate Hc.
  - destruct (N.eqb_spec c QUOTE) as [->|Hq].
    + cbn [app]. rewrite replace2_miss by discriminate.
      rewrite replace2_skip by discriminate. now rewrite IH.
    + destruct (N.eqb_spec c LF) as [->|Hl].
      * cbn [app]. rewrite replace2_hit. now rewrite IH.
      * cbn [app]. rewrite replace2_skip by assumption. now rewrite IH.
Qed.

Lemma escapeUnit1_head t :
  hd_error (flat_map escapeUnit1 t) <> Some QUOTE.
Proof.
  destruct t as [|c t]; [discriminate|].
  cbn [flat_map]. unfold escapeUnit1.
  destruct (N.eqb c BACKSLASH); [discriminate|].
  destruct (N.eqb_spec c QUOTE); [discriminate|].
  cbn [app hd_error]. congruence.
Qed.

Lemma unescape_quotes value :
  replaceAll (Lit BACKSLASH ;; Lit QUOTE) [QUOTE] (flat_map escapeUnit1 value)
  = flat_map escapeUnit2 value.
Proof.
  induction value as [|c t IH]; [reflexivity|].
  cbn [flat_map]. unfold escapeUnit1 at 1, escapeUnit2 at 1.
  destruct (N.eqb_spec c BACKSLASH) as [->|Hb].
  - cbn [app]. rewrite replace2_miss by discriminate.
    rewrite replace2_miss, IH; [reflexivity | apply escapeUnit1_head].
  - destruct (N.eqb_spec c QUOTE) as [->|Hq].
    + cbn [app]. rewrite replace2_hit. now rewrite IH.
    + cbn [app]. rewrite replace2_skip by assumption. now rewrite IH.
Qed.

Lemma unescape_backslashes value :
  replaceAll (Lit BACKSLASH ;; Lit BACKSLASH) [BACKSLASH]
    (flat_map escapeUnit2 value)
  = value.
Proof.
  induction value as [|c t IH]; [reflexivity|].
  cbn [flat_map]. unfold escapeUnit2 at 1.
  destruct (N.eqb_spec c BACKSLASH) as [->|Hb]; cbn [app].
  - rewrite replace2_hit. now rewrite IH.
  - rewrite replace2_skip by assumption. now rewrite IH.
Qed.

(** What [parseEnvValue] reads between two double quotes. *)
Lemma parseEnvValue_quoted inner :
  parseEnvValue ([QUOTE] ++ inner ++ [QUOTE])
  = replaceAll (Lit BACKSLASH ;; Lit BACKSLASH) [BACKSLASH]
      (replaceAll (Lit BACKSLASH ;; Lit QUOTE) [QUOTE]
         (replaceAll (Lit BACKSLASH ;; Lit (ch "n")) [LF] inner)).
Proof.
  unfold parseEnvValue.
  assert (Et : trim ([QUOTE] ++ inner ++ [QUOTE]) = (QUOTE :: inner) ++ [QUOTE]).
  { unfold trim, trimStart. cbn [app skipWhile].
    change (jsWhite QUOTE) with false. cbv iota.
    pose proof (trimEnd_app (QUOTE :: inner) QUOTE [] eq_refl eq_refl) as T.
    rewrite app_nil_r in T. exact T. }
  rewrite Et.
  assert (El : (length ((QUOTE :: inner) ++ [QUOTE]) =? 0) = false)
    by reflexivity.
  rewrite El.
  assert (Es : startsWith [QUOTE] ((QUOTE :: inner) ++ [QUOTE]) = true)
    by reflexivity.
  assert (Ee : endsWith [QUOTE] ((QUOTE :: inner) ++ [QUOTE]) = true).
  { unfold endsWith. now rewrite rev_app_distr. }
  rewrite Es, Ee. cbn [andb].
  assert (Ei : jsSlice 1 (-1) ((QUOTE :: inner) ++ [QUOTE]) = inner).
  { unfold jsSlice, sliceIndex. rewrite length_app. cbn [length].
    change (1 <? 0)%Z with false. change (-1 <? 0)%Z with true. cbv iota.
    replace (Z.to_nat (Z.min 1 (Z.of_nat (S (length inner) + 1)))) with 1
      by lia.
    cbn [skipn app].
    replace (Z.to_nat _) with (length inner) by lia.
    now rewrite firstn_app, Nat.sub_diag, firstn_all, app_nil_r. }
  now rewrite Ei.
Qed.

Lemma test_class_false p s :
  test (Cls p) s = false -> Forall (fun c => p c = false) s.
Proof.
  induction s as [|c t IH]; [constructor|].
  cbn [test]. unfold matchAt. cbn [mt].
  destruct (p c) eqn:E; [discriminate|]. intros H. constructor; auto.
Qed.

(** A value without special code units is read back as it is. *)
Lemma parseEnvValue_plain value :
  Forall (fun c => envSpecial c = false) value -> parseEnvValue value = value.
Proof.
  intros H.
  assert (Hw : Forall (fun c => jsWhite c = false) value).
  { revert H. apply Forall_impl. intros c Hc. unfold envSpecial in Hc.
    do 4 (apply orb_false_iff in Hc; destruct Hc as [Hc _]). exact Hc. }
  assert (Sk : forall s, Forall (fun c => jsWhite c = false) s ->
                         skipWhile jsWhite s = s).
  { intros s Hs. destruct Hs as [|c t Hc _]; [reflexivity|].
    simpl. now rewrite Hc. }
  assert (Et : trim value = value).
  { unfold trim, trimStart, trimEnd. rewrite (Sk value Hw).
    rewrite Sk by now apply Forall_rev. apply rev_involutive. }
  unfold parseEnvValue. rewrite Et.
  destruct value as [|c t]; [reflexivity|].
  cbn [length Nat.eqb startsWith].
  inversion H as [|? ? Hc _]; subst. unfold envSpecial in Hc.
  apply orb_false_iff in Hc. destruct Hc as [Hc _].
  apply orb_false_iff in Hc. destruct Hc as [Hc Ha].
  apply orb_false_iff in Hc. destruct Hc as [_ Hq].
  rewrite (N.eqb_sym QUOTE c), Hq, (N.eqb_sym APOSTROPHE c), Ha.
  reflexivity.
Qed.

(** X26: a value written by [formatEnvValue] is read back by
    [parseEnvValue] as it was, whatever whitespace, quotes, hash signs,
    line feeds and backslashes it contains, as long as no backslash of
    it is followed by the letter [n]; a backslash followed by [n] comes
    back as a backslash followed by a line feed. *)
Theorem X26_env_value_round_trip (value : jstring) :
  (hasBackslashN value = false ->
   parseEnvValue (formatEnvValue value) = value) /\
  (forall a b,
      Forall plainUnit a -> Forall plainUnit b ->
      value = a ++ [BACKSLASH; ch "n"] ++ b ->
      parseEnvValue (formatEnvValue value) = a ++ [BACKSLASH; LF] ++ b).
Proof.
  split.
  - intros H. unfold formatEnvValue.
    destruct (test (Cls envSpecial) value) eqn:E; cbn [negb].
    + rewrite escaped_units, parseEnvValue_quoted.
      now rewrite unescape_newlines, unescape_quotes, unescape_backslashes.
    + now apply parseEnvValue_plain, test_class_false.
  - intros a b Ha Hb ->. unfold formatEnvValue.
    assert (Hplain : forall s, Forall plainUnit s ->
                       flat_map escapeUnit s = s
                       /\ Forall (fun c => c <> BACKSLASH) s).
    { induction 1 as [|c t (Hc1 & Hc2 & Hc3) _ [IH1 IH2]];
        [now split|]. split; [|now constructor].
      cbn [flat_map]. rewrite IH1. unfold escapeUnit.
      destruct (N.eqb_spec c BACKSLASH); [congruence|].
      destruct (N.eqb_spec c QUOTE); [congruence|].
      destruct (N.eqb_spec c LF); [congruence|]. reflexivity. }
    destruct (Hplain a Ha) as [Ea Na]. destruct (Hplain b Hb) as [Eb Nb].
    assert (E : test (Cls envSpecial) (a ++ [BACKSLASH; ch "n"] ++ b) = true).
    { destruct (test _ _) eqn:T; [reflexivity|].
      apply test_class_false in T. apply Forall_app in T.
      destruct T as [_ T]. inversion T as [|? ? Hc _]. discriminate Hc. }
    rewrite E. cbn [negb].
    rewrite escaped_units, parseEnvValue_quoted.
    rewrite !flat_map_app, Ea, Eb.
    change (flat_map escapeUnit [BACKSLASH; ch "n"])
      with [BACKSLASH; BACKSLASH; ch "n"].
    rewrite replace2_prefix by exact Na. cbn [app].
    rewrite replace2_miss by discriminate.
    rewrite replace2_hit, (replace2_plain _ _ _ b Nb).
    cbn [app].
    rewrite replace2_prefix by exact Na.
    rewrite replace2_miss by discriminate.
    rewrite (replace2_plain _ _ _ (LF :: b))
      by (constructor; [discriminate | exact Nb]).
    rewrite replace2_prefix by exact Na.
    rewrite replace2_miss by discriminate.
    rewrite (replace2_plain _ _ _ (LF :: b))
      by (constructor; [discriminate | exact Nb]).
    reflexivity.
Qed.

Lemma X26_env_value_round_trip_witness :
  parseEnvValue (formatEnvValue (js "a b#c" ++ [QUOTE; BACKSLASH; LF]))
  = js "a b#c" ++ [QUOTE; BACKSLASH; LF]
  /\ parseEnvValue (formatEnvValue (js "C:" ++ [BACKSLASH; ch "n"] ++ js "ew"))
     = js "C:" ++ [BACKSLASH; LF] ++ js "ew".
Proof.
  split.
  - apply (proj1 (X26_env_value_round_trip
                    (js "a b#c" ++ [QUOTE; BACKSLASH; LF]))).
    reflexivity.
  - apply (proj2 (X26_env_value_round_trip
                    (js "C:" ++ [BACKSLASH; ch "n"] ++ js "ew"))
                 (js "C:") (js "ew")).
    + repeat constructor; discriminate.
    + repeat constructor; discriminate.
    + reflexivity.
Defined.

(** ** The log filter *)

Lemma split_parts sep s : Forall (Forall (fun c => c <> sep)) (split sep s).
Proof.
  induction s as [|c t IH]; simpl; [repeat constructor|].
  destruct (N.eqb_spec c sep) as [->|Hc]; [now constructor|].
  destruct (split sep t) as [|w ws]; [repeat constructor; assumption|].
  inversion IH; subst. constructor; [now constructor | assumption].
Qed.

Lemma join_cons sep x y l : join sep (x :: y :: l) = x ++ sep ++ join sep (y :: l).
Proof. reflexivity. Qed.

Lemma join_snoc sep x : forall l,
  l <> [] -> join sep (l ++ [x]) = join sep l ++ sep ++ x.
Proof.
  induction l as [|a [|b l] IH]; intros H; [congruence | reflexivity |].
  change ((a :: b :: l) ++ [x]) with (a :: b :: (l ++ [x])).
  rewrite !join_cons. change (b :: l ++ [x]) with ((b :: l) ++ [x]).
  rewrite IH by discriminate. now rewrite <- !app_assoc.
Qed.

Lemma join_split sep s : join [sep] (split sep s) = s.
Proof.
  induction s as [|c t IH]; [reflexivity|]. simpl.
  pose proof (split_nonempty sep t) as Hne.
  destruct (N.eqb_spec c sep) as [->|Hc].
  - destruct (split sep t) as [|w ws]; [congruence|].
    rewrite join_cons, IH. reflexivity.
  - destruct (split sep t) as [|w [|w' ws]]; [congruence | |].
    + simpl in *. now rewrite IH.
    + rewrite join_cons. rewrite join_cons in IH. now rewrite <- IH.
Qed.

Lemma split_app_sep sep x r :
  Forall (fun c => c <> sep) x ->
  split sep (x ++ sep :: r) = x :: split sep r.
Proof.
  induction 1 as [|c t Hc _ IH]; simpl.
  - now rewrite N.eqb_refl.
  - destruct (N.eqb_spec c sep); [contradiction|]. now rewrite IH.
Qed.

Lemma split_join sep : forall l,
  Forall (Forall (fun c => c <> sep)) l -> l <> [] ->
  split sep (join [sep] l) = l.
Proof.
  induction l as [|x [|y l] IH]; intros H Hne; [congruence | |].
  - inversion H; subst. now apply split_no_sep.
  - inversion H; subst. rewrite join_cons. cbn [app].
    rewrite split_app_sep by assumption.
    f_equal. apply IH; [assumption | discriminate].
Qed.

Lemma filter_all {A : Type} (f : A -> bool) l :
  Forall (fun x => f x = true) l -> filter f l = l.
Proof.
  induction 1 as [|x l Hx _ IH]; simpl; [reflexivity|].
  now rewrite Hx, IH.
Qed.

(** X27: [filterLines] never keeps a line feed in [pending.value], and
    no line of the text it returns is one that [shouldDropLine] drops.
    When no line of the pending text followed by the new text is
    dropped: if that text does not end in a line feed, nothing is lost
    or added (the returned text followed by the new pending text is the
    old pending text followed by the new text); if it ends in a line
    feed, the returned text is that text with one more line feed. *)
Theorem X27_filterLines (text pending : jstring) :
  let combined := pending ++ text in
  let output := fst (filterLines text pending) in
  let pending' := snd (filterLines text pending) in
  Forall (fun c => c <> LF) pending' /\
  Forall (fun line => shouldDropLine line = false) (split LF output) /\
  (Forall (fun line => shouldDropLine line = false) (split LF combined) ->
   if endsWith [LF] combined
   then output = combined ++ [LF] /\ pending' = []
   else output ++ pending' = combined).
Proof.
  intros combined output pending'. subst output pending'.
  unfold filterLines. fold combined.
  pose proof (split_parts LF combined) as Hparts.
  pose proof (split_nonempty LF combined) as Hne.
  pose proof (join_split LF combined) as Hjoin.
  set (lines := split LF combined) in *.
  assert (Hrest : lines = removelast lines ++ [last lines []])
    by now apply app_removelast_last.
  assert (Hinit : Forall (Forall (fun c => c <> LF)) (removelast lines)).
  { rewrite Hrest in Hparts. now apply Forall_app in Hparts. }
  assert (Hlast : Forall (fun c => c <> LF) (last lines [])).
  { rewrite Hrest in Hparts. apply Forall_app in Hparts.
    destruct Hparts as [_ H]. now inversion H. }
  assert (Hout : forall ls (p : jstring),
            Forall (Forall (fun c => c <> LF)) ls ->
            Forall (fun line => shouldDropLine line = false)
              (split LF
                 (fst (let kept := filter (fun line => negb (shouldDropLine line))
                                          ls in
                       if length kept =? 0 then ([], p)
                       else (join [LF] kept ++ [LF], p))))).
  { intros ls p Hls. cbv zeta.
    set (keep := fun line => negb (shouldDropLine line)).
    assert (Hk : Forall (fun line => shouldDropLine line = false)
                   (filter keep ls)).
    { apply Forall_forall. intros l Hl. apply filter_In in Hl.
      destruct Hl as [_ Hl]. now apply negb_true_iff in Hl. }
    assert (Hkp : Forall (Forall (fun c => c <> LF)) (filter keep ls)).
    { apply Forall_forall. intros l Hl. apply filter_In in Hl.
      rewrite Forall_forall in Hls. now apply Hls. }
    destruct (filter keep ls) as [|k ks]; cbn [length Nat.eqb fst].
    - repeat constructor.
    - assert (E : join [LF] (k :: ks) ++ [LF]
                  = join [LF] ((k :: ks) ++ [[]])).
      { rewrite join_snoc by discriminate. now rewrite app_nil_r. }
      rewrite E, split_join.
      + apply Forall_app. split; [exact Hk | repeat constructor].
      + apply Forall_app. split; [exact Hkp | repeat constructor].
      + discriminate. }
  destruct (endsWith [LF] combined).
  - split; [cbv zeta; destruct (length _ =? 0); constructor|].
    split; [now apply Hout|].
    intros Hkeep. cbv zeta.
    rewrite filter_all
      by (revert Hkeep; apply Forall_impl; intros l Hl; now rewrite Hl).
    destruct lines as [|l ls] eqn:El; [congruence|].
    cbn [length Nat.eqb fst snd]. now rewrite Hjoin.
  - split; [|split].
    + cbv zeta. destruct (length _ =? 0); exact Hlast.
    + now apply Hout.
    + intros Hkeep. cbv zeta.
      rewrite filter_all.
      * assert (E : combined
                    = join [LF] (removelast lines ++ [last lines []]))
          by (rewrite <- Hrest; symmetry; exact Hjoin).
        destruct (removelast lines) as [|l ls];
          cbn [length Nat.eqb fst snd].
        -- exact (eq_sym E).
        -- rewrite E, join_snoc by discriminate.
           now rewrite <- !app_assoc.
      * rewrite Hrest in Hkeep. apply Forall_app in Hkeep.
        destruct Hkeep as [Hkeep _]. revert Hkeep. apply Forall_impl.
        intros l Hl. now rewrite Hl.
Qed.

Lemma X27_filterLines_witness :
  fst (filterLines (js "rade" ++ LF :: js "warn: low ba") (js "T"))
  ++ snd (filterLines (js "rade" ++ LF :: js "warn: low ba") (js "T"))
  = js "T" ++ js "rade" ++ LF :: js "warn: low ba".
Proof.
  apply (proj2 (proj2 (X27_filterLines
                  (js "rade" ++ LF :: js "warn: low ba") (js "T")))).
  vm_compute. repeat constructor.
Defined.
